(** * Gimme-iPhotos: the download and removal engine of [src/downloader.py]

    A shallow embedding of [DownloaderApp.run], [download_photos],
    [remove_missing] and [_copyfileobj], together with the part of the
    operating system and of the remote photo library they talk to, and the
    properties of the reconciliation engine proved on that embedding. *)

From Stdlib Require Import ZArith.
From Stdlib.Strings Require Import Byte Ascii String.
From stdpp Require Import base gmap sets list strings.

Local Open Scope Z_scope.

(** ** Paths ([os.path]) *)

Module Path.

Definition sep : ascii := "/"%char.

(** [b.startswith("/")] *)
Definition startswith_sep (b : string) : bool :=
  match b with
  | String c _ => Ascii.eqb c sep
  | EmptyString => false
  end.

(** [a.endswith("/")] *)
Fixpoint endswith_sep (a : string) : bool :=
  match a with
  | EmptyString => false
  | String c EmptyString => Ascii.eqb c sep
  | String _ r => endswith_sep r
  end.

(** ["/" in s] *)
Fixpoint has_sep (s : string) : bool :=
  match s with
  | EmptyString => false
  | String c r => Ascii.eqb c sep || has_sep r
  end.

(** [posixpath.join(a, b)]: an absolute [b] replaces [a]; otherwise [b] is
    appended, with a separator unless [a] is empty or already ends in one. *)
Definition join (a b : string) : string :=
  if startswith_sep b then b
  else if bool_decide (a = EmptyString) || endswith_sep a then a +:+ b
  else a +:+ String sep b.

(** [p[:p.rfind("/") + 1]] *)
Fixpoint upto_last_sep (p : string) : string :=
  match p with
  | EmptyString => EmptyString
  | String c r =>
      match upto_last_sep r with
      | EmptyString =>
          if Ascii.eqb c sep then String c EmptyString else EmptyString
      | h => String c h
      end
  end.

(** [h.rstrip("/")] *)
Fixpoint rstrip_sep (h : string) : string :=
  match h with
  | EmptyString => EmptyString
  | String c r =>
      match rstrip_sep r with
      | EmptyString =>
          if Ascii.eqb c sep then EmptyString else String c EmptyString
      | r' => String c r'
      end
  end.

(** [posixpath.dirname(p)]: the head up to the last separator, with its
    trailing separators removed unless it consists of separators only. *)
Definition dirname (p : string) : string :=
  let head := upto_last_sep p in
  match rstrip_sep head with
  | EmptyString => head
  | h => h
  end.

(** [s[len(pre):]] when [s.startswith(pre)] *)
Fixpoint strip_prefix (pre s : string) : option string :=
  match pre, s with
  | EmptyString, _ => Some s
  | String a pre', String b s' =>
      if Ascii.eqb a b then strip_prefix pre' s' else None
  | String _ _, EmptyString => None
  end.

(** The name under which [p] is an entry of the directory [d], when it is
    one: [p = join d name] for a non-empty [name] without separator. *)
Definition child_name (d p : string) : option string :=
  match strip_prefix (join d EmptyString) p with
  | Some n =>
      if bool_decide (n ≠ EmptyString) && negb (has_sep n) then Some n
      else None
  | None => None
  end.

End Path.

(** ** The world the program runs in *)

(** What a path of the local file system holds.  The program tells regular
    files, directories and symbolic links apart ([os.path.isfile],
    [DirEntry.is_file(follow_symlinks=False)]), so the model has these three.
    A path string is the identity of a file: the model has no hard links, no
    permissions and no [.] or [..] aliasing, and a symbolic link is followed
    where it is the last component of a path. *)
Inductive node :=
  | File (content : list byte)
  | Dir
  | Symlink (target : string).

(** Python exceptions the modelled calls raise. *)
Inductive exn :=
  | FileNotFoundError
  | IsADirectoryError
  | NotADirectoryError
  | TooManyLinks          (* OSError ELOOP *)
  | BadFileDescriptor     (* OSError EBADF *)
  | ConnectionError       (* the remote side failed *)
  | LoginError            (* connect_to_icloud failed *)
  | Abort.                (* click.confirm without an answer *)

(** Resources the program acquired and has not closed. *)
Inductive handle :=
  | SinkFile (path : string)        (* a file object of [open] *)
  | SourceStream (name : string).   (* the response of [photo.download()] *)

Global Instance handle_eq_dec : EqDecision handle.
Proof. solve_decision. Defined.

(** [logging] levels. *)
Definition DEBUG : Z := 10.
Definition INFO : Z := 20.
Definition CRITICAL : Z := 50.

(** Lines written with [print]. *)
Inductive line :=
  | Downloading_all (destination : string) (overwriting : bool)
  | Report (downloaded skipped overwritten total : nat)
  | Checking_for_missing
  | Nothing_to_do
  | Missing_photos (n : nat)
  | Missing_name (name : string)
  | Dot
  | Removed_files (n : nat).

(** Messages handed to [self.logger]. *)
Inductive message :=
  | Connecting
  | Skipping_existing (name : string)
  | Overwriting_existing (name : string)
  | Downloading (name : string)
  | Icloud_photos (paths : gset string)
  | Considered_for_removal (name : string)
  | Abort_removal.

(** What the program does at its terminal, in order.  [Logged] records the
    call on the logger; whether the record is shown depends on the level. *)
Inductive event :=
  | Printed (l : line)
  | Logged (lvl : Z) (m : message)
  | Asked (answer : bool)                  (* click.confirm, with its answer *)
  | Bar_open (desc : string) (total : Z)   (* tqdm(...).__enter__ *)
  | Bar_update (n : nat)                   (* t.update(n) *)
  | Bar_close.                             (* tqdm(...).__exit__ *)

Record world := World {
  files : gmap string node;   (* the local file system *)
  handles : list handle;      (* acquired and not closed, most recent first *)
  console : list event;       (* what happened at the terminal, oldest first *)
  stdin : list bool;          (* the answers the user will give *)
}.

(** ** Computations: state and exceptions *)

Inductive outcome (A : Type) :=
  | Returned (a : A)
  | Raised (e : exn)
  | Unfinished.          (* a loop ran out of its iteration bound *)
Arguments Returned {A} a.
Arguments Raised {A} e.
Arguments Unfinished {A}.

Definition M (A : Type) : Type := world → outcome A * world.

Global Instance M_ret : MRet M := λ A a w, (Returned a, w).

Global Instance M_bind : MBind M := λ A B f c w,
  match c w with
  | (Returned a, w') => f a w'
  | (Raised e, w') => (Raised e, w')
  | (Unfinished, w') => (Unfinished, w')
  end.

Definition raise {A} (e : exn) : M A := λ w, (Raised e, w).

(** [with acquire as r: body]: [release] runs when the body returns and when
    it raises; it does not run when [acquire] itself raises. *)
Definition with_ {R A} (acquire : M R) (release : R → M unit)
    (body : R → M A) : M A := λ w,
  match acquire w with
  | (Returned r, w1) =>
      match body r w1 with
      | (Returned a, w2) =>
          match release r w2 with
          | (Returned _, w3) => (Returned a, w3)
          | (Raised e, w3) => (Raised e, w3)
          | (Unfinished, w3) => (Unfinished, w3)
          end
      | (Raised e, w2) => (Raised e, snd (release r w2))
      | (Unfinished, w2) => (Unfinished, w2)
      end
  | (Raised e, w1) => (Raised e, w1)
  | (Unfinished, w1) => (Unfinished, w1)
  end.

Definition emit (ev : event) : M unit := λ w,
  (Returned tt,
   {| files := files w; handles := handles w;
      console := console w ++ [ev]; stdin := stdin w |}).

Definition print (l : line) : M unit := emit (Printed l).

Definition set_files (fs : gmap string node) (w : world) : world :=
  {| files := fs; handles := handles w; console := console w;
     stdin := stdin w |}.

Definition set_handles (hs : list handle) (w : world) : world :=
  {| files := files w; handles := hs; console := console w;
     stdin := stdin w |}.

(** ** The operating system *)

Module OS.

(** Symbolic links followed before [ELOOP]. *)
Definition MAXSYMLINKS : nat := 40.

(** The path reached from [p] by following symbolic links. *)
Fixpoint follow (hops : nat) (fs : gmap string node) (p : string)
    : option string :=
  match fs !! p with
  | Some (Symlink t) =>
      match hops with
      | O => None
      | S h => follow h fs t
      end
  | _ => Some p
  end.

(** [os.path.isfile(p)]: [stat] succeeds and finds a regular file. *)
Definition isfile (fs : gmap string node) (p : string) : bool :=
  match follow MAXSYMLINKS fs p with
  | Some q => match fs !! q with Some (File _) => true | _ => false end
  | None => false
  end.

Definition path_isfile (p : string) : M bool := λ w,
  (Returned (isfile (files w) p), w).

(** Whether a new entry can be made at [q]: its directory exists.  A
    relative path without directory part lives in the current directory. *)
Definition parent_is_dir (fs : gmap string node) (q : string) : bool :=
  match Path.dirname q with
  | EmptyString => true
  | d => match fs !! d with Some Dir => true | _ => false end
  end.

(** Where [open(p, "wb")] writes, or why it fails. *)
Definition open_target (fs : gmap string node) (p : string)
    : exn + string :=
  match follow MAXSYMLINKS fs p with
  | None => inl TooManyLinks
  | Some q =>
      match fs !! q with
      | Some Dir => inl IsADirectoryError
      | Some (Symlink _) => inl TooManyLinks
      | Some (File _) => inr q
      | None =>
          if parent_is_dir fs q then inr q else inl FileNotFoundError
      end
  end.

(** [open(p, "wb")]: creates or truncates the file and returns the file
    object, here the path it writes to. *)
Definition open_wb (p : string) : M string := λ w,
  match open_target (files w) p with
  | inl e => (Raised e, w)
  | inr q =>
      (Returned q,
       set_handles (SinkFile q :: handles w)
         (set_files (<[q := File []]> (files w)) w))
  end.

(** Removes the first occurrence of [h]. *)
Fixpoint release (h : handle) (hs : list handle) : list handle :=
  match hs with
  | [] => []
  | h' :: r => if decide (h' = h) then r else h' :: release h r
  end.

(** [fdst.close()] *)
Definition close (fd : string) : M unit := λ w,
  (Returned tt, set_handles (release (SinkFile fd) (handles w)) w).

(** [fdst.write(buf)] on a file opened by [open_wb]. *)
Definition write (fd : string) (buf : list byte) : M unit := λ w,
  match files w !! fd with
  | Some (File c) =>
      (Returned tt, set_files (<[fd := File (c ++ buf)]> (files w)) w)
  | _ => (Raised BadFileDescriptor, w)
  end.

(** [os.DirEntry]: [lstat] is what [is_file(follow_symlinks=False)]
    looks at. *)
Record DirEntry := Entry {
  name : string;
  path : string;
  lstat : node;
}.

(** [entry.is_file(follow_symlinks=False)] *)
Definition is_file (e : DirEntry) : bool :=
  match lstat e with File _ => true | _ => false end.

Definition entry_of (d : string) (kv : string * node) : option DirEntry :=
  match Path.child_name d kv.1 with
  | Some n => Some (Entry n (Path.join d n) kv.2)
  | None => None
  end.

(** [os.scandir(d)]: the entries directly under the directory [d], each
    once, with [entry.path = os.path.join(d, entry.name)].  The directory
    is reached by its own path. *)
Definition scandir (d : string) : M (list DirEntry) := λ w,
  match files w !! d with
  | Some Dir => (Returned (omap (entry_of d) (map_to_list (files w))), w)
  | Some _ => (Raised NotADirectoryError, w)
  | None => (Raised FileNotFoundError, w)
  end.

(** [os.unlink(p)]: removes the file or the symbolic link at [p]. *)
Definition unlink (p : string) : M unit := λ w,
  match files w !! p with
  | Some (File _) | Some (Symlink _) =>
      (Returned tt, set_files (delete p (files w)) w)
  | Some Dir => (Raised IsADirectoryError, w)
  | None => (Raised FileNotFoundError, w)
  end.

(** [click.confirm(...)]: the next answer of the user. *)
Definition confirm : M bool := λ w,
  match stdin w with
  | [] => (Raised Abort, w)
  | answer :: rest =>
      (Returned answer,
       {| files := files w; handles := handles w;
          console := console w ++ [Asked answer]; stdin := rest |})
  end.

End OS.

(** ** The remote photo library ([pyicloud]) *)

(** How a sequence delivered over the network ends: with its end, or with a
    failure of the connection. *)
Inductive ending := Eof | Broken.

(** [download.raw]: the bytes still to be delivered, and how delivery ends. *)
Record stream := Stream {
  pending : list byte;
  stream_end : ending;
}.

(** [fsrc.read(n)]: up to [n] of the pending bytes; at the end of the data
    the empty string, or the failure. *)
Definition read (n : nat) (s : stream) : exn + list byte * stream :=
  match pending s with
  | [] =>
      match stream_end s with
      | Eof => inr ([], s)
      | Broken => inl ConnectionError
      end
  | _ :: _ => inr (take n (pending s), Stream (drop n (pending s)) (stream_end s))
  end.

(** A photo asset: [photo.filename], [photo.size], and what
    [photo.download()] gives: a response with its raw stream, or nothing when
    the call raises. *)
Record photo := Photo {
  filename : string;
  size : Z;
  download : option stream;
}.

(** [api.photos.all]: the assets the listing yields, and how it ends. *)
Record PyiCloudService := Service {
  photos_all : list photo;
  listing_end : ending;
}.

(** [photo.download()]: the response stays acquired until it is closed. *)
Definition photo_download (p : photo) : M stream := λ w,
  match download p with
  | Some s => (Returned s, set_handles (SourceStream (filename p) :: handles w) w)
  | None => (Raised ConnectionError, w)
  end.

(** ** The application *)

Record Config := {
  destination : string;
  overwrite : bool;
  remove : bool;
}.

Record DownloaderApp := App {
  level : Z;          (* self.logger.level *)
  config : Config;    (* self.config *)
}.

Definition logger_debug (m : message) : M unit := emit (Logged DEBUG m).
Definition logger_info (m : message) : M unit := emit (Logged INFO m).

(** *** Copying *)

(** [shutil.COPY_BUFSIZE] *)
Definition COPY_BUFSIZE : nat := 64 * 1024.

(** The loop of [shutil.copyfileobj]:
    [while buf := fsrc_read(length): fdst_write(buf)], with the call of
    [callback(len(buf))] that [Copy.fileobj] adds after each write.  [bound]
    limits the number of iterations. *)
Fixpoint copy_loop (bound : nat) (length : nat) (callback : nat → M unit)
    (fsrc : stream) (fdst : string) : M unit :=
  match bound with
  | O => λ w, (Unfinished, w)
  | S bound' =>
      match read length fsrc with
      | inl e => raise e
      | inr ([], _) => mret tt
      | inr (buf, fsrc') =>
          OS.write fdst buf;;
          callback (List.length buf);;
          copy_loop bound' length callback fsrc' fdst
      end
  end.

(** Iterations that suffice for a stream: every read but the last takes at
    least one byte. *)
Definition enough (fsrc : stream) : nat := S (List.length (pending fsrc)).

(** [shutil.copyfileobj(fsrc, fdst)] *)
Definition shutil_copyfileobj (fsrc : stream) (fdst : string) : M unit :=
  copy_loop (enough fsrc) COPY_BUFSIZE (λ _, mret tt) fsrc fdst.

(** Modelled from the spec: [Copy.fileobj] of the module [utils], which is
    not among the sources.  It streams the bytes from the source to the sink
    in chunks of bounded size and reports the bytes of each chunk to the
    callback after the chunk is written. *)
Definition Copy_fileobj (fsrc : stream) (fdst : string)
    (callback : nat → M unit) : M unit :=
  copy_loop (enough fsrc) COPY_BUFSIZE callback fsrc fdst.

(** [t.update(n)] of the progress bar. *)
Definition bar_update (n : nat) : M unit := emit (Bar_update n).

(** [DownloaderApp._copyfileobj] *)
Definition _copyfileobj (self : DownloaderApp) (fsrc : stream) (fdst : string)
    (size : Z) (desc : string) : M unit :=
  if (level self <=? INFO) || (size <=? 0) then
    shutil_copyfileobj fsrc fdst
  else
    with_ (emit (Bar_open desc size)) (λ _, emit Bar_close)
      (λ _, Copy_fileobj fsrc fdst bar_update).

(** *** Downloading *)

(** The local variables of [download_photos]. *)
Record locals := Locals {
  downloaded_count : nat;
  overwritten_count : nat;
  skipped_count : nat;
  total_count : nat;
  icloud_photos : gset string;
}.

Definition initial : locals := Locals 0 0 0 0 ∅.

(** Lines 181-184: the transfer of one photo to [filename]. *)
Definition transfer (self : DownloaderApp) (p : photo) (filename_ : string)
    : M unit :=
  download_ ← photo_download p;
  with_ (OS.open_wb filename_) OS.close (λ fdst,
    logger_debug (Downloading (filename p));;
    _copyfileobj self download_ fdst (size p) (filename p)).

(** Lines 170-185: the body of the loop over the photos. *)
Definition loop_body (self : DownloaderApp) (destination_ : string)
    (overwrite_existing : bool) (l : locals) (p : photo) : M locals :=
  let total := S (total_count l) in
  let filename_ := Path.join destination_ (filename p) in
  let photos := {[filename_]} ∪ icloud_photos l in
  exists_ ← OS.path_isfile filename_;
  overwritten ←
    (if (exists_ : bool) then
       if negb overwrite_existing then
         logger_debug (Skipping_existing (filename p));;
         mret None                                   (* continue *)
       else
         logger_debug (Overwriting_existing (filename p));;
         mret (Some (S (overwritten_count l)))
     else mret (Some (overwritten_count l)));
  match overwritten with
  | None =>
      mret (Locals (downloaded_count l) (overwritten_count l)
              (S (skipped_count l)) total photos)
  | Some overwritten_count_ =>
      transfer self p filename_;;
      mret (Locals (S (downloaded_count l)) overwritten_count_
              (skipped_count l) total photos)
  end.

(** [for photo in collection]: the body on each photo the listing yields;
    a listing that breaks raises after its last photo. *)
Fixpoint for_photos (body : locals → photo → M locals) (collection : list photo)
    (last : ending) (l : locals) : M locals :=
  match collection with
  | [] =>
      match last with
      | Eof => mret l
      | Broken => raise ConnectionError
      end
  | p :: rest => l' ← body l p; for_photos body rest last l'
  end.

(** [DownloaderApp.download_photos].  Wrapping the collection in [tqdm] only
    draws a progress bar over the same iteration. *)
Definition download_photos (self : DownloaderApp) (api : PyiCloudService)
    (destination_ : string) (overwrite_existing : bool) : M (gset string) :=
  print (Downloading_all destination_ overwrite_existing);;
  l ← for_photos (loop_body self destination_ overwrite_existing)
        (photos_all api) (listing_end api) initial;
  print (Report (downloaded_count l) (skipped_count l) (overwritten_count l)
           (total_count l));;
  logger_debug (Icloud_photos (icloud_photos l));;
  mret (icloud_photos l).

(** *** Removing *)

(** [for x in xs: body(x)] *)
Fixpoint for_each {A} (body : A → M unit) (xs : list A) : M unit :=
  match xs with
  | [] => mret tt
  | x :: rest => body x;; for_each body rest
  end.

(** Lines 199-203.  [photos_for_removal] is a set of [DirEntry] objects,
    which hash by identity: it holds every entry that was added, here in the
    order of the scan. *)
Fixpoint for_entries (icloud_photos_ : gset string)
    (entries : list OS.DirEntry) (photos_for_removal : list OS.DirEntry)
    : M (list OS.DirEntry) :=
  match entries with
  | [] => mret photos_for_removal
  | entry :: rest =>
      if OS.is_file entry && bool_decide (OS.path entry ∉ icloud_photos_) then
        logger_debug (Considered_for_removal (OS.name entry));;
        for_entries icloud_photos_ rest (photos_for_removal ++ [entry])
      else for_entries icloud_photos_ rest photos_for_removal
  end.

(** [DownloaderApp.remove_missing] *)
Definition remove_missing (self : DownloaderApp) (destination_ : string)
    (icloud_photos_ : gset string) : M unit :=
  print Checking_for_missing;;
  entries ← OS.scandir destination_;
  photos_for_removal ← for_entries icloud_photos_ entries [];
  match photos_for_removal with
  | [] => print Nothing_to_do
  | _ :: _ =>
      print (Missing_photos (List.length photos_for_removal));;
      for_each (λ entry, print (Missing_name (OS.name entry)))
        photos_for_removal;;
      proceed ← OS.confirm;
      if (proceed : bool) then
        for_each (λ entry, OS.unlink (OS.path entry);; print Dot)
          photos_for_removal;;
        print (Removed_files (List.length photos_for_removal))
      else logger_info Abort_removal
  end.

(** *** Running *)

(** [DownloaderApp.connect_to_icloud]: the session the service grants, when
    it grants one. *)
Definition connect_to_icloud (session : option PyiCloudService)
    : M PyiCloudService :=
  logger_info Connecting;;
  match session with
  | Some api => mret api
  | None => raise LoginError
  end.

(** [DownloaderApp.run] *)
Definition run (self : DownloaderApp) (session : option PyiCloudService)
    : M unit :=
  let config_ := config self in
  api ← connect_to_icloud session;
  icloud_photos_ ← download_photos self api (destination config_)
                     (overwrite config_);
  if remove config_ then
    remove_missing self (destination config_) icloud_photos_
  else mret tt.

(** * Vocabulary of the properties *)

(** The local path of a photo: [os.path.join(destination, photo.filename)]. *)
Definition target (destination_ : string) (p : photo) : string :=
  Path.join destination_ (filename p).

(** Events of the progress bar. *)
Definition bar (ev : event) : Prop :=
  match ev with
  | Bar_open _ _ | Bar_update _ | Bar_close => True
  | _ => False
  end.

(** Adds [evs] to the console. *)
Definition shown (evs : list event) (w : world) : world :=
  {| files := files w; handles := handles w;
     console := console w ++ evs; stdin := stdin w |}.

(** A computation is quiet when it returns and changes nothing but the
    console, where it only draws the progress bar. *)
Definition quiet {A} (c : M A) : Prop :=
  ∀ w, ∃ a evs, c w = (Returned a, shown evs w) ∧ Forall bar evs.

(** What a stream leads to once all its data is taken. *)
Definition at_end (s : stream) : outcome unit :=
  match stream_end s with
  | Eof => Returned tt
  | Broken => Raised ConnectionError
  end.

(** The three actions on a photo, and the local variables each leaves. *)
Inductive action := skip_existing | overwrite_existing_ | download_new.

Definition counted (a : action) (filename_ : string) (l : locals) : locals :=
  let photos := {[filename_]} ∪ icloud_photos l in
  match a with
  | skip_existing =>
      Locals (downloaded_count l) (overwritten_count l)
        (S (skipped_count l)) (S (total_count l)) photos
  | overwrite_existing_ =>
      Locals (S (downloaded_count l)) (S (overwritten_count l))
        (skipped_count l) (S (total_count l)) photos
  | download_new =>
      Locals (S (downloaded_count l)) (overwritten_count l)
        (skipped_count l) (S (total_count l)) photos
  end.

(** A computation followed by [return a]. *)
Definition and_then {A} (r : outcome unit * world) (a : A)
    : outcome A * world :=
  match r with
  | (Returned _, w) => (Returned a, w)
  | (Raised e, w) => (Raised e, w)
  | (Unfinished, w) => (Unfinished, w)
  end.

(** The world after the sink at [q] received the whole of [s] while the
    response of [p] stays acquired. *)
Definition transferred (p : photo) (q : string) (s : stream)
    (evs : list event) (w : world) : world :=
  shown (Logged DEBUG (Downloading (filename p)) :: evs)
    (set_handles (SourceStream (filename p) :: handles w)
       (set_files (<[q := File (pending s)]> (files w)) w)).

(** File objects among the open handles. *)
Definition is_sink (h : handle) : bool :=
  match h with SinkFile _ => true | SourceStream _ => false end.

Definition sinks (hs : list handle) : list handle := List.filter is_sink hs.

(** The messages handed to the logger, in order. *)
Definition journal (evs : list event) : list message :=
  omap (λ ev, match ev with Logged _ m => Some m | _ => None end) evs.

Definition is_skipping (m : message) : bool :=
  match m with Skipping_existing _ => true | _ => false end.
Definition is_overwriting (m : message) : bool :=
  match m with Overwriting_existing _ => true | _ => false end.
Definition is_downloading (m : message) : bool :=
  match m with Downloading _ => true | _ => false end.

(** How many logged messages are of a kind. *)
Definition tally (kind : message → bool) (evs : list event) : nat :=
  List.length (List.filter kind (journal evs)).

(** The console of a run of [download_photos] that returns: the heading,
    what the loop showed, the report and the logged set. *)
Definition pipeline_console (destination_ : string) (overwrite_existing : bool)
    (evs : list event) (downloaded skipped overwritten total : nat)
    (photos : gset string) : list event :=
  Printed (Downloading_all destination_ overwrite_existing) :: evs
  ++ [Printed (Report downloaded skipped overwritten total);
      Logged DEBUG (Icloud_photos photos)].

(** ** Concrete scenarios *)

Module Scenario.

Local Open Scope string_scope.

(** The application at its most verbose: it logs at [DEBUG] and draws no
    progress bar over a copy. *)
Definition app (overwrite_ remove_ : bool) : DownloaderApp :=
  App DEBUG {| destination := "/d"; overwrite := overwrite_;
               remove := remove_ |}.

(** An empty destination directory. *)
Definition empty_dir : gmap string node := {["/d" := Dir]}.

(** The destination of section 8 of the specification, with a symbolic
    link and a directory beside its two photos. *)
Definition two_photos : gmap string node :=
  <["/d/a.jpg" := File ["001"%byte]]>
    (<["/d/b.jpg" := File ["002"%byte]]>
       (<["/d/link" := Symlink "/d/a.jpg"]>
          (<["/d/sub" := Dir]> empty_dir))).

Definition world_of (fs : gmap string node) (answers : list bool) : world :=
  World fs [] [] answers.

Definition healthy (name : string) (data : list byte) : photo :=
  Photo name (Z.of_nat (List.length data)) (Some (Stream data Eof)).

(** A photo whose stream breaks after two bytes. *)
Definition breaking : photo :=
  Photo "a.jpg" 3 (Some (Stream ["001"; "002"]%byte Broken)).

(** The listing of section 8: [b.jpg] and [c.jpg]. *)
Definition listing : PyiCloudService :=
  Service [healthy "b.jpg" ["003"%byte]; healthy "c.jpg" ["004"%byte]] Eof.

(** A listing that names [a.jpg] twice, with different contents. *)
Definition twice : PyiCloudService :=
  Service [healthy "a.jpg" ["005"%byte]; healthy "b.jpg" ["006"%byte];
           healthy "a.jpg" ["007"%byte]] Eof.

(** A photo that declares 1000 bytes and delivers 1200. *)
Definition oversized : stream := Stream (replicate 1200 "042"%byte) Eof.

(** The paths of [listing] under the destination. *)
Definition claimed : gset string := {["/d/b.jpg"; "/d/c.jpg"]}.

(** The world of section 8 before the pipeline, with the answers the user
    will give to the removal. *)
Definition before (answers : list bool) : world :=
  world_of two_photos answers.

(** The same world after the pipeline ran on [listing]. *)
Definition downloaded (answers : list bool) : world :=
  (download_photos (app false true) listing "/d" false (before answers)).2.

End Scenario.

(** ** Vocabulary of the removal *)

(** The entries held for removal among those scanned. *)
Definition candidates (icloud_photos_ : gset string)
    (entries : list OS.DirEntry) : list OS.DirEntry :=
  List.filter
    (λ e, OS.is_file e && bool_decide (OS.path e ∉ icloud_photos_)) entries.

(** What the console shows of the candidates before the question. *)
Definition preview (cands : list OS.DirEntry) : list event :=
  Printed Checking_for_missing
  :: ((λ e, Logged DEBUG (Considered_for_removal (OS.name e))) <$> cands)
  ++ Printed (Missing_photos (List.length cands))
  :: ((λ e, Printed (Missing_name (OS.name e))) <$> cands).

(** How many times the user was asked. *)
Definition asked (evs : list event) : nat :=
  List.length
    (List.filter (λ ev, match ev with Asked _ => true | _ => false end) evs).

(** The world once the user gave the answer [a], with [rest] still to give. *)
Definition answered (a : bool) (rest : list bool) (w : world) : world :=
  {| files := files w; handles := handles w;
     console := console w ++ [Asked a]; stdin := rest |}.

(** Lines 214-217: the removal itself. *)
Definition removal (cands : list OS.DirEntry) : M unit :=
  for_each (λ entry, OS.unlink (OS.path entry);; print Dot) cands;;
  print (Removed_files (List.length cands)).

(** ** Vocabulary of the duplicates *)

(** What the loop logs of each photo when it does not overwrite and starts
    where no path of the listing holds anything: a download for the first
    photo of a path, a skip for each later photo of that path.  [seen] holds
    the paths of the photos before. *)
Fixpoint first_wins (destination_ : string) (seen : gset string)
    (photos : list photo) : list message :=
  match photos with
  | [] => []
  | p :: rest =>
      (if decide (target destination_ p ∈ seen)
       then Skipping_existing (filename p)
       else Downloading (filename p))
      :: first_wins destination_ ({[target destination_ p]} ∪ seen) rest
  end.

(** The photo at [i] is the first of the listing with its path. *)
Definition first_of_its_path (destination_ : string) (photos : list photo)
    (i : nat) (p : photo) : Prop :=
  photos !! i = Some p
  ∧ ∀ j p', (j < i)%nat → photos !! j = Some p' →
      target destination_ p' ≠ target destination_ p.

(** * Further vocabulary: what the pipeline and the removal keep *)

(** [fs'] is [fs] with regular files rewritten or created: directories and
    symbolic links are as they were, a regular file is still a regular file,
    and a path that held nothing holds nothing or a regular file. *)
Definition kept (fs fs' : gmap string node) : Prop :=
  ∀ p,
    match fs !! p with
    | Some (File _) => ∃ c, fs' !! p = Some (File c)
    | Some x => fs' !! p = Some x
    | None => fs' !! p = None ∨ ∃ c, fs' !! p = Some (File c)
    end.

(** Events that neither print a line nor ask the user. *)
Definition silent (ev : event) : Prop :=
  match ev with
  | Printed _ | Asked _ => False
  | _ => True
  end.

(** The responses of [photo.download()] among the handles. *)
Definition responses (hs : list handle) : list handle :=
  List.filter (λ h, negb (is_sink h)) hs.

(** The local variables after every photo of [photos] was skipped. *)
Definition skip_all (destination_ : string) (photos : list photo)
    (l : locals) : locals :=
  fold_left (λ l p, counted skip_existing (target destination_ p) l) photos l.

(** What the loop logs when it skips every photo. *)
Definition skips (photos : list photo) : list event :=
  (λ p, Logged DEBUG (Skipping_existing (filename p))) <$> photos.

(** The paths of the entries. *)
Definition paths (entries : list OS.DirEntry) : list string :=
  OS.path <$> entries.

(** The file system without the paths [ps]. *)
Definition without (ps : list string) (fs : gmap string node)
    : gmap string node :=
  fold_left (λ fs p, delete p fs) ps fs.

(** What the console shows of a removal of [n] files that was confirmed. *)
Definition removal_console (cands : list OS.DirEntry) : list event :=
  preview cands ++ Asked true
  :: ((λ _, Printed Dot) <$> cands)
  ++ [Printed (Removed_files (List.length cands))].

(** * The rest of the application *)

(** ** More of [os.path] *)

Module Posix.

(** [s.split("/")] *)
Fixpoint split (s : string) : list string :=
  match s with
  | EmptyString => [EmptyString]
  | String c r =>
      if Ascii.eqb c Path.sep then EmptyString :: split r
      else
        match split r with
        | h :: t => String c h :: t
        | [] => [String c EmptyString]
        end
  end.

(** ["/".join(comps)] *)
Fixpoint join_sep (comps : list string) : string :=
  match comps with
  | [] => EmptyString
  | [c] => c
  | c :: rest => c +:+ String Path.sep (join_sep rest)
  end.

(** The leading slashes [normpath] keeps: two when there are exactly two,
    otherwise one when there is any. *)
Definition initial_slashes (path : string) : nat :=
  match path with
  | String a (String b (String c _)) =>
      if Ascii.eqb a Path.sep then
        if Ascii.eqb b Path.sep && negb (Ascii.eqb c Path.sep) then 2 else 1
      else 0
  | String a (String b EmptyString) =>
      if Ascii.eqb a Path.sep then if Ascii.eqb b Path.sep then 2 else 1
      else 0
  | String a EmptyString => if Ascii.eqb a Path.sep then 1 else 0
  | EmptyString => 0
  end%nat.

(** The loop of [normpath] over the components; [new_comps] is kept with its
    last component first. *)
Fixpoint norm_comps (initial : nat) (comps new_comps : list string)
    : list string :=
  match comps with
  | [] => new_comps
  | comp :: rest =>
      if bool_decide (comp = EmptyString) || bool_decide (comp = ".")
      then norm_comps initial rest new_comps
      else if negb (bool_decide (comp = ".."))
              || (bool_decide (initial = 0%nat) && bool_decide (new_comps = []))
              || match new_comps with
                 | top :: _ => bool_decide (top = "..")
                 | [] => false
                 end
      then norm_comps initial rest (comp :: new_comps)
      else norm_comps initial rest (tail new_comps)
  end.

(** [posixpath.normpath(path)] *)
Definition normpath (path : string) : string :=
  match path with
  | EmptyString => "."
  | _ =>
      let initial := initial_slashes path in
      let comps := reverse (norm_comps initial (split path) []) in
      match String.append
              (String.string_of_list_ascii (replicate initial Path.sep))
              (join_sep comps) with
      | EmptyString => "."
      | p => p
      end
  end.

(** [posixpath.abspath(path)] in a process whose current directory is
    [cwd]. *)
Definition abspath (cwd path : string) : string :=
  normpath (if Path.startswith_sep path then path else Path.join cwd path).

(** [os.path.isdir(p)]: [stat] succeeds and finds a directory. *)
Definition isdir (fs : gmap string node) (p : string) : bool :=
  match OS.follow OS.MAXSYMLINKS fs p with
  | Some q => match fs !! q with Some Dir => true | _ => false end
  | None => false
  end.

End Posix.

(** ** Configuration: [DownloaderApp.__init__] and [get_config] *)

Definition ERROR : Z := 40.

(** Lines 29-33: the level of the logger from the number of [-v]. *)
Definition logger_level (verbose : Z) : Z :=
  let level := CRITICAL - (verbose - 1) * 10 in
  if level <? DEBUG then ERROR else Z.min level CRITICAL.

Module Settings.

(** The values of the dictionaries [args], [defaults] and [config]: [None],
    strings, booleans, integers, and the open configuration file, which is
    given by the items of its section [main], if it has that section. *)
Inductive value :=
  | VNone
  | VStr (s : string)
  | VBool (b : bool)
  | VInt (z : Z)
  | VFile (main : option (list (string * string))).

(** [bool(v)] *)
Definition truthy (v : value) : bool :=
  match v with
  | VNone => false
  | VStr s => negb (bool_decide (s = EmptyString))
  | VBool b => b
  | VInt z => negb (z =? 0)
  | VFile _ => true
  end.

(** A dictionary, in the order of insertion. *)
Definition dict : Type := list (string * value).

(** [d.get(k)], which is [d[k]] when [k in d]. *)
Fixpoint getitem (d : dict) (k : string) : option value :=
  match d with
  | [] => None
  | (k', v) :: rest => if bool_decide (k' = k) then Some v else getitem rest k
  end.

(** [k in d] *)
Definition contains (d : dict) (k : string) : bool :=
  match getitem d k with Some _ => true | None => false end.

(** [d[k] = v]: in place when [k in d], at the end otherwise. *)
Fixpoint setitem (d : dict) (k : string) (v : value) : dict :=
  match d with
  | [] => [(k, v)]
  | (k', v') :: rest =>
      if bool_decide (k' = k) then (k', v) :: rest
      else (k', v') :: setitem rest k v
  end.

(** [DownloaderApp.DEFAULTS] *)
Definition DEFAULTS : dict :=
  [("username", VNone); ("password", VNone); ("destination", VNone);
   ("overwrite", VBool false); ("remove", VBool false)].

(** Why the destination is asked for. *)
Inductive reason := Not_set | Not_a_directory | Not_writeable.

(** What [get_config] writes, logs and asks. *)
Inductive notice :=
  | Unknown_key (key : string)           (* logging.warning *)
  | Overridden (key : string)            (* self.logger.debug *)
  | Specify_username                     (* input *)
  | Password_of (username : value)       (* get_password *)
  | Specify_destination (why : reason)   (* input *)
  | Configuration (config : list (string * value)).  (* self.logger.debug *)

Inductive error :=
  | NoMainSection      (* "Config must contain section [main]" *)
  | KeyError (key : string)
  | TypeError
  | EOFError.

(** The terminal: the lines the user will type, and what was shown. *)
Record tty := Tty {
  typed : list string;
  noticed : list notice;
}.

(** The machine: the current directory, the file system, and what
    [os.access(path, os.W_OK | os.X_OK)] answers. *)
Record host := Host {
  cwd : string;
  disk : gmap string node;
  permits : string → bool;
}.

(** Computations at the terminal that may raise. *)
Definition C (A : Type) : Type := tty → (error + A) * tty.

#[global] Instance C_ret : MRet C := λ A a t, (inr a, t).

#[global] Instance C_bind : MBind C := λ A B f c t,
  match c t with
  | (inr a, t') => f a t'
  | (inl e, t') => (inl e, t')
  end.

Definition throw {A} (e : error) : C A := λ t, (inl e, t).

Definition note (n : notice) : C unit := λ t,
  (inr tt, Tty (typed t) (noticed t ++ [n])).

(** [input(prompt)], and [get_password], which this model takes from the
    same lines. *)
Definition input (prompt : notice) : C string := λ t,
  match typed t with
  | [] => (inl EOFError, Tty [] (noticed t ++ [prompt]))
  | l :: rest => (inr l, Tty rest (noticed t ++ [prompt]))
  end.

(** [config[k]] *)
Definition item (config : dict) (k : string) : C value :=
  match getitem config k with
  | Some v => mret v
  | None => throw (KeyError k)
  end.

(** Lines 59-63: the items of the section [main]. *)
Fixpoint from_file (items : list (string * string)) (config : dict) : C dict :=
  match items with
  | [] => mret config
  | (key, v) :: rest =>
      if contains config key then from_file rest (setitem config key (VStr v))
      else note (Unknown_key key);; from_file rest config
  end.

(** Lines 66-71: the keys of [config] that the command line gives. *)
Fixpoint from_args (args : dict) (keys : list string) (config : dict)
    : C dict :=
  match keys with
  | [] => mret config
  | key :: rest =>
      match getitem args key with
      | Some v =>
          note (Overridden key);; from_args args rest (setitem config key v)
      | None => from_args args rest config
      end
  end.

(** Lines 84-86 and 88: whether the loop over the destination ends. *)
Definition why_not (h : host) (dest : value) : option reason :=
  match dest with
  | VStr s =>
      if bool_decide (s = EmptyString) then Some Not_set
      else if negb (Posix.isdir (disk h) s) then Some Not_a_directory
      else if negb (permits h s) then Some Not_writeable
      else None
  | _ => Some Not_set
  end.

(** Lines 83-100: the loop over the destination; each turn takes a line. *)
Fixpoint ask_destination (h : host) (dest : value) (lines : list string)
    (shown_ : list notice) : (error + value) * tty :=
  match why_not h dest with
  | None => (inr dest, Tty lines shown_)
  | Some why =>
      match lines with
      | [] => (inl EOFError, Tty [] (shown_ ++ [Specify_destination why]))
      | l :: rest =>
          ask_destination h (VStr (Posix.abspath (cwd h) l)) rest
            (shown_ ++ [Specify_destination why])
      end
  end.

(** The loop at the terminal. *)
Definition destination_loop (h : host) (dest : value) : C value := λ t,
  ask_destination h dest (typed t) (noticed t).

(** Lines 50-71: the defaults, then the configuration file, then the
    command line. *)
Definition merge (args defaults : dict) : C dict :=
  let config : dict := defaults in
  config ←
    (if contains args "config" then
       match getitem args "config" with
       | Some (VFile (Some items)) => from_file items config
       | Some (VFile None) => throw NoMainSection
       | _ => throw TypeError
       end
     else mret config : C dict);
  from_args args config.*1 config.

(** [DownloaderApp.get_config] *)
Definition get_config (h : host) (args defaults : dict) : C dict :=
  config ← merge args defaults;
  username ← item config "username";
  config ←
    (if negb (truthy username) then
       l ← input Specify_username; mret (setitem config "username" (VStr l))
     else mret config : C dict);
  password ← item config "password";
  config ←
    (if negb (truthy password) then
       username ← item config "username";
       l ← input (Password_of username);
       mret (setitem config "password" (VStr l))
     else mret config : C dict);
  dest ← item config "destination";
  config ←
    (if truthy dest then
       match dest with
       | VStr s =>
           mret (setitem config "destination" (VStr (Posix.abspath (cwd h) s)))
       | _ => throw TypeError
       end
     else mret config : C dict);
  dest ← item config "destination";
  dest ← destination_loop h dest;
  mret (setitem config "destination" dest).

(** Lines 36-45: the configuration as it is logged. *)
Definition masked (config : dict) : C dict :=
  password ← item config "password";
  mret (setitem config "password"
          (if truthy password then VStr "******" else password)).

(** [DownloaderApp.__init__]: the level of the logger and [self.config]. *)
Definition init (h : host) (args : dict) : C (Z * dict) :=
  verbose ← item args "verbose";
  verbose ←
    (match verbose with
     | VInt z => mret z
     | VBool b => mret (if b then 1 else 0)
     | _ => throw TypeError
     end : C Z);
  config ← get_config h args DEFAULTS;
  logged ← masked config;
  note (Configuration logged);;
  mret (logger_level verbose, config).

(** What [run] reads of the configuration: the destination, and whether
    [config["overwrite"]] and [config["remove"]] are true. *)
Definition settings (config : dict) : option Config :=
  match getitem config "destination", getitem config "overwrite",
        getitem config "remove" with
  | Some (VStr d), Some o, Some r =>
      Some {| destination := d; overwrite := truthy o; remove := truthy r |}
  | _, _, _ => None
  end.

(** The items of the section [main] of the configuration file of [args]. *)
Definition file_items (args : dict) : list (string * string) :=
  match getitem args "config" with
  | Some (VFile (Some items)) => items
  | _ => []
  end.

(** The value the configuration file gives to [k]: that of its last item
    with that key. *)
Definition file_value (args : dict) (k : string) : option value :=
  getitem (reverse (prod_map id VStr <$> file_items args)) k.

(** The value of a key after the defaults, the file and the command line
    are merged. *)
Definition merged (args defaults : dict) (k : string) : option value :=
  if contains defaults k then
    match getitem args k with
    | Some v => Some v
    | None =>
        match file_value args k with
        | Some v => Some v
        | None => getitem defaults k
        end
    end
  else None.

(** Whether a notice asks the user for a line. *)
Definition prompt (n : notice) : bool :=
  match n with
  | Specify_username | Password_of _ | Specify_destination _ => true
  | _ => false
  end.

End Settings.

(** ** Signing in: [DownloaderApp.connect_to_icloud] *)

Module Auth.

(** A trusted device, as far as it is shown: [device.get("deviceName")] and
    [device.get("phoneNumber")]. *)
Record device := Device {
  deviceName : option string;
  phoneNumber : option string;
}.

(** The object [PyiCloudService(...)] gives: what it says of two-step
    authentication, and the photo library behind it. *)
Record service := Service {
  requires_2sa : bool;
  trusted_devices : list device;
  send_verification_code : device → bool;
  validate_verification_code : device → string → bool;
  photos : PyiCloudService;
}.

Inductive error :=
  | LoginFailed         (* PyiCloudService(...) raised *)
  | IndexError          (* devices[device] *)
  | SendFailed          (* "Failed to send verification code" *)
  | VerifyFailed        (* "Failed to verify verification code" *)
  | Aborted.            (* click.prompt without an answer *)

(** What the sign-in logs, prints and asks. *)
Inductive shown :=
  | Connecting_to_icloud
  | Two_step_required
  | Device_line (i : nat) (label : string)
  | Which_device
  | Enter_code.

(** What the user answers to the two prompts, when asked: the number of the
    device (0 when only the return key is hit) and the code. *)
Record answers := Answers {
  device_choice : option Z;
  validation_code : option string;
}.

(** [device.get("deviceName", "SMS to %s" % device.get("phoneNumber"))] *)
Definition label (d : device) : string :=
  match deviceName d with
  | Some n => n
  | None =>
      "SMS to " +:+ match phoneNumber d with Some p => p | None => "None" end
  end.

(** [l[i]] for a Python list: negative indices count from the end. *)
Definition pyindex {A} (l : list A) (i : Z) : option A :=
  let n := Z.of_nat (List.length l) in
  if (0 <=? i) && (i <? n) then l !! Z.to_nat i
  else if (- n <=? i) && (i <? 0) then l !! Z.to_nat (n + i)
  else None.

(** [config["password"] == ""] *)
Definition is_empty (v : Settings.value) : bool :=
  match v with
  | Settings.VStr s => bool_decide (s = EmptyString)
  | _ => false
  end.

(** [DownloaderApp.connect_to_icloud], given what [PyiCloudService] does
    with a user name and, when one is passed, a password. *)
Definition connect_to_icloud
    (icloud : Settings.value → option Settings.value → option service)
    (username password : Settings.value) (a : answers)
    : (error + service) * list shown :=
  match (if is_empty password then icloud username None
         else icloud username (Some password)) with
  | None => (inl LoginFailed, [Connecting_to_icloud])
  | Some api =>
      if requires_2sa api then
        let devices := trusted_devices api in
        let listed :=
          Connecting_to_icloud :: Two_step_required
          :: imap (λ i d, Device_line i (label d)) devices in
        match device_choice a with
        | None => (inl Aborted, listed ++ [Which_device])
        | Some i =>
            match pyindex devices i with
            | None => (inl IndexError, listed ++ [Which_device])
            | Some d =>
                if negb (send_verification_code api d) then
                  (inl SendFailed, listed ++ [Which_device])
                else
                  match validation_code a with
                  | None =>
                      (inl Aborted, listed ++ [Which_device; Enter_code])
                  | Some code =>
                      if negb (validate_verification_code api d code) then
                        (inl VerifyFailed,
                         listed ++ [Which_device; Enter_code])
                      else (inr api, listed ++ [Which_device; Enter_code])
                  end
            end
        end
      else (inr api, [Connecting_to_icloud])
  end.

End Auth.

(** ** More concrete scenarios *)

Module Desk.

(** A machine whose disk is the destination of section 8 and on which only
    [/d] may be written to. *)
Definition machine : Settings.host :=
  {| Settings.cwd := "/home/u";
     Settings.disk := Scenario.two_photos;
     Settings.permits := λ p, bool_decide (p = "/d") |}.

(** A command line with two [-v], a password, a destination that is not
    normalised, and a configuration file that names the user, says
    [overwrite = false] and has a key the application does not know. *)
Definition args : Settings.dict :=
  [("verbose", Settings.VInt 2);
   ("config", Settings.VFile (Some [("username", "ann");
                                    ("overwrite", "false");
                                    ("colour", "red")]));
   ("password", Settings.VStr "secret");
   ("destination", Settings.VStr "/d/sub/..")].

(** The configuration [get_config] makes of it. *)
Definition config : Settings.dict :=
  [("username", Settings.VStr "ann"); ("password", Settings.VStr "secret");
   ("destination", Settings.VStr "/d"); ("overwrite", Settings.VStr "false");
   ("remove", Settings.VBool false)].

(** What it tells on the way. *)
Definition told : list Settings.notice :=
  [Settings.Unknown_key "colour"; Settings.Overridden "password";
   Settings.Overridden "destination"].

(** A service that requires two-step authentication, with a phone that only
    takes the code [1234]. *)
Definition phone : Auth.device := Auth.Device None (Some "+1 555").

Definition guarded : Auth.service :=
  {| Auth.requires_2sa := true;
     Auth.trusted_devices := [Auth.Device (Some "laptop") None; phone];
     Auth.send_verification_code := λ d,
       bool_decide (Auth.phoneNumber d = Some "+1 555");
     Auth.validate_verification_code := λ _ code, bool_decide (code = "1234");
     Auth.photos := Scenario.listing |}.

(** The entries of the destination of section 8 once the pipeline ran. *)
Definition entries : list OS.DirEntry :=
  match (OS.scandir "/d" (Scenario.downloaded [true])).1 with
  | Returned es => es
  | _ => []
  end.

End Desk.
(** * Properties *)

(** ** Running computations *)

Lemma shown_nil w : shown [] w = w.
Proof. unfold shown. rewrite app_nil_r. by destruct w. Qed.

Lemma shown_shown evs evs' w : shown evs' (shown evs w) = shown (evs ++ evs') w.
Proof. unfold shown. simpl. by rewrite app_assoc. Qed.

Lemma emit_run ev w : emit ev w = (Returned tt, shown [ev] w).
Proof. reflexivity. Qed.

Lemma print_run l w : print l w = (Returned tt, shown [Printed l] w).
Proof. reflexivity. Qed.

Lemma bar_update_quiet n : quiet (bar_update n).
Proof.
  intros w. exists tt, [Bar_update n]. split; [done|]. by repeat constructor.
Qed.

Lemma mret_quiet {A} (a : A) : quiet (mret a : M A).
Proof.
  intros w. exists a, []. split; [|constructor].
  by rewrite shown_nil.
Qed.

Lemma bind_run {A B} (c : M A) (f : A → M B) w :
  (c ≫= f) w =
  match c w with
  | (Returned a, w') => f a w'
  | (Raised e, w') => (Raised e, w')
  | (Unfinished, w') => (Unfinished, w')
  end.
Proof. reflexivity. Qed.

(** ** The copy loop *)

Section Copy.

Variable callback : nat → M unit.
Hypothesis callback_quiet : ∀ n, quiet (callback n).

Lemma copy_loop_spec bound length fsrc fdst w c :
  (0 < length)%nat →
  (List.length (pending fsrc) < bound)%nat →
  files w !! fdst = Some (File c) →
  ∃ evs, copy_loop bound length callback fsrc fdst w =
           (at_end fsrc,
            shown evs (set_files (<[fdst := File (c ++ pending fsrc)]> (files w)) w))
         ∧ Forall bar evs.
Proof.
  intros Hlen. revert fsrc w c.
  induction bound as [|bound IH]; intros [data e] w c Hb Hfd; simpl in Hb.
  { lia. }
  destruct data as [|b data].
  - exists []. split; [|constructor]. rewrite shown_nil.
    simpl. unfold read, at_end. simpl.
    rewrite app_nil_r, insert_id by done.
    replace (set_files (files w) w) with w by by destruct w.
    by destruct e.
  - destruct length as [|n]; [lia|].
    cbn [copy_loop read pending stream_end take drop].
    rewrite bind_run. unfold OS.write at 1. rewrite Hfd.
    rewrite bind_run.
    set (w1 := set_files _ w).
    destruct (callback_quiet (List.length (b :: take n data)) w1)
      as ([] & evs & -> & Hevs).
    destruct (IH (Stream (drop n data) e) (shown evs w1)
                (c ++ b :: take n data))
      as (evs' & Hrun & Hevs').
    + simpl. rewrite length_drop. simpl in Hb. lia.
    + subst w1. simpl. by rewrite lookup_insert_eq.
    + exists (evs ++ evs'). split; [|by apply Forall_app].
      rewrite Hrun. f_equal. subst w1. unfold shown, set_files. simpl.
      rewrite insert_insert_eq, <- !app_assoc. simpl.
      by rewrite take_drop.
Qed.

End Copy.

Lemma COPY_BUFSIZE_pos : (0 < COPY_BUFSIZE)%nat.
Proof. unfold COPY_BUFSIZE. lia. Qed.

Lemma _copyfileobj_spec self fsrc fdst size_ desc w c :
  files w !! fdst = Some (File c) →
  ∃ evs, _copyfileobj self fsrc fdst size_ desc w =
           (at_end fsrc,
            shown evs (set_files (<[fdst := File (c ++ pending fsrc)]> (files w)) w))
         ∧ Forall bar evs.
Proof.
  intros Hfd. unfold _copyfileobj.
  destruct ((level self <=? INFO) || (size_ <=? 0)).
  - apply copy_loop_spec;
      [intros; apply mret_quiet | apply COPY_BUFSIZE_pos
      | unfold enough; lia | done].
  - unfold with_, emit at 1. simpl.
    fold (shown [Bar_open desc size_] w).
    destruct (copy_loop_spec bar_update bar_update_quiet (enough fsrc)
                COPY_BUFSIZE fsrc fdst (shown [Bar_open desc size_] w) c)
      as (evs & Hrun & Hevs);
      [apply COPY_BUFSIZE_pos | unfold enough; lia | done |].
    unfold Copy_fileobj. rewrite Hrun.
    exists (Bar_open desc size_ :: evs ++ [Bar_close]). split.
    + unfold at_end, emit, shown, set_files. simpl.
      rewrite <- !app_assoc. simpl.
      by destruct (stream_end fsrc).
    + constructor; [done|]. apply Forall_app. split; [done|].
      by repeat constructor.
Qed.

(** C7.  For every source stream, every declared size and every logger
    level, the copy leaves in the sink, after what the sink held, exactly the
    bytes of the source in their order; it returns whenever the source ends
    with its end, and fails only when reading the source fails.  The
    declared size plays no part: any other size gives the same result and
    the same files. *)
Theorem copy_ignores_declared_size self fsrc fdst size_ desc w c :
  files w !! fdst = Some (File c) →
  ∃ w', _copyfileobj self fsrc fdst size_ desc w = (at_end fsrc, w')
        ∧ files w' !! fdst = Some (File (c ++ pending fsrc))
        ∧ (stream_end fsrc = Eof → at_end fsrc = Returned tt)
        ∧ ∀ size', ∃ w'',
            _copyfileobj self fsrc fdst size' desc w = (at_end fsrc, w'')
            ∧ files w'' = files w'.
Proof.
  intros Hfd.
  destruct (_copyfileobj_spec self fsrc fdst size_ desc w c Hfd)
    as (evs & Hrun & _).
  eexists. split; [exact Hrun|]. split.
  { simpl. apply lookup_insert_eq. }
  split.
  { unfold at_end. by intros ->. }
  intros size'.
  destruct (_copyfileobj_spec self fsrc fdst size' desc w c Hfd)
    as (evs' & Hrun' & _).
  eexists. split; [exact Hrun'|]. done.
Qed.

(** ** The transfer of one photo *)

Lemma release_head h hs : OS.release h (h :: hs) = hs.
Proof. simpl. by rewrite decide_True. Qed.

(** What [transfer] does, path by path: [download()] raises; [open] raises
    with the response acquired; or the whole stream is copied, the file
    object is closed, and the outcome is that of the stream. *)
Lemma transfer_run self p filename_ w :
  ∃ evs, Forall bar evs ∧
    transfer self p filename_ w =
    match download p with
    | None => (Raised ConnectionError, w)
    | Some s =>
        match OS.open_target (files w) filename_ with
        | inl e =>
            (Raised e, set_handles (SourceStream (filename p) :: handles w) w)
        | inr q => (at_end s, transferred p q s evs w)
        end
    end.
Proof.
  unfold transfer. setoid_rewrite bind_run. unfold photo_download.
  destruct (download p) as [s|]; [|by exists []].
  unfold with_, OS.open_wb. simpl.
  destruct (OS.open_target (files w) filename_) as [e|q]; [by exists []|].
  unfold logger_debug. rewrite bind_run, emit_run.
  set (w2 := shown _ _).
  destruct (_copyfileobj_spec self s q (size p) (filename p) w2 [])
    as (evs & Hrun & Hevs).
  { subst w2. simpl. apply lookup_insert_eq. }
  exists evs. split; [done|]. rewrite Hrun.
  assert (Hw : ∀ w3, w3 = shown evs (set_files
              (<[q:=File ([] ++ pending s)]> (files w2)) w2) →
            set_handles (OS.release (SinkFile q) (handles w3)) w3
            = transferred p q s evs w).
  { intros w3 ->. subst w2. unfold transferred, shown, set_handles, set_files.
    simpl. rewrite decide_True by done. rewrite insert_insert_eq.
    by rewrite <- app_assoc. }
  unfold at_end, OS.close. destruct (stream_end s); simpl;
    by rewrite <- (Hw _ eq_refl).
Qed.

(** C8 fails as stated: when the stream breaks in the middle of the copy,
    the transfer raises with what was delivered in the file and the response
    of [photo.download()] still acquired. *)
Lemma transfer_leaves_response_open :
  transfer (Scenario.app false false) Scenario.breaking "/d/a.jpg"
    (Scenario.world_of Scenario.empty_dir [])
  = (Raised ConnectionError,
     {| files := <["/d/a.jpg" := File ["001"; "002"]%byte]> Scenario.empty_dir;
        handles := [SourceStream "a.jpg"];
        console := [Logged DEBUG (Downloading "a.jpg")];
        stdin := [] |}).
Proof. vm_compute. reflexivity. Qed.

(** C8, amended.  On every exit path of the transfer of one photo, the error
    paths included, the file object of the sink is closed when control
    leaves the transfer: the open file objects are those of before.  The
    response of [photo.download()] is not closed by the transfer: once
    acquired it is still acquired on every exit path. *)
Theorem transfer_closes_sink self p filename_ w :
  ∀ out w', transfer self p filename_ w = (out, w') →
    out ≠ Unfinished
    ∧ sinks (handles w') = sinks (handles w)
    ∧ (∀ s, download p = Some s →
         handles w' = SourceStream (filename p) :: handles w).
Proof.
  intros out w' Hrun.
  destruct (transfer_run self p filename_ w) as (evs & _ & Heq).
  rewrite Hrun in Heq.
  destruct (download p) as [s|].
  - destruct (OS.open_target (files w) filename_) as [e|q];
      inversion Heq; subst; simpl.
    + split; [done|]. split; [done|]. by intros ? [= <-].
    + split; [unfold at_end; by destruct (stream_end s)|].
      split; [done|]. by intros ? [= <-].
  - inversion Heq; subst. split; [done|]. split; [done|]. by intros.
Qed.

(** ** One photo *)

Lemma isfile_regular fs p c : fs !! p = Some (File c) → OS.isfile fs p = true.
Proof. intros H. unfold OS.isfile. simpl. by rewrite !H. Qed.

Lemma isfile_absent fs p : fs !! p = None → OS.isfile fs p = false.
Proof. intros H. unfold OS.isfile. simpl. by rewrite !H. Qed.

(** The body of the loop, branch by branch. *)
Lemma loop_body_run self destination_ overwrite_existing l p w :
  loop_body self destination_ overwrite_existing l p w =
  let filename_ := target destination_ p in
  if OS.isfile (files w) filename_ then
    if overwrite_existing then
      and_then
        (transfer self p filename_
           (shown [Logged DEBUG (Overwriting_existing (filename p))] w))
        (counted overwrite_existing_ filename_ l)
    else
      (Returned (counted skip_existing filename_ l),
       shown [Logged DEBUG (Skipping_existing (filename p))] w)
  else and_then (transfer self p filename_ w) (counted download_new filename_ l).
Proof.
  unfold loop_body, target. rewrite bind_run. unfold OS.path_isfile.
  destruct (OS.isfile _ _); [destruct overwrite_existing|]; simpl;
    rewrite ?bind_run; unfold logger_debug; rewrite ?bind_run, ?emit_run;
    try reflexivity;
    by destruct (transfer _ _ _ _) as [[[]| |] ?].
Qed.

(** C1.  The body of the loop works on the path
    [join(destination, photo.filename)], and takes exactly one branch: with
    a regular file at that path and no overwriting it skips the photo, with
    a regular file there and overwriting it announces the overwriting and
    transfers the photo to that path, and with nothing at that path it
    transfers the photo to that path as a new download. *)
Theorem item_classification self destination_ overwrite_existing l p w :
  let filename_ := Path.join destination_ (filename p) in
  (∀ c, files w !! filename_ = Some (File c) → overwrite_existing = false →
     loop_body self destination_ overwrite_existing l p w =
     (Returned (counted skip_existing filename_ l),
      shown [Logged DEBUG (Skipping_existing (filename p))] w))
  ∧ (∀ c, files w !! filename_ = Some (File c) → overwrite_existing = true →
     loop_body self destination_ overwrite_existing l p w =
     and_then
       (transfer self p filename_
          (shown [Logged DEBUG (Overwriting_existing (filename p))] w))
       (counted overwrite_existing_ filename_ l))
  ∧ (files w !! filename_ = None →
     loop_body self destination_ overwrite_existing l p w =
     and_then (transfer self p filename_ w)
       (counted download_new filename_ l)).
Proof.
  intros filename_. rewrite loop_body_run. unfold target. fold filename_.
  cbv zeta. repeat split.
  - intros c Hc ->. by rewrite (isfile_regular _ _ c).
  - intros c Hc ->. by rewrite (isfile_regular _ _ c).
  - intros Hc. by rewrite isfile_absent.
Qed.

(** What a returning body did. *)
Lemma loop_body_returned self destination_ overwrite_existing l p w l' w' :
  loop_body self destination_ overwrite_existing l p w = (Returned l', w') →
  let filename_ := target destination_ p in
  (OS.isfile (files w) filename_ = true ∧ overwrite_existing = false
   ∧ l' = counted skip_existing filename_ l
   ∧ w' = shown [Logged DEBUG (Skipping_existing (filename p))] w)
  ∨ ∃ q s evs, Forall bar evs ∧ download p = Some s ∧ stream_end s = Eof
      ∧ OS.open_target (files w) filename_ = inr q
      ∧ ((OS.isfile (files w) filename_ = true ∧ overwrite_existing = true
          ∧ l' = counted overwrite_existing_ filename_ l
          ∧ w' = transferred p q s evs
                   (shown [Logged DEBUG (Overwriting_existing (filename p))] w))
         ∨ (OS.isfile (files w) filename_ = false
            ∧ l' = counted download_new filename_ l
            ∧ w' = transferred p q s evs w)).
Proof.
  rewrite loop_body_run. cbv zeta.
  assert (Htr : ∀ w0 a, and_then (transfer self p (target destination_ p) w0) a
                        = (Returned l', w') →
            ∃ q s evs, Forall bar evs ∧ download p = Some s
              ∧ stream_end s = Eof
              ∧ OS.open_target (files w0) (target destination_ p) = inr q
              ∧ l' = a ∧ w' = transferred p q s evs w0).
  { intros w0 a.
    destruct (transfer_run self p (target destination_ p) w0)
      as (evs & Hevs & ->).
    destruct (download p) as [s|]; [|done].
    destruct (OS.open_target _ _) as [e|q]; [done|].
    unfold at_end. destruct (stream_end s) eqn:Hend; [|done].
    simpl. intros [= <- <-]. by exists q, s, evs. }
  destruct (OS.isfile _ _) eqn:Hfile; [destruct overwrite_existing|].
  - intros (q & s & evs & ? & ? & ? & ? & ? & ?)%Htr.
    right. exists q, s, evs. repeat split; try done. by left.
  - intros [= <- <-]. by left.
  - intros (q & s & evs & ? & ? & ? & ? & ? & ?)%Htr.
    right. exists q, s, evs. repeat split; try done. by right.
Qed.

(** ** The loop over the photos *)

Lemma journal_app evs evs' : journal (evs ++ evs') = journal evs ++ journal evs'.
Proof. apply omap_app. Qed.

Lemma journal_bar evs : Forall bar evs → journal evs = [].
Proof.
  induction 1 as [|ev evs Hev _ IH]; [done|].
  destruct ev; try done; exact IH.
Qed.

Lemma tally_app kind evs evs' :
  tally kind (evs ++ evs') = (tally kind evs + tally kind evs')%nat.
Proof.
  unfold tally. by rewrite journal_app, List.filter_app, length_app.
Qed.

Lemma tally_bar kind evs : Forall bar evs → tally kind evs = 0%nat.
Proof. intros H. unfold tally. by rewrite journal_bar. Qed.

Lemma console_transferred p q s evs w :
  console (transferred p q s evs w)
  = console w ++ Logged DEBUG (Downloading (filename p)) :: evs.
Proof. reflexivity. Qed.

Lemma union_cons (t : string) (ts : list string) (X : gset string) :
  list_to_set ts ∪ ({[t]} ∪ X) = list_to_set (t :: ts) ∪ X.
Proof.
  simpl. apply set_eq. intros x. rewrite !elem_of_union. tauto.
Qed.

(** What a returning loop did to the local variables and to the console. *)
Lemma for_photos_returned self destination_ overwrite_existing photos last :
  ∀ l w l' w',
  for_photos (loop_body self destination_ overwrite_existing) photos last l w
    = (Returned l', w') →
  ∃ evs, console w' = console w ++ evs
    ∧ total_count l' = (total_count l + List.length photos)%nat
    ∧ downloaded_count l' = (downloaded_count l + tally is_downloading evs)%nat
    ∧ skipped_count l' = (skipped_count l + tally is_skipping evs)%nat
    ∧ overwritten_count l'
      = (overwritten_count l + tally is_overwriting evs)%nat
    ∧ (skipped_count l' + downloaded_count l'
       = skipped_count l + downloaded_count l + List.length photos)%nat
    ∧ (tally is_overwriting evs ≤ tally is_downloading evs)%nat
    ∧ icloud_photos l'
      = list_to_set (target destination_ <$> photos) ∪ icloud_photos l.
Proof.
  induction photos as [|p photos IH]; intros l w l' w'; simpl.
  - destruct last; [|done]. intros [= <- <-]. exists [].
    rewrite app_nil_r. unfold tally. simpl.
    repeat split; try lia. simpl. by rewrite union_empty_l_L.
  - rewrite bind_run.
    destruct (loop_body _ _ _ l p w) as [[l1| |] w1] eqn:Hbody; try done.
    intros Hrest. apply IH in Hrest as (evs & Hcon & Ht & Hd & Hs & Ho & Hsd & Hod & Hset).
    apply loop_body_returned in Hbody. cbv zeta in Hbody.
    destruct Hbody as [(_ & _ & -> & ->)
      | (q & s & bars & Hbars & _ & _ & _ &
         [(_ & _ & -> & ->) | (_ & -> & ->)])].
    + exists (Logged DEBUG (Skipping_existing (filename p)) :: evs).
      rewrite Hcon. simpl in *. rewrite <- app_assoc.
      change (?x :: evs) with ([x] ++ evs). rewrite !tally_app.
      unfold tally at 1 3 5 7. simpl.
      repeat split; try lia. rewrite Hset. apply union_cons.
    + exists (Logged DEBUG (Overwriting_existing (filename p))
              :: Logged DEBUG (Downloading (filename p)) :: bars ++ evs).
      rewrite Hcon, console_transferred. simpl in *.
      rewrite <- !app_assoc. simpl.
      change (?x :: ?y :: bars ++ evs) with ([x; y] ++ bars ++ evs).
      rewrite !tally_app, !(tally_bar _ bars) by done.
      unfold tally at 1 3 5 7 9. simpl.
      repeat split; try lia. rewrite Hset. apply union_cons.
    + exists (Logged DEBUG (Downloading (filename p)) :: bars ++ evs).
      rewrite Hcon, console_transferred. simpl in *.
      rewrite <- !app_assoc. simpl.
      change (?x :: bars ++ evs) with ([x] ++ bars ++ evs).
      rewrite !tally_app, !(tally_bar _ bars) by done.
      unfold tally at 1 3 5 7 9. simpl.
      repeat split; try lia. rewrite Hset. apply union_cons.
Qed.

(** [download_photos] is its loop between the heading and the report. *)
Lemma download_photos_run self api destination_ overwrite_existing w :
  download_photos self api destination_ overwrite_existing w =
  match for_photos (loop_body self destination_ overwrite_existing)
          (photos_all api) (listing_end api) initial
          (shown [Printed (Downloading_all destination_ overwrite_existing)] w)
  with
  | (Returned l, w1) =>
      (Returned (icloud_photos l),
       shown [Printed (Report (downloaded_count l) (skipped_count l)
                         (overwritten_count l) (total_count l));
              Logged DEBUG (Icloud_photos (icloud_photos l))] w1)
  | (Raised e, w1) => (Raised e, w1)
  | (Unfinished, w1) => (Unfinished, w1)
  end.
Proof.
  unfold download_photos, print, logger_debug.
  rewrite bind_run, emit_run, bind_run.
  destruct (for_photos _ _ _ _ _) as [[l| |] w1]; try done.
  rewrite bind_run, emit_run, bind_run, emit_run. simpl.
  by rewrite shown_shown.
Qed.

(** The report and the set of a returning pipeline. *)
Lemma download_photos_returned self api destination_ overwrite_existing w
    photos w' :
  download_photos self api destination_ overwrite_existing w
    = (Returned photos, w') →
  ∃ evs downloaded skipped overwritten,
    console w' = console w ++
      pipeline_console destination_ overwrite_existing evs downloaded skipped
        overwritten (List.length (photos_all api)) photos
    ∧ downloaded = tally is_downloading evs
    ∧ skipped = tally is_skipping evs
    ∧ overwritten = tally is_overwriting evs
    ∧ (skipped + downloaded = List.length (photos_all api))%nat
    ∧ (overwritten ≤ downloaded)%nat
    ∧ photos = list_to_set (target destination_ <$> photos_all api).
Proof.
  rewrite download_photos_run.
  destruct (for_photos _ _ _ _ _) as [[l| |] w1] eqn:Hloop; try done.
  intros [= <- <-].
  apply for_photos_returned in Hloop
    as (evs & Hcon & Ht & Hd & Hs & Ho & Hsd & Hod & Hset).
  simpl in *.
  exists evs, (downloaded_count l), (skipped_count l), (overwritten_count l).
  rewrite Hcon, Ht, <- app_assoc. unfold pipeline_console. simpl.
  rewrite <- app_assoc. simpl.
  repeat split; try lia. rewrite Hset. simpl. by rewrite union_empty_r_L.
Qed.

(** ** The pipeline as a whole *)

Lemma size_list_to_set_remove_dups (ts : list string) :
  base.size (list_to_set ts : gset string) = List.length (remove_dups ts).
Proof.
  rewrite <- (size_list_to_set (C := gset string) (remove_dups ts))
    by apply NoDup_remove_dups.
  f_equal. apply set_eq. intros t.
  by rewrite !elem_of_list_to_set, elem_of_remove_dups.
Qed.

(** C2.  Whatever branch the body of the loop takes, it adds the path of the
    photo to the set; so the set a completed run returns is the set of
    [join(destination, photo.filename)] over the listing, photos with the
    same path falling into one element: it has as many elements as the
    listing has distinct paths. *)
Theorem ownership_set_complete self api destination_ overwrite_existing w
    photos w' :
  download_photos self api destination_ overwrite_existing w
    = (Returned photos, w') →
  photos
  = list_to_set ((λ p, Path.join destination_ (filename p)) <$> photos_all api)
  ∧ base.size photos
    = List.length
        (remove_dups ((λ p, Path.join destination_ (filename p))
                        <$> photos_all api))
  ∧ (∀ p, p ∈ photos_all api → Path.join destination_ (filename p) ∈ photos)
  ∧ (∀ l p w0 l1 w1,
       loop_body self destination_ overwrite_existing l p w0
         = (Returned l1, w1) →
       icloud_photos l1
       = {[Path.join destination_ (filename p)]} ∪ icloud_photos l).
Proof.
  intros (evs & d & s & o & _ & _ & _ & _ & _ & _ & Hset)%download_photos_returned.
  change (λ p, Path.join destination_ (filename p)) with (target destination_).
  split; [done|]. split; [|split].
  - rewrite Hset. apply size_list_to_set_remove_dups.
  - intros p Hp. rewrite Hset, elem_of_list_to_set.
    by apply (list_elem_of_fmap_2 (target destination_)).
  - intros l p w0 l1 w1 Hbody. apply loop_body_returned in Hbody.
    cbv zeta in Hbody.
    destruct Hbody as [(_ & _ & -> & _)
      | (q & s' & bars & _ & _ & _ & _ &
         [(_ & _ & -> & _) | (_ & -> & _)])]; reflexivity.
Qed.

(** C6 fails as stated: overwriting one existing photo reports
    one downloaded, none skipped, one overwritten, of one in total. *)
Lemma overwrite_counted_twice :
  console
    (download_photos (Scenario.app true false)
       (Service [Scenario.healthy "a.jpg" ["005"%byte]] Eof) "/d" true
       (Scenario.world_of Scenario.two_photos [])).2
  = pipeline_console "/d" true
      [Logged DEBUG (Overwriting_existing "a.jpg");
       Logged DEBUG (Downloading "a.jpg")]
      1 0 1 1 {["/d/a.jpg"]}
  ∧ (0 + 1 + 1 ≠ 1)%nat.
Proof. split; [vm_compute; reflexivity | lia]. Qed.

(** C6, amended.  Each pass of the loop counts the photo in [total_count]
    and moves the other counters by its branch alone: skipping an existing
    file increments only [skipped_count], downloading a new file only
    [downloaded_count], and overwriting an existing file both
    [overwritten_count] and [downloaded_count].  A completed run therefore
    reports skipped + downloaded = total, with total the length of the
    listing. *)
Theorem counters_by_branch self destination_ overwrite_existing :
  (∀ l p w l' w',
     loop_body self destination_ overwrite_existing l p w = (Returned l', w') →
     let existing :=
       OS.isfile (files w) (Path.join destination_ (filename p)) in
     total_count l' = S (total_count l)
     ∧ skipped_count l'
       = (if existing && negb overwrite_existing then S (skipped_count l)
          else skipped_count l)
     ∧ downloaded_count l'
       = (if existing && negb overwrite_existing then downloaded_count l
          else S (downloaded_count l))
     ∧ overwritten_count l'
       = (if existing && overwrite_existing then S (overwritten_count l)
          else overwritten_count l))
  ∧ (∀ api w photos w',
       download_photos self api destination_ overwrite_existing w
         = (Returned photos, w') →
       ∃ evs downloaded skipped overwritten total,
         console w' = console w ++
           pipeline_console destination_ overwrite_existing evs downloaded
             skipped overwritten total photos
         ∧ total = List.length (photos_all api)
         ∧ (skipped + downloaded = total)%nat).
Proof.
  split.
  - intros l p w l' w' Hbody. apply loop_body_returned in Hbody.
    unfold target in Hbody. cbv zeta in *.
    destruct Hbody as [(-> & -> & -> & _)
      | (q & s' & bars & _ & _ & _ & _ &
         [(-> & -> & -> & _) | (-> & -> & _)])]; done.
  - intros api w photos w'
      (evs & d & s & o & Hcon & _ & _ & _ & Hsd & _ & _)%download_photos_returned.
    by exists evs, d, s, o, (List.length (photos_all api)).
Qed.

(** ** Paths *)

Lemma append_cons a s t : String a s +:+ t = String a (s +:+ t).
Proof. reflexivity. Qed.

Lemma append_nil_r s : s +:+ EmptyString = s.
Proof. induction s; [done|]. rewrite append_cons. congruence. Qed.

Lemma append_assoc s t u : (s +:+ t) +:+ u = s +:+ (t +:+ u).
Proof. induction s; [done|]. rewrite !append_cons. congruence. Qed.

Lemma strip_prefix_Some pre s n :
  Path.strip_prefix pre s = Some n ↔ s = pre +:+ n.
Proof.
  revert s. induction pre as [|a pre IH]; intros s; simpl.
  - change (EmptyString +:+ n) with n. split; congruence.
  - rewrite append_cons. destruct s as [|b s]; [done|].
    destruct (Ascii.eqb_spec a b) as [->|Hne].
    + rewrite IH. split; congruence.
    + split; congruence.
Qed.

Lemma has_sep_startswith n :
  Path.has_sep n = false → Path.startswith_sep n = false.
Proof. destruct n; simpl; [done|]. by intros [? _]%orb_false_elim. Qed.

Lemma join_plain d n :
  Path.startswith_sep n = false →
  Path.join d n = Path.join d EmptyString +:+ n.
Proof.
  intros Hn. unfold Path.join. rewrite Hn. simpl.
  destruct (_ || _).
  - by rewrite append_nil_r.
  - by rewrite append_assoc.
Qed.

(** [child_name] inverts [join] on plain names. *)
Lemma child_name_Some d p n :
  Path.child_name d p = Some n ↔
  p = Path.join d n ∧ n ≠ EmptyString ∧ Path.has_sep n = false.
Proof.
  unfold Path.child_name. split.
  - destruct (Path.strip_prefix _ p) as [m|] eqn:Hm; [|done].
    apply strip_prefix_Some in Hm.
    destruct (bool_decide (m ≠ EmptyString)) eqn:Hne; [|done].
    destruct (Path.has_sep m) eqn:Hsep; [done|].
    simpl. intros [= <-]. apply bool_decide_eq_true in Hne.
    by rewrite (join_plain d m) by by apply has_sep_startswith.
  - intros (-> & Hne & Hsep).
    rewrite (join_plain d n) by by apply has_sep_startswith.
    rewrite (proj2 (strip_prefix_Some _ _ n)) by done.
    by rewrite bool_decide_eq_true_2, Hsep.
Qed.

(** ** Scanning the destination *)

(** The entries of a scan are the nodes directly under the directory. *)
Lemma scandir_entries d w entries w1 :
  OS.scandir d w = (Returned entries, w1) →
  w1 = w ∧ files w !! d = Some Dir
  ∧ ∀ e, e ∈ entries ↔
      ∃ n x, e = OS.Entry n (Path.join d n) x
        ∧ n ≠ EmptyString ∧ Path.has_sep n = false
        ∧ files w !! Path.join d n = Some x.
Proof.
  unfold OS.scandir.
  destruct (files w !! d) as [[| |]|] eqn:Hd; try done.
  intros [= <- <-]. split; [done|]. split; [done|].
  intros e. rewrite list_elem_of_omap. split.
  - intros ([p x] & Hin & He). apply elem_of_map_to_list in Hin.
    unfold OS.entry_of in He. simpl in He.
    destruct (Path.child_name d p) as [n|] eqn:Hn; [|done].
    apply child_name_Some in Hn as (-> & Hne & Hsep).
    injection He as <-. by exists n, x.
  - intros (n & x & -> & Hne & Hsep & Hx).
    exists (Path.join d n, x). split; [by apply elem_of_map_to_list|].
    unfold OS.entry_of. simpl.
    by rewrite (proj2 (child_name_Some d _ n)).
Qed.

Lemma for_entries_run icloud_photos_ entries : ∀ acc w,
  for_entries icloud_photos_ entries acc w =
  (Returned (acc ++ candidates icloud_photos_ entries),
   shown ((λ e, Logged DEBUG (Considered_for_removal (OS.name e)))
            <$> candidates icloud_photos_ entries) w).
Proof.
  induction entries as [|e entries IH]; intros acc w; simpl.
  - by rewrite app_nil_r, shown_nil.
  - destruct (OS.is_file e && _); simpl.
    + unfold logger_debug. rewrite bind_run, emit_run, IH, shown_shown.
      by rewrite <- app_assoc.
    + apply IH.
Qed.

Lemma elem_of_candidates icloud_photos_ entries e :
  e ∈ candidates icloud_photos_ entries ↔
  e ∈ entries ∧ (∃ c, OS.lstat e = File c) ∧ OS.path e ∉ icloud_photos_.
Proof.
  unfold candidates. rewrite list_elem_of_In, List.filter_In, <- list_elem_of_In.
  rewrite andb_true_iff, bool_decide_eq_true. unfold OS.is_file.
  destruct (OS.lstat e) as [c| |]; split; intros (? & H & ?);
    try discriminate H; try (by destruct H); eauto.
Qed.

(** ** The removal *)

Lemma for_each_print {A} (f : A → line) (xs : list A) : ∀ w,
  for_each (λ x, print (f x)) xs w
  = (Returned tt, shown ((λ x, Printed (f x)) <$> xs) w).
Proof.
  induction xs as [|x xs IH]; intros w; simpl.
  - by rewrite shown_nil.
  - by rewrite bind_run, print_run, IH, shown_shown.
Qed.

(** [remove_missing], path by path. *)
Lemma remove_missing_run self destination_ icloud_photos_ w :
  remove_missing self destination_ icloud_photos_ w =
  match OS.scandir destination_ w with
  | (Returned entries, _) =>
      let cands := candidates icloud_photos_ entries in
      match cands with
      | [] =>
          (Returned tt,
           shown [Printed Checking_for_missing; Printed Nothing_to_do] w)
      | _ :: _ =>
          match stdin w with
          | [] => (Raised Abort, shown (preview cands) w)
          | true :: rest =>
              removal cands (answered true rest (shown (preview cands) w))
          | false :: rest =>
              (Returned tt,
               shown [Logged INFO Abort_removal]
                 (answered false rest (shown (preview cands) w)))
          end
      end
  | (Raised e, _) => (Raised e, shown [Printed Checking_for_missing] w)
  | (Unfinished, _) => (Unfinished, shown [Printed Checking_for_missing] w)
  end.
Proof.
  unfold remove_missing. rewrite bind_run, print_run, bind_run.
  unfold OS.scandir. simpl.
  destruct (files w !! destination_) as [[| |]|]; try done.
  rewrite bind_run, for_entries_run. simpl.
  generalize (candidates icloud_photos_
                (omap (OS.entry_of destination_) (map_to_list (files w)))).
  intros [|e others].
  { rewrite print_run. simpl. by rewrite !shown_shown. }
  set (cands := e :: others).
  rewrite bind_run, print_run, bind_run, for_each_print, !shown_shown.
  change ([Printed Checking_for_missing] ++ ?l ++ [?x] ++ ?l')
    with (Printed Checking_for_missing :: l ++ x :: l').
  fold (preview cands).
  rewrite bind_run. unfold OS.confirm. simpl.
  destruct (stdin w) as [|[] rest]; try done.
Qed.

Lemma asked_app evs evs' : asked (evs ++ evs') = (asked evs + asked evs')%nat.
Proof. unfold asked. by rewrite List.filter_app, length_app. Qed.

Lemma asked_preview cands : asked (preview cands) = 0%nat.
Proof.
  unfold preview.
  change (?x :: ?l ++ ?y :: ?l') with ([x] ++ l ++ [y] ++ l').
  rewrite !asked_app.
  assert (H : ∀ f : OS.DirEntry → event,
    (∀ e, match f e with Asked _ => False | _ => True end) →
    asked (f <$> cands) = 0%nat).
  { intros f Hf. induction cands as [|e l IH]; [done|].
    unfold asked in *. simpl. specialize (Hf e). by destruct (f e). }
  by rewrite !H.
Qed.

(** The unlinking loop touches no path but those of its entries, and asks
    nothing. *)
Lemma unlink_loop cands : ∀ w out w',
  for_each (λ entry, OS.unlink (OS.path entry);; print Dot) cands w
    = (out, w') →
  out ≠ Unfinished ∧ handles w' = handles w ∧ stdin w' = stdin w
  ∧ (∀ p, p ∉ OS.path <$> cands → files w' !! p = files w !! p)
  ∧ ∃ evs, console w' = console w ++ evs ∧ asked evs = 0%nat.
Proof.
  induction cands as [|e cands IH]; intros w out w'; simpl.
  - intros [= <- <-]. repeat split; try done. exists []. by rewrite app_nil_r.
  - rewrite !bind_run. unfold OS.unlink at 1.
    assert (Hfail : ∀ x, (Raised x, w) = (out, w') →
      out ≠ Unfinished ∧ handles w' = handles w ∧ stdin w' = stdin w
      ∧ (∀ p, p ∉ OS.path e :: (OS.path <$> cands) →
           files w' !! p = files w !! p)
      ∧ ∃ evs, console w' = console w ++ evs ∧ asked evs = 0%nat).
    { intros x [= <- <-]. repeat split; try done.
      exists []. by rewrite app_nil_r. }
    assert (Hgo :
      for_each (λ entry, OS.unlink (OS.path entry);; print Dot) cands
        (shown [Printed Dot] (set_files (delete (OS.path e) (files w)) w))
        = (out, w') →
      out ≠ Unfinished ∧ handles w' = handles w ∧ stdin w' = stdin w
      ∧ (∀ p, p ∉ OS.path e :: (OS.path <$> cands) →
           files w' !! p = files w !! p)
      ∧ ∃ evs, console w' = console w ++ evs ∧ asked evs = 0%nat).
    { intros (Hout & Hh & Hs & Hf & evs & Hcon & Hask)%IH. simpl in *.
      repeat split; try done.
      - intros p Hp. apply not_elem_of_cons in Hp as [Hne Hp].
        rewrite (Hf p Hp). by apply lookup_delete_ne.
      - exists (Printed Dot :: evs). by rewrite Hcon, <- app_assoc. }
    destruct (files w !! OS.path e) as [[| |]|]; eauto.
Qed.

Lemma removal_run cands w out w' :
  removal cands w = (out, w') →
  out ≠ Unfinished ∧ handles w' = handles w ∧ stdin w' = stdin w
  ∧ (∀ p, p ∉ OS.path <$> cands → files w' !! p = files w !! p)
  ∧ ∃ evs, console w' = console w ++ evs ∧ asked evs = 0%nat.
Proof.
  unfold removal. rewrite bind_run.
  destruct (for_each _ cands w) as [o w1] eqn:Hloop.
  apply unlink_loop in Hloop as (Hout & Hh & Hs & Hf & evs & Hcon & Hask).
  destruct o as [[]| |]; [|by intros [= <- <-]; eauto 10|done].
  rewrite print_run. intros [= <- <-]. simpl.
  repeat split; try done.
  exists (evs ++ [Printed (Removed_files (List.length cands))]).
  rewrite Hcon, <- app_assoc. split; [done|].
  by rewrite asked_app, Hask.
Qed.

(** C4.  [remove_missing] asks the user at most once.  When the answer is
    no, or there is none, it leaves every file as it was, whatever the
    candidates.  And whenever it changes the files at all, the candidates
    were not empty, all of them were shown, the user was then asked once and
    answered yes, and was not asked again. *)
Theorem removal_needs_confirmation self destination_ icloud_photos_ w out w' :
  remove_missing self destination_ icloud_photos_ w = (out, w') →
  out ≠ Unfinished
  ∧ (∃ new, console w' = console w ++ new ∧ (asked new ≤ 1)%nat)
  ∧ (∀ rest, stdin w = false :: rest → files w' = files w)
  ∧ (stdin w = [] → files w' = files w)
  ∧ (files w' = files w
     ∨ ∃ entries rest evs,
         OS.scandir destination_ w = (Returned entries, w)
         ∧ candidates icloud_photos_ entries ≠ []
         ∧ stdin w = true :: rest ∧ stdin w' = rest
         ∧ console w' = console w
             ++ preview (candidates icloud_photos_ entries)
             ++ Asked true :: evs
         ∧ asked (preview (candidates icloud_photos_ entries)) = 0%nat
         ∧ asked evs = 0%nat).
Proof.
  intros Hrun.
  assert (Hsame : ∀ new, out ≠ Unfinished → files w' = files w →
            console w' = console w ++ new → (asked new ≤ 1)%nat →
            out ≠ Unfinished
            ∧ (∃ new, console w' = console w ++ new ∧ (asked new ≤ 1)%nat)
            ∧ (∀ rest, stdin w = false :: rest → files w' = files w)
            ∧ (stdin w = [] → files w' = files w)
            ∧ (files w' = files w
               ∨ ∃ entries rest evs,
                   OS.scandir destination_ w = (Returned entries, w)
                   ∧ candidates icloud_photos_ entries ≠ []
                   ∧ stdin w = true :: rest ∧ stdin w' = rest
                   ∧ console w' = console w
                       ++ preview (candidates icloud_photos_ entries)
                       ++ Asked true :: evs
                   ∧ asked (preview (candidates icloud_photos_ entries))
                     = 0%nat
                   ∧ asked evs = 0%nat)).
  { intros new ? ? ? ?. split; [done|]. split; [by exists new|]. auto. }
  revert Hrun Hsame. rewrite remove_missing_run.
  destruct (OS.scandir destination_ w) as [[entries| |] w1] eqn:Hscan.
  2: { intros [= <- <-] Hsame.
       apply (Hsame [Printed Checking_for_missing]); try done.
       unfold asked; simpl; lia. }
  2: { exfalso. unfold OS.scandir in Hscan.
       by destruct (files w !! destination_) as [[| |]|]. }
  apply scandir_entries in Hscan as Hw. destruct Hw as (-> & _ & _).
  cbv zeta.
  destruct (candidates icloud_photos_ entries) as [|e others] eqn:Hc.
  { intros [= <- <-] Hsame.
    apply (Hsame [Printed Checking_for_missing; Printed Nothing_to_do]);
      try done.
    unfold asked; simpl; lia. }
  rewrite <- Hc.
  pose proof (asked_preview (candidates icloud_photos_ entries)) as Hpre.
  destruct (stdin w) as [|[] rest] eqn:Hin.
  - intros [= <- <-] Hsame.
    apply (Hsame (preview (candidates icloud_photos_ entries))); try done. lia.
  - intros (Hout & _ & Hstdin & _ & evs & Hcon & Hask)%removal_run _.
    simpl in Hcon, Hstdin.
    assert (Hnew : console w' = console w
              ++ preview (candidates icloud_photos_ entries)
              ++ Asked true :: evs)
      by by rewrite Hcon, <- !app_assoc.
    split; [done|]. split.
    { eexists. split; [exact Hnew|].
      change (Asked true :: evs) with ([Asked true] ++ evs).
      rewrite !asked_app, Hpre, Hask. unfold asked. simpl. lia. }
    split; [done|]. split; [done|].
    right. exists entries, rest, evs.
    split; [done|]. split; [by rewrite Hc|]. by repeat split.
  - intros [= <- <-] Hsame.
    apply (Hsame (preview (candidates icloud_photos_ entries)
                  ++ [Asked false; Logged INFO Abort_removal])); try done.
    + unfold shown, answered. cbn [console]. by rewrite <- !app_assoc.
    + rewrite asked_app, Hpre. unfold asked. simpl. lia.
Qed.

(** ** The run *)

Lemma loop_body_finishes self destination_ overwrite_existing l p w :
  (loop_body self destination_ overwrite_existing l p w).1 ≠ Unfinished.
Proof.
  rewrite loop_body_run. cbv zeta.
  assert (H : ∀ w0 a,
    (and_then (transfer self p (target destination_ p) w0) a).1
    ≠ @Unfinished locals).
  { intros w0 a.
    destruct (transfer_run self p (target destination_ p) w0) as (evs & _ & ->).
    destruct (download p) as [s|]; [|done].
    destruct (OS.open_target _ _); [done|].
    unfold at_end. by destruct (stream_end s). }
  destruct (OS.isfile _ _); [destruct overwrite_existing|]; auto.
Qed.

Lemma for_photos_finishes self destination_ overwrite_existing photos last :
  ∀ l w,
  (for_photos (loop_body self destination_ overwrite_existing) photos last l w).1
  ≠ Unfinished.
Proof.
  induction photos as [|p photos IH]; intros l w; simpl.
  - by destruct last.
  - rewrite bind_run.
    pose proof (loop_body_finishes self destination_ overwrite_existing l p w).
    destruct (loop_body _ _ _ l p w) as [[l1| |] w1]; auto.
Qed.

Lemma download_photos_finishes self api destination_ overwrite_existing w :
  (download_photos self api destination_ overwrite_existing w).1 ≠ Unfinished.
Proof.
  rewrite download_photos_run.
  pose proof (for_photos_finishes self destination_ overwrite_existing
    (photos_all api) (listing_end api) initial
    (shown [Printed (Downloading_all destination_ overwrite_existing)] w)).
  by destruct (for_photos _ _ _ _ _) as [[l| |] w1].
Qed.

(** C5.  [run] removes only after the pipeline returned, and with the set
    the pipeline returned: the pipeline always ends, by returning or by
    raising; when it raises, [run] raises the same and leaves the world as
    the pipeline left it, without any step of the removal; when it returns
    and removal is not requested, [run] returns in the world the pipeline
    left; when it returns and removal is requested, what follows is
    [remove_missing] on the returned set. *)
Theorem removal_only_after_pipeline self api w :
  let config_ := config self in
  let pipeline :=
    download_photos self api (destination config_) (overwrite config_)
      (shown [Logged INFO Connecting] w) in
  pipeline.1 ≠ Unfinished
  ∧ (∀ e w1, pipeline = (Raised e, w1) →
       run self (Some api) w = (Raised e, w1))
  ∧ (∀ photos w1, pipeline = (Returned photos, w1) →
       remove config_ = false →
       run self (Some api) w = (Returned tt, w1))
  ∧ (∀ photos w1, pipeline = (Returned photos, w1) →
       remove config_ = true →
       run self (Some api) w
       = remove_missing self (destination config_) photos w1).
Proof.
  intros config_ pipeline. split; [apply download_photos_finishes|].
  assert (Hrun : run self (Some api) w =
    match pipeline with
    | (Returned photos, w1) =>
        if remove config_
        then remove_missing self (destination config_) photos w1
        else (Returned tt, w1)
    | (Raised e, w1) => (Raised e, w1)
    | (Unfinished, w1) => (Unfinished, w1)
    end).
  { unfold run, connect_to_icloud, logger_info.
    rewrite !bind_run, emit_run. simpl. rewrite bind_run.
    fold config_. fold pipeline.
    destruct pipeline as [[photos| |] w1]; try done.
    by destruct (remove config_). }
  rewrite Hrun. repeat split.
  - by intros e w1 ->.
  - by intros photos w1 -> ->.
  - by intros photos w1 -> ->.
Qed.

(** ** Photos with the same path *)

Lemma open_target_absent fs p q :
  fs !! p = None → OS.open_target fs p = inr q → q = p.
Proof.
  intros Hp. unfold OS.open_target. simpl. rewrite !Hp.
  destruct (OS.parent_is_dir fs p); congruence.
Qed.

Lemma size_list_to_set_le (ts : list string) :
  (base.size (list_to_set ts : gset string) ≤ List.length ts)%nat.
Proof.
  rewrite size_list_to_set_remove_dups.
  induction ts as [|t ts IH]; simpl; [done|].
  destruct (decide_rel _ t ts); simpl; lia.
Qed.

Lemma size_list_to_set_lt (ts : list string) :
  ¬ NoDup ts →
  (base.size (list_to_set ts : gset string) < List.length ts)%nat.
Proof.
  induction ts as [|t ts IH]; intros Hdup.
  - destruct Hdup. constructor.
  - rewrite size_list_to_set_remove_dups. simpl.
    destruct (decide_rel _ t ts) as [Hin|Hout].
    + rewrite <- size_list_to_set_remove_dups.
      pose proof (size_list_to_set_le ts). lia.
    + simpl. rewrite <- size_list_to_set_remove_dups.
      assert (¬ NoDup ts) by (intros ?; apply Hdup; by constructor).
      specialize (IH H). lia.
Qed.

(** The loop without overwriting, started where the paths already seen hold
    regular files and the other paths of the listing hold nothing. *)
Lemma first_wins_loop self destination_ photos last : ∀ l w l' w',
  for_photos (loop_body self destination_ false) photos last l w
    = (Returned l', w') →
  (∀ t, t ∈ icloud_photos l → ∃ c, files w !! t = Some (File c)) →
  (∀ p, p ∈ photos → target destination_ p ∉ icloud_photos l →
     files w !! target destination_ p = None) →
  ∃ evs, console w' = console w ++ evs
    ∧ journal evs = first_wins destination_ (icloud_photos l) photos
    ∧ (∀ t, t ∈ icloud_photos l → files w' !! t = files w !! t)
    ∧ (∀ i p, first_of_its_path destination_ photos i p →
         target destination_ p ∉ icloud_photos l →
         ∃ s, download p = Some s
           ∧ files w' !! target destination_ p = Some (File (pending s)))
    ∧ (downloaded_count l' + base.size (icloud_photos l)
       = downloaded_count l + base.size (icloud_photos l'))%nat
    ∧ (skipped_count l' + downloaded_count l'
       = skipped_count l + downloaded_count l + List.length photos)%nat
    ∧ overwritten_count l' = overwritten_count l
    ∧ icloud_photos l'
      = list_to_set (target destination_ <$> photos) ∪ icloud_photos l.
Proof.
  induction photos as [|p photos IH]; intros l w l' w'; simpl.
  { destruct last; [|done]. intros [= <- <-] _ _. exists [].
    rewrite app_nil_r. repeat split; try done; try lia.
    - intros i p [Hi _]. done.
    - by rewrite union_empty_l_L. }
  rewrite bind_run.
  destruct (loop_body _ _ _ l p w) as [[l1| |] w1] eqn:Hbody; try done.
  intros Hrest Hseen Hfresh.
  apply loop_body_returned in Hbody. cbv zeta in Hbody.
  set (t := target destination_ p) in *.
  destruct Hbody as [(Hfile & _ & -> & ->)
    | (q & s & bars & Hbars & Hs & _ & Hopen &
       [(_ & ? & _) | (Hfile & -> & ->)])]; [|done|].
  - (* a later photo of a path already seen *)
    assert (Hin : t ∈ icloud_photos l).
    { destruct (decide (t ∈ icloud_photos l)) as [|Hout]; [done|].
      rewrite isfile_absent in Hfile; [done|].
      apply Hfresh; [left|done]. }
    assert (Hsame : {[t]} ∪ icloud_photos l = icloud_photos l).
    { apply set_eq. intros x. rewrite elem_of_union, elem_of_singleton.
      split; [intros [->|]; done | by right]. }
    apply IH in Hrest
      as (evs & Hcon & Hj & Hkeep & Hfirst & Hd & Hsd & Ho & Hset);
      simpl; rewrite ?Hsame; try done.
    2: { intros p' Hp'. apply Hfresh. by right. }
    simpl in *. rewrite Hsame in *.
    exists (Logged DEBUG (Skipping_existing (filename p)) :: evs).
    rewrite Hcon, <- app_assoc. split; [done|]. split.
    { simpl. fold (journal evs). rewrite Hj.
      by rewrite decide_True by done. }
    split; [done|]. split.
    { intros [|i] p' [Hi Hbefore] Hout.
      - injection Hi as <-. done.
      - apply (Hfirst i p'); try done. split; [done|].
        intros j p'' Hj' Hp''. apply (Hbefore (S j)); [lia|done]. }
    split; [done|]. split; [lia|]. split; [done|].
    rewrite Hset. apply set_eq. intros x.
    rewrite !elem_of_union, elem_of_singleton.
    split; [tauto|]. intros [[->|?]|?]; auto.
  - (* the first photo of its path *)
    assert (Hout : t ∉ icloud_photos l).
    { intros [c Hc]%Hseen. by rewrite (isfile_regular _ _ c) in Hfile. }
    assert (Hnone : files w !! t = None) by (apply Hfresh; [left|done]).
    apply (open_target_absent _ _ _ Hnone) in Hopen as ->.
    apply IH in Hrest
      as (evs & Hcon & Hj & Hkeep & Hfirst & Hd & Hsd & Ho & Hset); simpl.
    2: { intros t' [->%elem_of_singleton|Ht']%elem_of_union.
         - exists (pending s). apply lookup_insert_eq.
         - rewrite lookup_insert_ne by (intros ->; done). by apply Hseen. }
    2: { intros p' Hp' [Hne Hout']%not_elem_of_union.
         apply not_elem_of_singleton in Hne.
         rewrite lookup_insert_ne by done. apply Hfresh; [by right|done]. }
    simpl in *.
    assert (Ht : files w' !! t = Some (File (pending s))).
    { rewrite Hkeep by (apply elem_of_union_l; by apply elem_of_singleton).
      apply lookup_insert_eq. }
    exists (Logged DEBUG (Downloading (filename p)) :: bars ++ evs).
    rewrite Hcon, <- !app_assoc. split; [done|]. split.
    { simpl. fold (journal (bars ++ evs)).
      rewrite journal_app, journal_bar, Hj by done. fold t.
      by rewrite decide_False by done. }
    split.
    { intros t' Ht'. rewrite Hkeep by by apply elem_of_union_r.
      apply lookup_insert_ne. by intros ->. }
    split.
    { intros [|i] p' [Hi Hbefore] Hout'.
      - injection Hi as <-. by exists s.
      - apply (Hfirst i p'); try done.
        + split; [done|].
          intros j p'' Hj' Hp''. apply (Hbefore (S j)); [lia|done].
        + apply not_elem_of_union. split; [|done].
          apply not_elem_of_singleton. intros Heq.
          apply (Hbefore 0%nat p); [lia|done|done]. }
    rewrite size_union, size_singleton in Hd
      by (apply disjoint_singleton_l; done).
    split; [lia|]. split; [lia|]. split; [done|].
    rewrite Hset. fold t.
    apply set_eq. intros x. rewrite !elem_of_union. tauto.
Qed.

(** C9.  Without overwriting, and where no path of the listing holds
    anything at the start, a completed run logs a download for the first
    photo of each path and a skip for every later photo of that path; the
    file at each path holds what the first photo of that path delivered;
    the returned set holds each path once; and the downloaded counter is the
    number of distinct paths, so it is less than the length of a listing in
    which two photos have the same path. *)
Theorem first_occurrence_wins self api destination_ w photos w' :
  download_photos self api destination_ false w = (Returned photos, w') →
  (∀ p, p ∈ photos_all api →
     files w !! Path.join destination_ (filename p) = None) →
  ∃ evs downloaded skipped,
    console w' = console w ++
      pipeline_console destination_ false evs downloaded skipped 0
        (List.length (photos_all api)) photos
    ∧ journal evs = first_wins destination_ ∅ (photos_all api)
    ∧ photos
      = list_to_set
          ((λ p, Path.join destination_ (filename p)) <$> photos_all api)
    ∧ downloaded = base.size photos
    ∧ (skipped + downloaded = List.length (photos_all api))%nat
    ∧ (∀ i p, first_of_its_path destination_ (photos_all api) i p →
         ∃ s, download p = Some s
           ∧ files w' !! Path.join destination_ (filename p)
             = Some (File (pending s)))
    ∧ (¬ NoDup ((λ p, Path.join destination_ (filename p)) <$> photos_all api)
       → (downloaded < List.length (photos_all api))%nat).
Proof.
  rewrite download_photos_run.
  destruct (for_photos _ _ _ _ _) as [[l| |] w1] eqn:Hloop; try done.
  intros [= <- <-] Hfresh.
  pose proof (for_photos_returned _ _ _ _ _ _ _ _ _ Hloop)
    as (evs0 & Hcon0 & Htotal & _).
  apply first_wins_loop in Hloop
    as (evs & Hcon & Hj & _ & Hfirst & Hd & Hsd & Ho & Hset); simpl.
  2: { intros t Ht. by apply not_elem_of_empty in Ht. }
  2: { intros p Hp _. by apply Hfresh. }
  unfold initial, shown in *.
  cbn [icloud_photos downloaded_count skipped_count overwritten_count
       total_count console] in *.
  rewrite union_empty_r_L in Hset. rewrite size_empty in Hd.
  exists evs, (downloaded_count l), (skipped_count l).
  rewrite Hcon, Ho, Htotal, <- !app_assoc. unfold pipeline_console.
  split; [done|]. split; [done|]. split; [done|].
  split; [lia|]. split; [lia|]. split.
  - intros i p Hp. apply (Hfirst i p Hp). apply not_elem_of_empty.
  - intros Hdup. rewrite Hset in Hd.
    apply size_list_to_set_lt in Hdup.
    rewrite length_fmap in Hdup.
    unfold target in Hd. lia.
Qed.

(** * The theorems at work on concrete scenarios *)

(** The three branches of C1: [a.jpg] exists and is skipped, exists and is
    overwritten, and is new in an empty directory. *)
Lemma item_classification_witness :
  let p := Scenario.healthy "a.jpg" ["005"%byte] in
  let w := Scenario.before [] in
  let w0 := Scenario.world_of Scenario.empty_dir [] in
  (files w !! "/d/a.jpg" = Some (File ["001"%byte])
   ∧ files w0 !! "/d/a.jpg" = None)
  ∧ loop_body (Scenario.app false false) "/d" false initial p w
    = (Returned (counted skip_existing "/d/a.jpg" initial),
       shown [Logged DEBUG (Skipping_existing "a.jpg")] w)
  ∧ loop_body (Scenario.app true false) "/d" true initial p w
    = and_then
        (transfer (Scenario.app true false) p "/d/a.jpg"
           (shown [Logged DEBUG (Overwriting_existing "a.jpg")] w))
        (counted overwrite_existing_ "/d/a.jpg" initial)
  ∧ loop_body (Scenario.app false false) "/d" false initial p w0
    = and_then (transfer (Scenario.app false false) p "/d/a.jpg" w0)
        (counted download_new "/d/a.jpg" initial).
Proof.
  intros p w w0. split; [split; reflexivity|]. split; [|split].
  - apply (proj1 (item_classification (Scenario.app false false) "/d" false
                    initial p w) ["001"%byte]); reflexivity.
  - apply (proj1 (proj2 (item_classification (Scenario.app true false) "/d"
                           true initial p w)) ["001"%byte]); reflexivity.
  - apply (proj2 (proj2 (item_classification (Scenario.app false false) "/d"
                           false initial p w0))); reflexivity.
Defined.

(** C2 on the listing of section 8: two photos, two paths. *)
Lemma ownership_set_complete_witness :
  download_photos (Scenario.app false true) Scenario.listing "/d" false
    (Scenario.before [])
  = (Returned Scenario.claimed, Scenario.downloaded [])
  ∧ base.size Scenario.claimed = 2%nat
  ∧ "/d/b.jpg" ∈ Scenario.claimed.
Proof.
  assert (H : download_photos (Scenario.app false true) Scenario.listing "/d"
                false (Scenario.before [])
              = (Returned Scenario.claimed, Scenario.downloaded []))
    by (vm_compute; reflexivity).
  split; [exact H|].
  destruct (ownership_set_complete _ _ _ _ _ _ _ H) as (_ & Hsize & Hin & _).
  split; [exact Hsize|].
  apply (Hin (Scenario.healthy "b.jpg" ["003"%byte])). left.
Defined.

(** C4 on section 8 with the answer no: [a.jpg] is a candidate and stays. *)
Lemma removal_needs_confirmation_witness :
  let w := Scenario.downloaded [false] in
  remove_missing (Scenario.app false true) "/d" Scenario.claimed w
  = (Returned tt,
     (remove_missing (Scenario.app false true) "/d" Scenario.claimed w).2)
  ∧ stdin w = [false]
  ∧ files (remove_missing (Scenario.app false true) "/d" Scenario.claimed w).2
    = files w.
Proof.
  intros w.
  assert (H : remove_missing (Scenario.app false true) "/d" Scenario.claimed w
    = (Returned tt,
       (remove_missing (Scenario.app false true) "/d" Scenario.claimed w).2))
    by (vm_compute; reflexivity).
  split; [exact H|]. split; [reflexivity|].
  destruct (removal_needs_confirmation _ _ _ _ _ _ H) as (_ & _ & Hno & _).
  apply (Hno []). reflexivity.
Defined.

(** C5 with a stream that breaks: the run raises where the pipeline raised. *)
Lemma removal_only_after_pipeline_witness :
  let self := Scenario.app false true in
  let api := Service [Scenario.breaking] Eof in
  let w := Scenario.world_of Scenario.empty_dir [true] in
  let pipeline :=
    download_photos self api "/d" false (shown [Logged INFO Connecting] w) in
  pipeline = (Raised ConnectionError, pipeline.2)
  ∧ run self (Some api) w = (Raised ConnectionError, pipeline.2).
Proof.
  intros self api w pipeline.
  assert (H : pipeline = (Raised ConnectionError, pipeline.2))
    by (vm_compute; reflexivity).
  split; [exact H|].
  exact (proj1 (proj2 (removal_only_after_pipeline self api w)) _ _ H).
Defined.

(** C6, amended, on the overwriting of [a.jpg]. *)
Lemma counters_by_branch_witness :
  let self := Scenario.app true false in
  let p := Scenario.healthy "a.jpg" ["005"%byte] in
  let w := Scenario.before [] in
  loop_body self "/d" true initial p w
  = (Returned (counted overwrite_existing_ "/d/a.jpg" initial),
     (loop_body self "/d" true initial p w).2)
  ∧ downloaded_count (counted overwrite_existing_ "/d/a.jpg" initial) = 1%nat
  ∧ overwritten_count (counted overwrite_existing_ "/d/a.jpg" initial) = 1%nat.
Proof.
  intros self p w.
  assert (H : loop_body self "/d" true initial p w
    = (Returned (counted overwrite_existing_ "/d/a.jpg" initial),
       (loop_body self "/d" true initial p w).2))
    by (vm_compute; reflexivity).
  split; [exact H|].
  destruct (proj1 (counters_by_branch self "/d" true) _ _ _ _ _ H)
    as (_ & _ & Hd & Ho).
  split; [exact Hd | exact Ho].
Defined.

(** C7 on the scenario of section 8: 1000 bytes declared, 1200 delivered,
    1200 written, and the copy returns. *)
Lemma copy_ignores_declared_size_witness :
  let w := Scenario.world_of (<["/d/a.jpg" := File []]> Scenario.empty_dir) [] in
  files w !! "/d/a.jpg" = Some (File [])
  ∧ ∃ w', _copyfileobj (Scenario.app false false) Scenario.oversized
            "/d/a.jpg" 1000 "a.jpg" w = (Returned tt, w')
          ∧ files w' !! "/d/a.jpg" = Some (File (replicate 1200 "042"%byte)).
Proof.
  intros w.
  assert (H : files w !! "/d/a.jpg" = Some (File [])) by reflexivity.
  split; [exact H|].
  destruct (copy_ignores_declared_size (Scenario.app false false)
              Scenario.oversized "/d/a.jpg" 1000 "a.jpg" w [] H)
    as (w' & Hrun & Hfile & _).
  exists w'. split; [exact Hrun | exact Hfile].
Defined.

(** C8, amended, on the stream that breaks. *)
Lemma transfer_closes_sink_witness :
  let self := Scenario.app false false in
  let w := Scenario.world_of Scenario.empty_dir [] in
  let r := transfer self Scenario.breaking "/d/a.jpg" w in
  r = (Raised ConnectionError, r.2)
  ∧ sinks (handles r.2) = sinks (handles w)
  ∧ handles r.2 = SourceStream "a.jpg" :: handles w.
Proof.
  intros self w r.
  assert (H : r = (Raised ConnectionError, r.2)) by (vm_compute; reflexivity).
  split; [exact H|].
  destruct (transfer_closes_sink self Scenario.breaking "/d/a.jpg" w _ _ H)
    as (_ & Hsinks & Hsource).
  split; [exact Hsinks|]. exact (Hsource _ eq_refl).
Defined.

(** C9 on a listing that names [a.jpg] twice: the first content stays. *)
Lemma first_occurrence_wins_witness :
  let self := Scenario.app false false in
  let w := Scenario.world_of Scenario.empty_dir [] in
  let r := download_photos self Scenario.twice "/d" false w in
  r = (Returned {["/d/a.jpg"; "/d/b.jpg"]}, r.2)
  ∧ (∀ p, p ∈ photos_all Scenario.twice →
       files w !! Path.join "/d" (filename p) = None)
  ∧ files r.2 !! "/d/a.jpg" = Some (File ["005"%byte]).
Proof.
  intros self w r.
  assert (H : r = (Returned {["/d/a.jpg"; "/d/b.jpg"]}, r.2))
    by (vm_compute; reflexivity).
  assert (Hfresh : ∀ p, p ∈ photos_all Scenario.twice →
            files w !! Path.join "/d" (filename p) = None).
  { intros p Hp. apply list_elem_of_In in Hp. simpl in Hp.
    destruct Hp as [<-|[<-|[<-|[]]]]; reflexivity. }
  split; [exact H|]. split; [exact Hfresh|].
  destruct (first_occurrence_wins self Scenario.twice "/d" w _ _ H Hfresh)
    as (evs & d & s & _ & _ & _ & _ & _ & Hfirst & _).
  destruct (Hfirst 0%nat (Scenario.healthy "a.jpg" ["005"%byte]))
    as (st & Hst & Hfile).
  { split; [reflexivity|]. intros j p' Hj. lia. }
  injection Hst as <-. exact Hfile.
Defined.

(** The scenario of section 8 from end to end: with [a.jpg] and [b.jpg] in
    the destination and [b.jpg] and [c.jpg] in the listing, the run skips
    [b.jpg], downloads [c.jpg], shows [a.jpg] as missing and, on the answer
    yes, removes it; the symbolic link and the directory stay. *)
Example section_8_scenario :
  run (Scenario.app false true) (Some Scenario.listing) (Scenario.before [true])
  = (Returned tt,
     {| files :=
          <["/d/c.jpg" := File ["004"%byte]]>
            (delete "/d/a.jpg" Scenario.two_photos);
        handles := [SourceStream "c.jpg"];
        console :=
          [Logged INFO Connecting;
           Printed (Downloading_all "/d" false);
           Logged DEBUG (Skipping_existing "b.jpg");
           Logged DEBUG (Downloading "c.jpg");
           Printed (Report 1 1 0 2);
           Logged DEBUG (Icloud_photos Scenario.claimed);
           Printed Checking_for_missing;
           Logged DEBUG (Considered_for_removal "a.jpg");
           Printed (Missing_photos 1);
           Printed (Missing_name "a.jpg");
           Asked true;
           Printed Dot;
           Printed (Removed_files 1)];
        stdin := [] |}).
Proof. vm_compute. reflexivity. Qed.

(** * Further properties *)

(** ** What the pipeline keeps *)

Lemma kept_refl fs : kept fs fs.
Proof. intros p. destruct (fs !! p) as [[| |]|]; eauto. Qed.

Lemma kept_trans fs1 fs2 fs3 : kept fs1 fs2 → kept fs2 fs3 → kept fs1 fs3.
Proof.
  intros H12 H23 p. specialize (H12 p). specialize (H23 p).
  destruct (fs1 !! p) as [[| |]|].
  - destruct H12 as [c Hc]. by rewrite Hc in H23.
  - by rewrite H12 in H23.
  - by rewrite H12 in H23.
  - destruct H12 as [Hc|[c Hc]]; rewrite Hc in H23; [done|by right].
Qed.

Lemma kept_write fs q c :
  (fs !! q = None ∨ ∃ c0, fs !! q = Some (File c0)) →
  kept fs (<[q := File c]> fs).
Proof.
  intros Hq p. destruct (decide (q = p)) as [<-|Hne].
  - rewrite lookup_insert_eq. destruct Hq as [->|[c0 ->]]; eauto.
  - rewrite lookup_insert_ne by done. apply kept_refl.
Qed.

(** Rewriting and creating regular files changes no resolution of links. *)
Lemma follow_kept fs fs' hops : ∀ p,
  kept fs fs' → OS.follow hops fs' p = OS.follow hops fs p.
Proof.
  induction hops as [|h IH]; intros p Hk; simpl; specialize (Hk p) as Hp;
    destruct (fs !! p) as [[c0| |t]|].
  - by destruct Hp as [c ->].
  - by rewrite Hp.
  - by rewrite Hp.
  - by destruct Hp as [->|[c ->]].
  - by destruct Hp as [c ->].
  - by rewrite Hp.
  - rewrite Hp. by apply IH.
  - by destruct Hp as [->|[c ->]].
Qed.

Lemma isfile_kept fs fs' p :
  kept fs fs' → OS.isfile fs p = true → OS.isfile fs' p = true.
Proof.
  intros Hk. unfold OS.isfile. rewrite (follow_kept fs fs') by done.
  destruct (OS.follow _ fs p) as [q|]; [|done].
  specialize (Hk q). destruct (fs !! q) as [[| |]|]; try done.
  by destruct Hk as [c ->].
Qed.

(** Where [open] succeeds: at the end of the links, on a regular file or on
    nothing. *)
Lemma open_target_inr fs p q :
  OS.open_target fs p = inr q →
  OS.follow OS.MAXSYMLINKS fs p = Some q
  ∧ (fs !! q = None ∨ ∃ c, fs !! q = Some (File c)).
Proof.
  unfold OS.open_target.
  destruct (OS.follow _ fs p) as [q'|]; [|done].
  destruct (fs !! q') as [[c| |]|] eqn:Hq; try done.
  - intros [= <-]. eauto.
  - destruct (OS.parent_is_dir fs q'); [|done]. intros [= <-]. eauto.
Qed.

Lemma isfile_written fs p q c :
  OS.open_target fs p = inr q → OS.isfile (<[q := File c]> fs) p = true.
Proof.
  intros [Hf Hq]%open_target_inr. unfold OS.isfile.
  rewrite (follow_kept fs) by by apply kept_write.
  by rewrite Hf, lookup_insert_eq.
Qed.

Lemma files_shown evs w : files (shown evs w) = files w.
Proof. reflexivity. Qed.

(** Whatever its outcome, the transfer of a photo only rewrites or creates
    a regular file, and asks the user nothing. *)
Lemma transfer_kept self p filename_ w out w' :
  transfer self p filename_ w = (out, w') →
  kept (files w) (files w') ∧ stdin w' = stdin w.
Proof.
  destruct (transfer_run self p filename_ w) as (evs & _ & ->).
  destruct (download p) as [s|].
  - destruct (OS.open_target (files w) filename_) as [e|q] eqn:Hopen.
    + intros [= <- <-]. split; [apply kept_refl|done].
    + intros [= <- <-]. split; [|done]. simpl.
      apply kept_write. by apply open_target_inr in Hopen as [_ ?].
  - intros [= <- <-]. split; [apply kept_refl|done].
Qed.

Lemma loop_body_kept self destination_ overwrite_existing l p w out w' :
  loop_body self destination_ overwrite_existing l p w = (out, w') →
  kept (files w) (files w') ∧ stdin w' = stdin w.
Proof.
  rewrite loop_body_run. cbv zeta.
  assert (H : ∀ w0 a,
    and_then (transfer self p (target destination_ p) w0) a = (out, w') →
    kept (files w0) (files w') ∧ stdin w' = stdin w0).
  { intros w0 a.
    destruct (transfer _ _ _ w0) as [o w1] eqn:Htr.
    apply transfer_kept in Htr.
    destruct o; simpl; by intros [= <- <-]. }
  destruct (OS.isfile _ _); [destruct overwrite_existing|].
  - by intros ?%H.
  - intros [= <- <-]. split; [apply kept_refl|done].
  - by intros ?%H.
Qed.

(** A photo the body returned from is a regular file at its path. *)
Lemma loop_body_isfile self destination_ overwrite_existing l p w l' w' :
  loop_body self destination_ overwrite_existing l p w = (Returned l', w') →
  OS.isfile (files w') (target destination_ p) = true.
Proof.
  intros Hbody. apply loop_body_returned in Hbody. cbv zeta in Hbody.
  destruct Hbody as [(Hfile & _ & _ & ->)
    | (q & s & bars & _ & _ & _ & Hopen &
       [(_ & _ & _ & ->) | (_ & _ & ->)])]; simpl.
  - done.
  - by apply isfile_written.
  - by apply isfile_written.
Qed.

Lemma for_photos_kept self destination_ overwrite_existing photos last :
  ∀ l w out w',
  for_photos (loop_body self destination_ overwrite_existing) photos last l w
    = (out, w') →
  kept (files w) (files w') ∧ stdin w' = stdin w
  ∧ ∀ l', out = Returned l' →
      last = Eof
      ∧ ∀ p, p ∈ photos → OS.isfile (files w') (target destination_ p) = true.
Proof.
  induction photos as [|p photos IH]; intros l w out w'; simpl.
  - destruct last; intros [= <- <-];
      (split; [apply kept_refl|]); (split; [done|]); intros l'; [|done].
    intros _. split; [done|]. intros p Hp. by apply not_elem_of_nil in Hp.
  - rewrite bind_run.
    destruct (loop_body _ _ _ l p w) as [[l1| |] w1] eqn:Hbody.
    + intros Hrest.
      pose proof (loop_body_kept _ _ _ _ _ _ _ _ Hbody) as [Hk1 Hs1].
      apply loop_body_isfile in Hbody.
      apply IH in Hrest as (Hk & Hs & Hret).
      split; [by eapply kept_trans|]. split; [congruence|].
      intros l' ->. destruct (Hret l' eq_refl) as [-> Hall].
      split; [done|].
      intros p' [->|Hp']%elem_of_cons; [|by apply Hall].
      by apply (isfile_kept (files w1)).
    + apply loop_body_kept in Hbody as [? ?]. by intros [= <- <-].
    + apply loop_body_kept in Hbody as [? ?]. by intros [= <- <-].
Qed.

Lemma download_photos_kept self api destination_ overwrite_existing w :
  kept (files w)
    (files (download_photos self api destination_ overwrite_existing w).2)
  ∧ stdin (download_photos self api destination_ overwrite_existing w).2
    = stdin w.
Proof.
  rewrite download_photos_run.
  destruct (for_photos _ _ _ _ _) as [o w1] eqn:Hloop.
  apply for_photos_kept in Hloop as (Hk & Hs & _).
  by destruct o.
Qed.

(** X1.  Whatever the overwrite flag and whatever the outcome, also when it
    raises half way, [download_photos] removes nothing and leaves every
    directory and every symbolic link as it was: a path that held a regular
    file still holds one, and a path that held nothing holds nothing or a
    regular file.  It asks the user nothing. *)
Theorem pipeline_only_writes_files self api destination_ overwrite_existing w :
  kept (files w)
    (files (download_photos self api destination_ overwrite_existing w).2)
  ∧ stdin (download_photos self api destination_ overwrite_existing w).2
    = stdin w
  ∧ dom (files w)
    ⊆ dom (files (download_photos self api destination_ overwrite_existing w).2).
Proof.
  destruct (download_photos_kept self api destination_ overwrite_existing w)
    as [Hk Hs].
  split; [done|]. split; [done|].
  intros p [x Hx]%elem_of_dom. apply elem_of_dom.
  specialize (Hk p). rewrite Hx in Hk.
  destruct x; [destruct Hk as [c ->]|rewrite Hk..]; eauto.
Qed.

(** ** Without overwriting *)

Lemma transfer_creates self p filename_ w out w' :
  OS.isfile (files w) filename_ = false →
  transfer self p filename_ w = (out, w') →
  files w ⊆ files w'.
Proof.
  intros Hfile.
  destruct (transfer_run self p filename_ w) as (evs & _ & ->).
  destruct (download p) as [s|]; [|by intros [= <- <-]].
  destruct (OS.open_target (files w) filename_) as [e|q] eqn:Hopen;
    [by intros [= <- <-]|].
  intros [= <- <-]. simpl. apply insert_subseteq.
  apply open_target_inr in Hopen as [Hf [Hq|[c Hq]]]; [done|].
  unfold OS.isfile in Hfile. by rewrite Hf, Hq in Hfile.
Qed.

Lemma loop_body_creates self destination_ l p w out w' :
  loop_body self destination_ false l p w = (out, w') →
  files w ⊆ files w'.
Proof.
  rewrite loop_body_run. cbv zeta.
  destruct (OS.isfile _ _) eqn:Hfile; [by intros [= <- <-]|].
  destruct (transfer _ _ _ w) as [o w1] eqn:Htr.
  apply transfer_creates in Htr; [|done].
  destruct o; simpl; by intros [= <- <-].
Qed.

Lemma for_photos_creates self destination_ photos last : ∀ l w out w',
  for_photos (loop_body self destination_ false) photos last l w = (out, w') →
  files w ⊆ files w'.
Proof.
  induction photos as [|p photos IH]; intros l w out w'; simpl.
  - by destruct last; intros [= <- <-].
  - rewrite bind_run.
    destruct (loop_body _ _ _ l p w) as [[l1| |] w1] eqn:Hbody;
      apply loop_body_creates in Hbody.
    + intros Hrest%IH. by etrans.
    + by intros [= <- <-].
    + by intros [= <- <-].
Qed.

(** X2.  Without overwriting, [download_photos] changes nothing that exists:
    whatever its outcome, every path that held a regular file, a directory
    or a symbolic link before holds the very same afterwards.  It only
    creates files. *)
Theorem pipeline_without_overwrite_only_creates self api destination_ w :
  files w ⊆ files (download_photos self api destination_ false w).2.
Proof.
  rewrite download_photos_run.
  destruct (for_photos _ _ _ _ _) as [o w1] eqn:Hloop.
  apply for_photos_creates in Hloop. by destruct o.
Qed.

(** ** Running the pipeline again *)

Lemma skip_all_counts destination_ photos : ∀ l,
  downloaded_count (skip_all destination_ photos l) = downloaded_count l
  ∧ overwritten_count (skip_all destination_ photos l) = overwritten_count l
  ∧ skipped_count (skip_all destination_ photos l)
    = (skipped_count l + List.length photos)%nat
  ∧ total_count (skip_all destination_ photos l)
    = (total_count l + List.length photos)%nat
  ∧ icloud_photos (skip_all destination_ photos l)
    = list_to_set (target destination_ <$> photos) ∪ icloud_photos l.
Proof.
  induction photos as [|p photos IH]; intros l.
  - simpl. repeat split; try lia. by rewrite union_empty_l_L.
  - change (skip_all destination_ (p :: photos) l)
      with (skip_all destination_ photos
              (counted skip_existing (target destination_ p) l)).
    destruct (IH (counted skip_existing (target destination_ p) l))
      as (-> & -> & -> & -> & ->).
    simpl. repeat split; try lia. apply union_cons.
Qed.

Lemma for_photos_all_skipped self destination_ photos : ∀ l w,
  (∀ p, p ∈ photos → OS.isfile (files w) (target destination_ p) = true) →
  for_photos (loop_body self destination_ false) photos Eof l w
  = (Returned (skip_all destination_ photos l), shown (skips photos) w).
Proof.
  induction photos as [|p photos IH]; intros l w Hall; simpl.
  - by rewrite shown_nil.
  - rewrite bind_run, loop_body_run. cbv zeta.
    rewrite Hall by left.
    rewrite IH by (intros p' Hp'; apply Hall; by right).
    by rewrite shown_shown.
Qed.

Lemma download_photos_all_skipped self api destination_ w :
  listing_end api = Eof →
  (∀ p, p ∈ photos_all api →
     OS.isfile (files w) (target destination_ p) = true) →
  download_photos self api destination_ false w
  = (Returned (list_to_set (target destination_ <$> photos_all api)),
     shown (pipeline_console destination_ false (skips (photos_all api))
              0 (List.length (photos_all api)) 0
              (List.length (photos_all api))
              (list_to_set (target destination_ <$> photos_all api))) w).
Proof.
  intros Hend Hall. rewrite download_photos_run, Hend.
  rewrite for_photos_all_skipped by done.
  destruct (skip_all_counts destination_ (photos_all api) initial)
    as (-> & -> & -> & -> & ->).
  simpl. rewrite union_empty_r_L, shown_shown, shown_shown.
  reflexivity.
Qed.

(** X3.  When every photo of the listing already is a regular file at its
    path, [download_photos] without overwriting returns, skips every photo,
    downloads none, and leaves the files, the open handles and the answers
    of the user as they were; it only writes its heading, one skip per photo
    and its report. *)
Theorem all_existing_all_skipped self api destination_ w :
  listing_end api = Eof →
  (∀ p, p ∈ photos_all api →
     OS.isfile (files w) (Path.join destination_ (filename p)) = true) →
  let photos :=
    list_to_set ((λ p, Path.join destination_ (filename p)) <$> photos_all api)
  in
  download_photos self api destination_ false w
  = (Returned photos,
     shown (pipeline_console destination_ false (skips (photos_all api))
              0 (List.length (photos_all api)) 0
              (List.length (photos_all api)) photos) w).
Proof. intros Hend Hall. by apply download_photos_all_skipped. Qed.

(** X4.  After a run of [download_photos] that returned, with or without
    overwriting, every photo of the listing is a regular file at its path;
    so a second run without overwriting returns the same set, skips every
    photo and changes no file. *)
Theorem second_run_skips_everything self api destination_ overwrite_existing
    w photos w1 :
  download_photos self api destination_ overwrite_existing w
    = (Returned photos, w1) →
  (∀ p, p ∈ photos_all api →
     OS.isfile (files w1) (Path.join destination_ (filename p)) = true)
  ∧ download_photos self api destination_ false w1
    = (Returned photos,
       shown (pipeline_console destination_ false (skips (photos_all api))
                0 (List.length (photos_all api)) 0
                (List.length (photos_all api)) photos) w1).
Proof.
  intros Hrun.
  pose proof Hrun as (_ & _ & _ & _ & _ & _ & _ & _ & _ & _ & ->)%download_photos_returned.
  rewrite download_photos_run in Hrun.
  destruct (for_photos _ _ _ _ _) as [[l| |] w0] eqn:Hloop; try done.
  injection Hrun as _ <-.
  apply for_photos_kept in Hloop as (_ & _ & Hret).
  destruct (Hret l eq_refl) as [Hend Hall].
  split; [done|]. by apply download_photos_all_skipped.
Qed.

(** ** What the loop shows and holds *)

Lemma silent_bars evs : Forall bar evs → Forall silent evs.
Proof. intros H. eapply Forall_impl; [exact H|]. by intros []. Qed.

(** Whatever its outcome, a pass of the loop prints nothing, asks nothing
    and leaves no file object open. *)
Lemma loop_body_trace self destination_ overwrite_existing l p w out w' :
  loop_body self destination_ overwrite_existing l p w = (out, w') →
  ∃ evs, console w' = console w ++ evs ∧ Forall silent evs
    ∧ sinks (handles w') = sinks (handles w).
Proof.
  rewrite loop_body_run. cbv zeta.
  assert (H : ∀ w0 a,
    and_then (transfer self p (target destination_ p) w0) a = (out, w') →
    ∃ evs, console w' = console w0 ++ evs ∧ Forall silent evs
      ∧ sinks (handles w') = sinks (handles w0)).
  { intros w0 a.
    destruct (transfer_run self p (target destination_ p) w0)
      as (bars & Hbars & ->).
    destruct (download p) as [s|].
    - destruct (OS.open_target _ _) as [e|q].
      + intros [= <- <-]. exists []. by rewrite app_nil_r.
      + unfold at_end. destruct (stream_end s); intros [= <- <-];
          (eexists; split; [apply console_transferred|]);
          (split; [constructor; [done|by apply silent_bars]|done]).
    - intros [= <- <-]. exists []. by rewrite app_nil_r. }
  destruct (OS.isfile _ _); [destruct overwrite_existing|].
  - intros (evs & Hcon & Hs & Hh)%H.
    exists (Logged DEBUG (Overwriting_existing (filename p)) :: evs).
    split; [by rewrite Hcon; simpl; rewrite <- app_assoc|].
    split; [by constructor|done].
  - intros [= <- <-]. eexists. split; [done|].
    split; [by repeat constructor|done].
  - apply H.
Qed.

Lemma for_photos_trace self destination_ overwrite_existing photos last :
  ∀ l w out w',
  for_photos (loop_body self destination_ overwrite_existing) photos last l w
    = (out, w') →
  ∃ evs, console w' = console w ++ evs ∧ Forall silent evs
    ∧ sinks (handles w') = sinks (handles w).
Proof.
  induction photos as [|p photos IH]; intros l w out w'; simpl.
  - destruct last; intros [= <- <-]; exists []; by rewrite app_nil_r.
  - rewrite bind_run.
    destruct (loop_body _ _ _ l p w) as [[l1| |] w1] eqn:Hbody;
      apply loop_body_trace in Hbody as (evs1 & Hc1 & Hs1 & Hh1).
    + intros (evs & Hc & Hs & Hh)%IH. exists (evs1 ++ evs).
      split; [by rewrite Hc, Hc1, app_assoc|].
      split; [by apply Forall_app|congruence].
    + intros [= <- <-]. eauto.
    + intros [= <- <-]. eauto.
Qed.

(** A returning loop holds one more response for each download. *)
Lemma for_photos_responses self destination_ overwrite_existing photos last :
  ∀ l w l' w',
  for_photos (loop_body self destination_ overwrite_existing) photos last l w
    = (Returned l', w') →
  (List.length (responses (handles w')) + downloaded_count l
   = List.length (responses (handles w)) + downloaded_count l')%nat.
Proof.
  induction photos as [|p photos IH]; intros l w l' w'; simpl.
  - destruct last; [|done]. by intros [= <- <-].
  - rewrite bind_run.
    destruct (loop_body _ _ _ l p w) as [[l1| |] w1] eqn:Hbody; try done.
    intros Hrest%IH. apply loop_body_returned in Hbody. cbv zeta in Hbody.
    destruct Hbody as [(_ & _ & -> & ->)
      | (q & s & bars & _ & _ & _ & _ &
         [(_ & _ & -> & ->) | (_ & -> & ->)])]; simpl in *; lia.
Qed.

(** ** The report and the transfers *)

(** What the flag excludes: with overwriting the loop skips no photo, and
    without it the loop overwrites none. *)
Lemma for_photos_flag self destination_ overwrite_existing photos last :
  ∀ l w l' w',
  for_photos (loop_body self destination_ overwrite_existing) photos last l w
    = (Returned l', w') →
  (overwrite_existing = true → skipped_count l' = skipped_count l)
  ∧ (overwrite_existing = false → overwritten_count l' = overwritten_count l).
Proof.
  induction photos as [|p photos IH]; intros l w l' w'; simpl.
  - destruct last; [|done]. by intros [= <- <-].
  - rewrite bind_run.
    destruct (loop_body _ _ _ l p w) as [[l1| |] w1] eqn:Hbody; try done.
    intros [Hs Ho]%IH. apply loop_body_returned in Hbody. cbv zeta in Hbody.
    destruct Hbody as [(_ & Hflag & -> & _)
      | (q & s & bars & _ & _ & _ & _ &
         [(_ & Hflag & -> & _) | (_ & -> & _)])]; simpl in *.
    + split; [congruence|done].
    + split; [done|congruence].
    + done.
Qed.

(** The counter of downloads never goes down, and a loop that leaves it
    where it was has written no file and acquired no response. *)
Lemma for_photos_idle self destination_ overwrite_existing photos last :
  ∀ l w l' w',
  for_photos (loop_body self destination_ overwrite_existing) photos last l w
    = (Returned l', w') →
  (downloaded_count l ≤ downloaded_count l')%nat
  ∧ (downloaded_count l' = downloaded_count l →
     files w' = files w ∧ handles w' = handles w).
Proof.
  induction photos as [|p photos IH]; intros l w l' w'; simpl.
  - destruct last; [|done]. by intros [= <- <-].
  - rewrite bind_run.
    destruct (loop_body _ _ _ l p w) as [[l1| |] w1] eqn:Hbody; try done.
    intros [Hle Hidle]%IH. apply loop_body_returned in Hbody.
    cbv zeta in Hbody.
    destruct Hbody as [(_ & _ & -> & ->)
      | (q & s & bars & _ & _ & _ & _ &
         [(_ & _ & -> & ->) | (_ & -> & ->)])]; simpl in *.
    + split; [done|]. intros Heq. by apply Hidle.
    + split; [lia|]. intros Heq. lia.
    + split; [lia|]. intros Heq. lia.
Qed.

(** C10.  A run of [download_photos] that returns reports as total the
    number of photos of the listing, with skipped + downloaded = total and
    overwritten <= downloaded.  The downloaded counter is the number of
    transfers made: the run holds that many more responses of
    [photo.download()] than before and logged that many downloads, and a
    run that reports none has written no file.  The overwritten counter is
    the number of those announced as overwriting, the skipped counter the
    number of photos announced as skipped.  With overwriting nothing is
    skipped; without it nothing is overwritten and every file that existed
    holds what it held.  Every photo of the listing is a regular file at its
    path in the end.  Pass by pass: a pass of the loop that returns counts
    the photo in the total, and either skips it (a regular file is at its
    path and overwriting is off; it writes no file, acquires no response,
    and adds one to the skipped counter alone), or transfers it (the
    response is acquired and stays so, the file the path leads to holds all
    the bytes of the stream; it adds one to the downloaded counter, whether
    a file was there or not, and one to the overwritten counter exactly
    when a file was there). *)
Theorem downloaded_counts_transfers self api destination_ overwrite_existing :
  (∀ w photos w',
     download_photos self api destination_ overwrite_existing w
       = (Returned photos, w') →
     ∃ evs downloaded skipped overwritten,
       console w' = console w ++
         pipeline_console destination_ overwrite_existing evs downloaded
           skipped overwritten (List.length (photos_all api)) photos
       ∧ (skipped + downloaded = List.length (photos_all api))%nat
       ∧ (overwritten ≤ downloaded)%nat
       ∧ downloaded = tally is_downloading evs
       ∧ overwritten = tally is_overwriting evs
       ∧ skipped = tally is_skipping evs
       ∧ List.length (responses (handles w'))
         = (List.length (responses (handles w)) + downloaded)%nat
       ∧ (downloaded = 0%nat → files w' = files w ∧ handles w' = handles w)
       ∧ (overwrite_existing = true → skipped = 0%nat)
       ∧ (overwrite_existing = false →
          overwritten = 0%nat ∧ files w ⊆ files w')
       ∧ (∀ p, p ∈ photos_all api →
            OS.isfile (files w') (Path.join destination_ (filename p)) = true))
  ∧ (∀ l p w l' w',
       loop_body self destination_ overwrite_existing l p w
         = (Returned l', w') →
       let filename_ := Path.join destination_ (filename p) in
       total_count l' = S (total_count l)
       ∧ ((OS.isfile (files w) filename_ = true
           ∧ overwrite_existing = false
           ∧ files w' = files w ∧ handles w' = handles w
           ∧ skipped_count l' = S (skipped_count l)
           ∧ downloaded_count l' = downloaded_count l
           ∧ overwritten_count l' = overwritten_count l)
          ∨ (∃ q s, download p = Some s
               ∧ OS.open_target (files w) filename_ = inr q
               ∧ files w' = <[q := File (pending s)]> (files w)
               ∧ handles w' = SourceStream (filename p) :: handles w
               ∧ (OS.isfile (files w) filename_ = true →
                  overwrite_existing = true)
               ∧ skipped_count l' = skipped_count l
               ∧ downloaded_count l' = S (downloaded_count l)
               ∧ overwritten_count l'
                 = ((if OS.isfile (files w) filename_ then 1 else 0)
                    + overwritten_count l)%nat))).
Proof.
  split.
  - intros w photos w'. rewrite download_photos_run.
    destruct (for_photos _ _ _ _ _) as [[l| |] w1] eqn:Hloop; try done.
    intros [= <- <-].
    pose proof (for_photos_responses _ _ _ _ _ _ _ _ _ Hloop) as Hresp.
    pose proof (for_photos_flag _ _ _ _ _ _ _ _ _ Hloop) as [Hon Hoff].
    pose proof (for_photos_idle _ _ _ _ _ _ _ _ _ Hloop) as [_ Hidle].
    pose proof (for_photos_kept _ _ _ _ _ _ _ _ _ Hloop) as (_ & _ & Hall).
    destruct (Hall l eq_refl) as [_ Hfiles].
    assert (Hsub : overwrite_existing = false →
              files (shown [Printed (Downloading_all destination_
                                       overwrite_existing)] w) ⊆ files w1).
    { intros Hflag. rewrite Hflag in Hloop.
      by apply for_photos_creates in Hloop. }
    apply for_photos_returned in Hloop
      as (evs & Hcon & Ht & Hd & Hs & Ho & Hsd & Hod & _).
    exists evs, (downloaded_count l), (skipped_count l),
      (overwritten_count l).
    cbn [console shown handles files initial downloaded_count skipped_count
         overwritten_count total_count] in *.
    rewrite Hcon, Ht, <- app_assoc. unfold pipeline_console. simpl.
    rewrite <- app_assoc. simpl.
    split; [done|]. split; [lia|]. split; [lia|]. split; [lia|].
    split; [lia|]. split; [lia|]. split; [lia|]. split; [|split; [|split]].
    + intros Hzero. apply Hidle. by rewrite Hzero.
    + intros Hflag. by rewrite (Hon Hflag).
    + intros Hflag. split; [by rewrite (Hoff Hflag)|by apply Hsub].
    + exact Hfiles.
  - intros l p w l' w' Hbody. apply loop_body_returned in Hbody.
    cbv zeta in *. unfold target in Hbody.
    destruct Hbody as [(Hfile & Hflag & -> & ->)
      | (q & s & bars & _ & Hs & _ & Hopen &
         [(Hfile & Hflag & -> & ->) | (Hfile & -> & ->)])];
      (split; [done|]).
    + left. by rewrite Hfile.
    + right. exists q, s. by rewrite Hfile.
    + right. exists q, s. by rewrite Hfile.
Qed.

(** X18.  [download_photos] prints its report exactly when it returns: a
    run that raises has printed the heading and nothing else, whatever it
    logged.  It never asks the user, and it leaves no file object open,
    whatever its outcome. *)
Theorem report_only_on_return self api destination_ overwrite_existing w :
  ∃ evs, Forall silent evs
    ∧ sinks (handles
               (download_photos self api destination_ overwrite_existing w).2)
      = sinks (handles w)
    ∧ match download_photos self api destination_ overwrite_existing w with
      | (Returned photos, w') =>
          ∃ downloaded skipped overwritten,
            console w' = console w ++
              pipeline_console destination_ overwrite_existing evs downloaded
                skipped overwritten (List.length (photos_all api)) photos
      | (Raised _, w') =>
          console w' = console w
            ++ Printed (Downloading_all destination_ overwrite_existing)
            :: evs
      | (Unfinished, _) => False
      end.
Proof.
  rewrite download_photos_run.
  destruct (for_photos _ _ _ _ _) as [o w1] eqn:Hloop.
  pose proof (for_photos_trace _ _ _ _ _ _ _ _ _ Hloop)
    as (evs & Hcon & Hs & Hh).
  exists evs. split; [done|]. simpl in Hcon.
  destruct o as [l| |].
  - split; [done|].
    apply for_photos_returned in Hloop as (_ & _ & Ht & _).
    exists (downloaded_count l), (skipped_count l), (overwritten_count l).
    cbn [console shown]. rewrite Hcon, Ht, <- !app_assoc. done.
  - split; [done|]. by rewrite Hcon, <- app_assoc.
  - pose proof (for_photos_finishes self destination_ overwrite_existing
      (photos_all api) (listing_end api) initial
      (shown [Printed (Downloading_all destination_ overwrite_existing)] w))
      as Hfin.
    by rewrite Hloop in Hfin.
Qed.

(** X19.  [download_photos] closes no response of [photo.download()]: when
    it returns, the responses it holds are those it held before and one
    more for each photo its report counts as downloaded. *)
Theorem responses_pile_up self api destination_ overwrite_existing w photos
    w' :
  download_photos self api destination_ overwrite_existing w
    = (Returned photos, w') →
  ∃ evs downloaded skipped overwritten total,
    console w' = console w ++
      pipeline_console destination_ overwrite_existing evs downloaded
        skipped overwritten total photos
    ∧ List.length (responses (handles w'))
      = (List.length (responses (handles w)) + downloaded)%nat.
Proof.
  rewrite download_photos_run.
  destruct (for_photos _ _ _ _ _) as [[l| |] w1] eqn:Hloop; try done.
  intros [= <- <-].
  pose proof (for_photos_responses _ _ _ _ _ _ _ _ _ Hloop) as Hresp.
  apply for_photos_returned in Hloop as (evs & Hcon & _).
  exists evs, (downloaded_count l), (skipped_count l), (overwritten_count l),
    (total_count l).
  cbn [console shown handles] in *. rewrite Hcon, <- !app_assoc.
  split; [done|]. simpl in Hresp. lia.
Qed.

(** X5.  When the stream of a photo breaks, the transfer raises and leaves
    in the file what was delivered.  The file then counts as existing: the
    loop without overwriting skips every photo of that path, so that only a
    run with overwriting replaces the partial file. *)
Theorem broken_transfer_leaves_partial_file self destination_ p s q w :
  download p = Some s → stream_end s = Broken →
  OS.open_target (files w) (Path.join destination_ (filename p)) = inr q →
  ∃ w1,
    transfer self p (Path.join destination_ (filename p)) w
      = (Raised ConnectionError, w1)
    ∧ files w1 !! q = Some (File (pending s))
    ∧ ∀ self' l p', filename p' = filename p →
        loop_body self' destination_ false l p' w1
        = (Returned
             (counted skip_existing (Path.join destination_ (filename p)) l),
           shown [Logged DEBUG (Skipping_existing (filename p))] w1).
Proof.
  intros Hs Hend Hopen.
  destruct (transfer_run self p (Path.join destination_ (filename p)) w)
    as (evs & _ & Hrun).
  rewrite Hs, Hopen in Hrun. unfold at_end in Hrun. rewrite Hend in Hrun.
  eexists. split; [exact Hrun|]. split; [apply lookup_insert_eq|].
  intros self' l p' Hname. rewrite loop_body_run. cbv zeta.
  unfold target. rewrite Hname.
  change (files (transferred p q s evs w))
    with (<[q := File (pending s)]> (files w)).
  by rewrite (isfile_written _ _ _ _ Hopen).
Qed.

(** ** The removal, confirmed *)

Lemma lookup_without ps : ∀ fs p,
  without ps fs !! p = if decide (p ∈ ps) then None else fs !! p.
Proof.
  induction ps as [|q ps IH]; intros fs p; simpl.
  - done.
  - rewrite IH. destruct (decide (p ∈ ps)) as [Hin|Hout].
    + by rewrite decide_True by by right.
    + destruct (decide (q = p)) as [->|Hne].
      * rewrite lookup_delete_eq. by rewrite decide_True by left.
      * rewrite lookup_delete_ne by done.
        rewrite decide_False; [done|].
        intros [?|?]%elem_of_cons; congruence.
Qed.

(** The unlinking loop on regular files with distinct paths removes them
    all. *)
Lemma unlink_all cands : ∀ w,
  NoDup (paths cands) →
  (∀ e, e ∈ cands → ∃ c, files w !! OS.path e = Some (File c)) →
  for_each (λ entry, OS.unlink (OS.path entry);; print Dot) cands w
  = (Returned tt,
     shown ((λ _, Printed Dot) <$> cands)
       (set_files (without (paths cands) (files w)) w)).
Proof.
  induction cands as [|e cands IH]; intros w Hnd Hfiles.
  - simpl. rewrite shown_nil. by destruct w.
  - apply NoDup_cons in Hnd as [Hout Hnd].
    cbn [for_each]. rewrite !bind_run. unfold OS.unlink at 1.
    destruct (Hfiles e) as [c ->]; [left|].
    rewrite print_run, IH; [|done|].
    + unfold shown, set_files. simpl. by rewrite <- app_assoc.
    + intros e' He'. destruct (Hfiles e') as [c' Hc']; [by right|].
      exists c'. simpl. rewrite lookup_delete_ne; [done|].
      intros Heq. apply Hout. rewrite Heq.
      by apply (list_elem_of_fmap_2 OS.path).
Qed.

Lemma entry_of_path d kv e : OS.entry_of d kv = Some e → OS.path e = kv.1.
Proof.
  unfold OS.entry_of.
  destruct (Path.child_name d kv.1) as [n|] eqn:Hn; [|done].
  apply child_name_Some in Hn as (-> & _). by intros [= <-].
Qed.

Lemma paths_entries_NoDup d (l : list (string * node)) :
  NoDup l.*1 → NoDup (paths (omap (OS.entry_of d) l)).
Proof.
  induction l as [|kv l IH]; simpl; [constructor|].
  intros [Hout Hnd]%NoDup_cons.
  destruct (OS.entry_of d kv) as [e|] eqn:He; [|by apply IH].
  apply entry_of_path in He.
  change (paths (e :: ?es)) with (OS.path e :: paths es).
  apply NoDup_cons. split; [|by apply IH].
  intros (e' & Hp & (kv' & Hin & He')%list_elem_of_omap)%list_elem_of_fmap.
  apply entry_of_path in He'. apply Hout.
  rewrite <- He, Hp, He'. by apply (list_elem_of_fmap_2 fst).
Qed.

Lemma paths_candidates_NoDup icloud_photos_ entries :
  NoDup (paths entries) → NoDup (paths (candidates icloud_photos_ entries)).
Proof.
  induction entries as [|e entries IH]; simpl; [done|].
  change (paths (e :: entries)) with (OS.path e :: paths entries).
  intros [Hout Hnd]%NoDup_cons.
  destruct (OS.is_file e && _); [|by apply IH].
  change (paths (e :: ?es)) with (OS.path e :: paths es).
  apply NoDup_cons. split; [|by apply IH].
  intros (e' & Hp & He')%list_elem_of_fmap. apply Hout.
  apply elem_of_candidates in He' as [He' _].
  rewrite Hp. by apply (list_elem_of_fmap_2 OS.path).
Qed.

(** What a scan yields, and what it says of its candidates. *)
Lemma scandir_candidates d icloud_photos_ w entries :
  OS.scandir d w = (Returned entries, w) →
  NoDup (paths (candidates icloud_photos_ entries))
  ∧ (∀ e, e ∈ candidates icloud_photos_ entries →
       ∃ c, files w !! OS.path e = Some (File c))
  ∧ (∀ n c, n ≠ EmptyString → Path.has_sep n = false →
       files w !! Path.join d n = Some (File c) →
       Path.join d n ∉ icloud_photos_ →
       Path.join d n ∈ paths (candidates icloud_photos_ entries)).
Proof.
  intros Hscan. pose proof Hscan as (_ & Hd & Hentries)%scandir_entries.
  split; [|split].
  - apply paths_candidates_NoDup. unfold OS.scandir in Hscan.
    rewrite Hd in Hscan. injection Hscan as <-.
    apply paths_entries_NoDup, NoDup_fst_map_to_list.
  - intros e (He & [c Hc] & _)%elem_of_candidates.
    apply Hentries in He as (n & x & -> & _ & _ & Hx).
    simpl in *. subst x. eauto.
  - intros n c Hn Hsep Hfile Hout.
    apply list_elem_of_fmap.
    exists (OS.Entry n (Path.join d n) (File c)). split; [done|].
    apply elem_of_candidates. split; [|split; [by exists c|done]].
    apply Hentries. by exists n, (File c).
Qed.

(** [remove_missing] when the user says yes to a non-empty preview. *)
Lemma remove_missing_confirmed self destination_ icloud_photos_ w entries rest :
  OS.scandir destination_ w = (Returned entries, w) →
  candidates icloud_photos_ entries ≠ [] →
  stdin w = true :: rest →
  remove_missing self destination_ icloud_photos_ w
  = (Returned tt,
     {| files := without (paths (candidates icloud_photos_ entries)) (files w);
        handles := handles w;
        console := console w
                   ++ removal_console (candidates icloud_photos_ entries);
        stdin := rest |}).
Proof.
  intros Hscan Hne Hin. rewrite remove_missing_run, Hscan. cbv zeta.
  destruct (scandir_candidates _ icloud_photos_ _ _ Hscan) as (Hnd & Hfiles & _).
  destruct (candidates icloud_photos_ entries) as [|e others] eqn:Hc; [done|].
  rewrite <- Hc in *. rewrite Hin. unfold removal.
  rewrite bind_run, unlink_all, print_run by done.
  unfold shown, answered, set_files, removal_console.
  cbn [files handles console stdin]. by rewrite <- !app_assoc.
Qed.

(** The paths held for removal are the regular files directly under the
    destination that the set does not name. *)
Lemma paths_candidates d icloud_photos_ w entries p :
  OS.scandir d w = (Returned entries, w) →
  p ∈ paths (candidates icloud_photos_ entries) ↔
  ∃ n c, p = Path.join d n ∧ n ≠ EmptyString ∧ Path.has_sep n = false
    ∧ files w !! p = Some (File c) ∧ p ∉ icloud_photos_.
Proof.
  intros Hscan. pose proof Hscan as (_ & _ & Hentries)%scandir_entries.
  split.
  - intros (e & -> & (He & [c Hc] & Hout)%elem_of_candidates)%list_elem_of_fmap.
    apply Hentries in He as (n & x & -> & Hn & Hsep & Hx).
    simpl in *. subst x. by exists n, c.
  - intros (n & c & -> & Hn & Hsep & Hfile & Hout).
    by apply (scandir_candidates _ _ _ _ Hscan) with c.
Qed.

(** C3.  The entries of the scan are the nodes directly under the
    destination, each under the path [join(destination, name)]; the entries
    [remove_missing] holds for removal are exactly those that are regular
    files themselves (neither symbolic links nor directories) and whose
    path is not in the set, so that their paths are the regular files
    directly under the destination that the set does not name.  With none
    of them [remove_missing] says so and leaves the world alone.  Otherwise
    it shows them all and asks: without an answer or on the answer no it
    deletes nothing, and on the answer yes it returns having deleted
    exactly their paths, every other path (a symbolic link, a directory,
    a file further down, a path of the set) holding what it held.
    Consequently, whatever the set holds and whatever the user answers, a
    path of the set holds after [remove_missing] what it held before. *)
Theorem removal_candidates_exact self destination_ icloud_photos_ w :
  (∀ entries w1, OS.scandir destination_ w = (Returned entries, w1) →
     (∀ e, e ∈ entries ↔
        ∃ n x, e = OS.Entry n (Path.join destination_ n) x
          ∧ n ≠ EmptyString ∧ Path.has_sep n = false
          ∧ files w !! Path.join destination_ n = Some x)
     ∧ ∃ photos_for_removal evs,
         for_entries icloud_photos_ entries [] w1
           = (Returned photos_for_removal, shown evs w1)
         ∧ (∀ e, e ∈ photos_for_removal ↔
              e ∈ entries ∧ (∃ c, OS.lstat e = File c)
              ∧ OS.path e ∉ icloud_photos_)
         ∧ (∀ p, p ∈ paths photos_for_removal ↔
              ∃ n c, p = Path.join destination_ n
                ∧ n ≠ EmptyString ∧ Path.has_sep n = false
                ∧ files w !! p = Some (File c) ∧ p ∉ icloud_photos_)
         ∧ (photos_for_removal = [] →
            remove_missing self destination_ icloud_photos_ w
            = (Returned tt,
               shown [Printed Checking_for_missing; Printed Nothing_to_do] w))
         ∧ (photos_for_removal ≠ [] →
            match stdin w with
            | [] =>
                remove_missing self destination_ icloud_photos_ w
                = (Raised Abort, shown (preview photos_for_removal) w)
            | false :: rest =>
                remove_missing self destination_ icloud_photos_ w
                = (Returned tt,
                   shown [Logged INFO Abort_removal]
                     (answered false rest
                        (shown (preview photos_for_removal) w)))
            | true :: rest =>
                ∃ w', remove_missing self destination_ icloud_photos_ w
                      = (Returned tt, w')
                  ∧ console w' = console w
                      ++ preview photos_for_removal ++ Asked true
                      :: ((λ _, Printed Dot) <$> photos_for_removal)
                      ++ [Printed (Removed_files
                                     (List.length photos_for_removal))]
                  ∧ stdin w' = rest ∧ handles w' = handles w
                  ∧ ∀ p, files w' !! p
                         = if decide (p ∈ paths photos_for_removal)
                           then None else files w !! p
            end))
  ∧ (∀ out w', remove_missing self destination_ icloud_photos_ w = (out, w') →
     ∀ p, p ∈ icloud_photos_ → files w' !! p = files w !! p).
Proof.
  split.
  - intros entries w1 Hscan.
    pose proof Hscan as (-> & _ & Hentries)%scandir_entries.
    split; [done|].
    eexists _, _. split; [apply for_entries_run|]. simpl.
    split; [apply elem_of_candidates|].
    split; [intros p; by apply paths_candidates|].
    split.
    + intros Hnone. rewrite remove_missing_run, Hscan. cbv zeta.
      by rewrite Hnone.
    + intros Hsome. destruct (stdin w) as [|[] rest] eqn:Hin.
      * rewrite remove_missing_run, Hscan. cbv zeta. rewrite Hin.
        by destruct (candidates icloud_photos_ entries).
      * eexists. split; [by apply remove_missing_confirmed|].
        cbn [files handles console stdin]. unfold removal_console.
        split; [done|]. split; [done|]. split; [done|].
        intros p. apply lookup_without.
      * rewrite remove_missing_run, Hscan. cbv zeta. rewrite Hin.
        by destruct (candidates icloud_photos_ entries).
  - intros out w'. rewrite remove_missing_run.
    destruct (OS.scandir destination_ w) as [[entries| |] w1];
      [|by intros [= <- <-]..].
    cbv zeta. destruct (candidates icloud_photos_ entries) as [|e others] eqn:Hc;
      [by intros [= <- <-]|].
    rewrite <- Hc.
    destruct (stdin w) as [|[] rest]; [by intros [= <- <-]| |by intros [= <- <-]].
    intros (_ & _ & _ & Hfiles & _)%removal_run p Hp.
    rewrite Hfiles; [done|].
    intros (e' & -> & He')%list_elem_of_fmap.
    apply elem_of_candidates in He' as (_ & _ & Hout). done.
Qed.

(** X6.  When the destination holds candidates and the user says yes,
    [remove_missing] returns, takes that one answer, and removes exactly the
    candidates: the regular files directly under the destination whose path
    is not in the set.  Every other path holds what it held; the console
    shows the preview, the question, one dot per removed file and their
    number. *)
Theorem confirmed_removal_removes_candidates self destination_ icloud_photos_
    w entries rest :
  OS.scandir destination_ w = (Returned entries, w) →
  candidates icloud_photos_ entries ≠ [] →
  stdin w = true :: rest →
  ∃ w',
    remove_missing self destination_ icloud_photos_ w = (Returned tt, w')
    ∧ stdin w' = rest ∧ handles w' = handles w
    ∧ console w' = console w
        ++ removal_console (candidates icloud_photos_ entries)
    ∧ (∀ n c, n ≠ EmptyString → Path.has_sep n = false →
         files w !! Path.join destination_ n = Some (File c) →
         Path.join destination_ n ∉ icloud_photos_ →
         files w' !! Path.join destination_ n = None)
    ∧ (∀ p, p ∉ paths (candidates icloud_photos_ entries) →
         files w' !! p = files w !! p)
    ∧ (∀ p, p ∈ paths (candidates icloud_photos_ entries) →
         (p ∉ icloud_photos_) ∧ (∃ c, files w !! p = Some (File c))).
Proof.
  intros Hscan Hne Hin. eexists. split.
  { by apply remove_missing_confirmed. }
  destruct (scandir_candidates _ icloud_photos_ _ _ Hscan)
    as (_ & Hfiles & Hall).
  cbn [files handles console stdin].
  split; [done|]. split; [done|]. split; [done|]. split; [|split].
  - intros n c Hn Hsep Hfile Hout. rewrite lookup_without.
    rewrite decide_True; [done|]. by eapply Hall.
  - intros p Hp. rewrite lookup_without. by rewrite decide_False.
  - intros p (e & -> & He)%list_elem_of_fmap. split; [|by apply Hfiles].
    by apply elem_of_candidates in He as (_ & _ & ?).
Qed.

(** [remove_missing] where every regular file directly under the
    destination is in the set. *)
Lemma remove_missing_nothing self destination_ icloud_photos_ w :
  files w !! destination_ = Some Dir →
  (∀ n c, n ≠ EmptyString → Path.has_sep n = false →
     files w !! Path.join destination_ n = Some (File c) →
     Path.join destination_ n ∈ icloud_photos_) →
  remove_missing self destination_ icloud_photos_ w
  = (Returned tt,
     shown [Printed Checking_for_missing; Printed Nothing_to_do] w).
Proof.
  intros Hd Hall. rewrite remove_missing_run.
  destruct (OS.scandir destination_ w) as [o w1] eqn:Hscan.
  assert (∃ entries, o = Returned entries ∧ w1 = w) as (entries & -> & ->).
  { unfold OS.scandir in Hscan. rewrite Hd in Hscan.
    injection Hscan as <- <-. eauto. }
  cbv zeta.
  destruct (candidates icloud_photos_ entries) as [|e others] eqn:Hc; [done|].
  exfalso.
  assert (He : e ∈ candidates icloud_photos_ entries) by (rewrite Hc; left).
  apply elem_of_candidates in He as (He & [c Hfile] & Hout).
  apply scandir_entries in Hscan as (_ & _ & Hentries).
  apply Hentries in He as (n & x & -> & Hn & Hsep & Hx).
  simpl in *. subst x. apply Hout. by apply (Hall n c).
Qed.

(** After a removal that returned on the answer yes, every regular file
    directly under the destination is in the set, and the destination is
    still a directory. *)
Lemma removal_leaves_owned self destination_ icloud_photos_ w w' :
  remove_missing self destination_ icloud_photos_ w = (Returned tt, w') →
  hd_error (stdin w) = Some true →
  files w' !! destination_ = Some Dir
  ∧ ∀ n c, n ≠ EmptyString → Path.has_sep n = false →
      files w' !! Path.join destination_ n = Some (File c) →
      Path.join destination_ n ∈ icloud_photos_.
Proof.
  intros Hrun Hyes.
  destruct (OS.scandir destination_ w) as [o w1] eqn:Hscan.
  assert (∃ entries, OS.scandir destination_ w = (Returned entries, w))
    as [entries Hscan'].
  { rewrite remove_missing_run, Hscan in Hrun.
    destruct o as [entries| |]; [|done..].
    apply scandir_entries in Hscan as Hw. destruct Hw as (-> & _).
    by exists entries. }
  clear Hscan.
  pose proof Hscan' as (_ & Hd & _)%scandir_entries.
  destruct (scandir_candidates _ icloud_photos_ _ _ Hscan')
    as (_ & Hfiles & Hall).
  destruct (candidates icloud_photos_ entries) as [|e others] eqn:Hc.
  - rewrite remove_missing_run, Hscan' in Hrun. cbv zeta in Hrun.
    rewrite Hc in Hrun. injection Hrun as <-. split; [done|].
    intros n c Hn Hsep Hfile.
    destruct (decide (Path.join destination_ n ∈ icloud_photos_))
      as [|Hout]; [done|].
    by apply (Hall n c), not_elem_of_nil in Hout.
  - destruct (stdin w) as [|[] rest] eqn:Hin; try done.
    rewrite (remove_missing_confirmed _ _ _ _ entries rest) in Hrun;
      [|done|by rewrite Hc|done].
    injection Hrun as <-. cbn [files]. rewrite Hc in *. split.
    + rewrite lookup_without. rewrite decide_False; [done|].
      intros (e' & -> & He')%list_elem_of_fmap.
      apply Hfiles in He' as [c Hc']. congruence.
    + intros n c Hn Hsep. rewrite lookup_without.
      destruct (decide (Path.join destination_ n ∈ paths (e :: others)))
        as [|Hnot]; [done|].
      intros Hfile.
      destruct (decide (Path.join destination_ n ∈ icloud_photos_))
        as [|Hout]; [done|].
      by apply (Hall n c) in Hout.
Qed.

(** X7.  After [remove_missing] returned on the answer yes, every regular
    file directly under the destination has its path in the set; a second
    [remove_missing] therefore finds nothing to do: it asks nothing, takes no
    answer and changes no file. *)
Theorem removal_is_idempotent self destination_ icloud_photos_ w w' :
  remove_missing self destination_ icloud_photos_ w = (Returned tt, w') →
  hd_error (stdin w) = Some true →
  (∀ n c, n ≠ EmptyString → Path.has_sep n = false →
     files w' !! Path.join destination_ n = Some (File c) →
     Path.join destination_ n ∈ icloud_photos_)
  ∧ ∀ self',
      remove_missing self' destination_ icloud_photos_ w'
      = (Returned tt,
         shown [Printed Checking_for_missing; Printed Nothing_to_do] w').
Proof.
  intros Hrun Hyes.
  destruct (removal_leaves_owned _ _ _ _ _ Hrun Hyes) as [Hd Hall].
  split; [done|]. intros self'. by apply remove_missing_nothing.
Qed.

(** ** The whole run *)

Lemma run_unfold self api w :
  run self (Some api) w =
  match download_photos self api (destination (config self))
          (overwrite (config self)) (shown [Logged INFO Connecting] w) with
  | (Returned photos, w1) =>
      if remove (config self)
      then remove_missing self (destination (config self)) photos w1
      else (Returned tt, w1)
  | (Raised e, w1) => (Raised e, w1)
  | (Unfinished, w1) => (Unfinished, w1)
  end.
Proof.
  unfold run, connect_to_icloud, logger_info.
  rewrite !bind_run, emit_run. simpl. rewrite bind_run.
  destruct (download_photos _ _ _ _ _) as [[photos| |] w1]; try done.
  by destruct (remove (config self)).
Qed.

(** X8.  After a run with removal that returned and in which the user's
    first answer was yes, the destination mirrors the listing: every regular
    file directly under the destination is the file of a photo of the
    listing, and every photo of the listing was a regular file at its path
    when the pipeline finished. *)
Theorem run_mirrors_listing self api w w' :
  run self (Some api) w = (Returned tt, w') →
  remove (config self) = true →
  hd_error (stdin w) = Some true →
  let d := destination (config self) in
  (∀ n c, n ≠ EmptyString → Path.has_sep n = false →
     files w' !! Path.join d n = Some (File c) →
     ∃ p, p ∈ photos_all api ∧ Path.join d n = Path.join d (filename p))
  ∧ ∃ photos w1,
      download_photos self api d (overwrite (config self))
        (shown [Logged INFO Connecting] w) = (Returned photos, w1)
      ∧ (∀ p, p ∈ photos_all api →
           OS.isfile (files w1) (Path.join d (filename p)) = true)
      ∧ remove_missing self d photos w1 = (Returned tt, w').
Proof.
  intros Hrun Hremove Hyes d. rewrite run_unfold, Hremove in Hrun.
  pose proof (download_photos_kept self api d (overwrite (config self))
                (shown [Logged INFO Connecting] w)) as [_ Hstdin].
  fold d in Hrun.
  destruct (download_photos _ _ _ _ _) as [[photos| |] w1] eqn:Hpipe;
    try done.
  simpl in Hstdin.
  pose proof Hpipe as (_ & _ & _ & _ & _ & _ & _ & _ & _ & _ & Hset)%download_photos_returned.
  split.
  - intros n c Hn Hsep Hfile.
    destruct (removal_leaves_owned _ _ _ _ _ Hrun) as [_ Hall];
      [by rewrite Hstdin|].
    specialize (Hall n c Hn Hsep Hfile).
    rewrite Hset, elem_of_list_to_set in Hall.
    apply list_elem_of_fmap in Hall as (p & Hp & Hin). by exists p.
  - exists photos, w1. split; [done|]. split; [|done].
    rewrite download_photos_run in Hpipe.
    destruct (for_photos _ _ _ _ _) as [[l| |] w0] eqn:Hloop; try done.
    injection Hpipe as _ <-.
    apply for_photos_kept in Hloop as (_ & _ & Hret).
    by destruct (Hret l eq_refl) as [_ Hall].
Qed.

(** ** The level of the logger *)

Lemma logger_level_range verbose : DEBUG ≤ logger_level verbose ≤ CRITICAL.
Proof.
  unfold logger_level, DEBUG, ERROR, CRITICAL. cbv zeta.
  destruct (Z.ltb_spec (50 - (verbose - 1) * 10) 10); lia.
Qed.

Lemma logger_level_cases verbose :
  (verbose ≤ 1 → logger_level verbose = CRITICAL)
  ∧ (1 ≤ verbose ≤ 5 → logger_level verbose = 60 - 10 * verbose)
  ∧ (6 ≤ verbose → logger_level verbose = ERROR).
Proof.
  unfold logger_level, DEBUG, ERROR, CRITICAL. cbv zeta.
  destruct (Z.ltb_spec (50 - (verbose - 1) * 10) 10); repeat split; lia.
Qed.

(** X9.  The level of the logger is [CRITICAL] without [-v], ten less for
    each [-v] down to [DEBUG] at five of them, and [ERROR] from the sixth
    on; it is always one of the five standard levels. *)
Theorem logger_level_values verbose :
  (verbose ≤ 1 → logger_level verbose = CRITICAL)
  ∧ (1 ≤ verbose ≤ 5 → logger_level verbose = 60 - 10 * verbose)
  ∧ (6 ≤ verbose → logger_level verbose = ERROR)
  ∧ DEBUG ≤ logger_level verbose ≤ CRITICAL
  ∧ (logger_level verbose) mod 10 = 0.
Proof.
  destruct (logger_level_cases verbose) as (Hlow & Hmid & Hhigh).
  split; [done|]. split; [done|]. split; [done|].
  split; [apply logger_level_range|].
  destruct (Z.le_gt_cases verbose 1) as [H1|H1]; [by rewrite Hlow|].
  destruct (Z.le_gt_cases 6 verbose) as [H6|H6]; [by rewrite Hhigh|].
  rewrite Hmid by lia.
  replace (60 - 10 * verbose) with ((6 - verbose) * 10) by lia.
  apply Z.mod_mul. lia.
Qed.

(** X10.  With the level [__init__] sets, a copy draws a progress bar
    exactly when the photo declares a positive size and the number of [-v]
    is at most three or at least six. *)
Theorem progress_bar_by_verbosity verbose cfg fsrc fdst size_ desc :
  _copyfileobj (App (logger_level verbose) cfg) fsrc fdst size_ desc
  = if (0 <? size_) && ((verbose <=? 3) || (6 <=? verbose))
    then with_ (emit (Bar_open desc size_)) (λ _, emit Bar_close)
           (λ _, Copy_fileobj fsrc fdst bar_update)
    else shutil_copyfileobj fsrc fdst.
Proof.
  unfold _copyfileobj. cbn [level].
  destruct (logger_level_cases verbose) as (Hlow & Hmid & Hhigh).
  replace (size_ <=? 0) with (negb (0 <? size_))
    by (destruct (Z.ltb_spec 0 size_), (Z.leb_spec size_ 0); simpl; lia).
  destruct (Z.leb_spec verbose 3), (Z.leb_spec 6 verbose); simpl; try lia.
  - destruct (Z.leb_spec verbose 1).
    + rewrite Hlow by done. by destruct (0 <? size_).
    + rewrite Hmid by lia. unfold INFO.
      destruct (Z.leb_spec (60 - 10 * verbose) 20); [lia|].
      by destruct (0 <? size_).
  - rewrite Hhigh by done. by destruct (0 <? size_).
  - rewrite Hmid by lia. unfold INFO.
    destruct (Z.leb_spec (60 - 10 * verbose) 20); [|lia].
    simpl. by rewrite andb_false_r.
Qed.

(** ** Dictionaries *)

Lemma getitem_setitem_eq d k v :
  Settings.getitem (Settings.setitem d k v) k = Some v.
Proof.
  induction d as [|[k' v'] d IH]; simpl.
  - by rewrite bool_decide_eq_true_2.
  - destruct (bool_decide (k' = k)) eqn:Hk; simpl; by rewrite Hk.
Qed.

Lemma getitem_setitem_ne d k v k' :
  k ≠ k' →
  Settings.getitem (Settings.setitem d k v) k' = Settings.getitem d k'.
Proof.
  intros Hne. induction d as [|[k0 v0] d IH]; simpl.
  - by rewrite bool_decide_eq_false_2.
  - destruct (bool_decide (k0 = k)) eqn:Hk; simpl; [|by rewrite IH].
    apply bool_decide_eq_true in Hk as ->.
    by rewrite bool_decide_eq_false_2.
Qed.

Lemma keys_setitem d k v :
  Settings.contains d k = true → (Settings.setitem d k v).*1 = d.*1.
Proof.
  unfold Settings.contains. induction d as [|[k' v'] d IH]; simpl; [done|].
  destruct (bool_decide (k' = k)); simpl; [done|].
  intros H. f_equal. by apply IH.
Qed.

Lemma contains_setitem d k v k' :
  Settings.contains (Settings.setitem d k v) k'
  = bool_decide (k = k') || Settings.contains d k'.
Proof.
  unfold Settings.contains. destruct (decide (k = k')) as [<-|Hne].
  - by rewrite getitem_setitem_eq, bool_decide_eq_true_2.
  - by rewrite getitem_setitem_ne, bool_decide_eq_false_2.
Qed.

Lemma contains_keys d k : Settings.contains d k = true ↔ k ∈ d.*1.
Proof.
  unfold Settings.contains. induction d as [|[k' v'] d IH]; simpl.
  - split; [done|]. by intros ?%not_elem_of_nil.
  - destruct (bool_decide (k' = k)) eqn:Hk.
    + apply bool_decide_eq_true in Hk as ->. split; [by left|done].
    + apply bool_decide_eq_false in Hk. rewrite IH.
      split; [by right|]. intros [?|?]%elem_of_cons; [congruence|done].
Qed.

Lemma getitem_app d1 d2 k :
  Settings.getitem (d1 ++ d2) k
  = match Settings.getitem d1 k with
    | Some v => Some v
    | None => Settings.getitem d2 k
    end.
Proof.
  induction d1 as [|[k' v'] d1 IH]; simpl; [done|].
  by destruct (bool_decide (k' = k)).
Qed.

(** ** Reading the configuration *)

Lemma C_bind_run {A B} (c : Settings.C A) (f : A → Settings.C B) t :
  (c ≫= f) t =
  match c t with
  | (inr a, t') => f a t'
  | (inl e, t') => (inl e, t')
  end.
Proof. reflexivity. Qed.

Lemma C_bind_inr {A B} (c : Settings.C A) (f : A → Settings.C B) t b t' :
  (c ≫= f) t = (inr b, t') →
  ∃ a t1, c t = (inr a, t1) ∧ f a t1 = (inr b, t').
Proof.
  rewrite C_bind_run. destruct (c t) as [[e|a] t1]; [done|]. eauto.
Qed.

Lemma item_inr config k v t t' :
  Settings.item config k t = (inr v, t') →
  Settings.getitem config k = Some v ∧ t' = t.
Proof.
  unfold Settings.item. destruct (Settings.getitem config k); [|done].
  by intros [= <- <-].
Qed.

(** The configuration file sets the keys the configuration has, the last
    item of a key winning, and adds none. *)
Lemma from_file_spec items : ∀ config t,
  ∃ config' shown_,
    Settings.from_file items config t
      = (inr config', Settings.Tty (Settings.typed t)
                        (Settings.noticed t ++ shown_))
    ∧ config'.*1 = config.*1
    ∧ (∀ k, Settings.getitem config' k
        = match Settings.getitem
                  (reverse (prod_map id Settings.VStr <$> items)) k with
          | Some v => if Settings.contains config k then Some v else None
          | None => Settings.getitem config k
          end)
    ∧ Forall (λ n, Settings.prompt n = false) shown_.
Proof.
  induction items as [|[key v] items IH]; intros config t.
  - exists config, []. rewrite app_nil_r. by destruct t.
  - cbn [Settings.from_file].
    destruct (Settings.contains config key) eqn:Hc.
    + destruct (IH (Settings.setitem config key (Settings.VStr v)) t)
        as (config' & shown_ & -> & Hkeys & Hget & Hquiet).
      exists config', shown_. split; [done|].
      split; [by rewrite Hkeys, keys_setitem|]. split; [|done].
      intros k. rewrite Hget, fmap_cons, reverse_cons, getitem_app.
      rewrite contains_setitem.
      destruct (Settings.getitem (reverse _) k) as [v'|].
      * destruct (decide (key = k)) as [<-|Hne].
        -- by rewrite bool_decide_eq_true_2, Hc.
        -- by rewrite bool_decide_eq_false_2.
      * simpl. destruct (decide (key = k)) as [<-|Hne].
        -- by rewrite bool_decide_eq_true_2, getitem_setitem_eq, Hc.
        -- by rewrite bool_decide_eq_false_2, getitem_setitem_ne.
    + rewrite C_bind_run. unfold Settings.note at 1.
      destruct (IH config (Settings.Tty (Settings.typed t)
                  (Settings.noticed t ++ [Settings.Unknown_key key])))
        as (config' & shown_ & -> & Hkeys & Hget & Hquiet).
      exists config', (Settings.Unknown_key key :: shown_). simpl.
      rewrite <- app_assoc. split; [done|]. split; [done|].
      split; [|by constructor].
      intros k. rewrite Hget, reverse_cons, getitem_app.
      destruct (Settings.getitem (reverse _) k) as [v'|]; [done|].
      simpl. destruct (decide (key = k)) as [<-|Hne].
      * rewrite bool_decide_eq_true_2, Hc by done.
        unfold Settings.contains in Hc.
        by destruct (Settings.getitem config key).
      * by rewrite bool_decide_eq_false_2.
Qed.

(** The command line sets the keys among [keys] that it gives. *)
Lemma from_args_spec args keys : ∀ config t,
  (∀ k, k ∈ keys → Settings.contains config k = true) →
  ∃ config' shown_,
    Settings.from_args args keys config t
      = (inr config', Settings.Tty (Settings.typed t)
                        (Settings.noticed t ++ shown_))
    ∧ config'.*1 = config.*1
    ∧ (∀ k, Settings.getitem config' k
        = if decide (k ∈ keys)
          then match Settings.getitem args k with
               | Some v => Some v
               | None => Settings.getitem config k
               end
          else Settings.getitem config k)
    ∧ Forall (λ n, Settings.prompt n = false) shown_.
Proof.
  induction keys as [|key keys IH]; intros config t Hkeys.
  - exists config, []. rewrite app_nil_r. by destruct t.
  - cbn [Settings.from_args].
    destruct (Settings.getitem args key) as [v|] eqn:Hk.
    + rewrite C_bind_run. unfold Settings.note at 1.
      destruct (IH (Settings.setitem config key v)
                  (Settings.Tty (Settings.typed t)
                     (Settings.noticed t ++ [Settings.Overridden key])))
        as (config' & shown_ & -> & Hkeys' & Hget & Hquiet).
      { intros k Hin. rewrite contains_setitem, Hkeys by by right.
        apply orb_true_r. }
      exists config', (Settings.Overridden key :: shown_). simpl.
      rewrite <- app_assoc. split; [done|].
      split; [rewrite Hkeys', keys_setitem; [done|apply Hkeys; left]|].
      split; [|by constructor].
      intros k. rewrite Hget.
      destruct (decide (key = k)) as [<-|Hne].
      * rewrite (decide_True (P := key ∈ key :: keys)) by left.
        rewrite Hk, getitem_setitem_eq.
        by destruct (decide (key ∈ keys)).
      * rewrite getitem_setitem_ne by done.
        destruct (decide (k ∈ keys)) as [Hin|Hout].
        -- by rewrite decide_True by by right.
        -- rewrite decide_False; [done|].
           intros [?|?]%elem_of_cons; congruence.
    + destruct (IH config t)
        as (config' & shown_ & -> & Hkeys' & Hget & Hquiet).
      { intros k Hin. apply Hkeys. by right. }
      exists config', shown_. split; [done|]. split; [done|].
      split; [|done].
      intros k. rewrite Hget.
      destruct (decide (k ∈ keys)) as [Hin|Hout].
      * by rewrite decide_True by by right.
      * destruct (decide (key = k)) as [<-|Hne].
        -- rewrite decide_True by left. by rewrite Hk.
        -- rewrite decide_False; [done|].
           intros [?|?]%elem_of_cons; congruence.
Qed.

(** The loop over the destination ends on a destination it accepts. *)
Lemma ask_destination_inr h lines : ∀ dest shown_ d t',
  Settings.ask_destination h dest lines shown_ = (inr d, t') →
  Settings.why_not h d = None.
Proof.
  induction lines as [|l lines IH]; intros dest shown_ d t'; simpl;
    destruct (Settings.why_not h dest) eqn:Hwhy; try done.
  - by intros [= <- <-].
  - apply IH.
  - by intros [= <- <-].
Qed.

Lemma why_not_None h d :
  Settings.why_not h d = None →
  ∃ s, d = Settings.VStr s ∧ s ≠ EmptyString
    ∧ Posix.isdir (Settings.disk h) s = true
    ∧ Settings.permits h s = true.
Proof.
  unfold Settings.why_not. destruct d as [|s| | |]; try done.
  destruct (bool_decide (s = EmptyString)) eqn:Hs; [done|].
  apply bool_decide_eq_false in Hs.
  destruct (Posix.isdir _ s) eqn:Hd; [|done].
  destruct (Settings.permits h s) eqn:Hp; [|done].
  intros _. by exists s.
Qed.

Lemma contains_getitem d k v :
  Settings.getitem d k = Some v → Settings.contains d k = true.
Proof. unfold Settings.contains. by intros ->. Qed.

(** A step of [get_config] that may set one key that is there. *)
Lemma set_step (config config' : Settings.dict) key :
  (config' = config
   ∨ ∃ v, Settings.contains config key = true
       ∧ config' = Settings.setitem config key v) →
  config'.*1 = config.*1
  ∧ ∀ k, k ≠ key → Settings.getitem config' k = Settings.getitem config k.
Proof.
  intros [->|(v & Hc & ->)]; [done|].
  split; [by apply keys_setitem|].
  intros k Hne. by apply getitem_setitem_ne.
Qed.

(** The merge, when it returns. *)
Lemma merge_inr args defaults t c t' :
  Settings.merge args defaults t = (inr c, t') →
  c.*1 = defaults.*1
  ∧ ∀ k, Settings.getitem c k = Settings.merged args defaults k.
Proof.
  unfold Settings.merge. cbv zeta.
  intros (c1 & t1 & Hfile & Hargs)%C_bind_inr.
  assert (Hc1 : c1.*1 = defaults.*1
    ∧ ∀ k, Settings.getitem c1 k
        = match Settings.file_value args k with
          | Some v => if Settings.contains defaults k then Some v else None
          | None => Settings.getitem defaults k
          end).
  { unfold Settings.file_value, Settings.file_items.
    destruct (Settings.contains args "config") eqn:Hcfg.
    - destruct (Settings.getitem args "config") as [[| | | |[items|]]|];
        try done.
      destruct (from_file_spec items defaults t)
        as (c0 & s & Hc & Hkeys & Hget & _).
      rewrite Hc in Hfile. by injection Hfile as <- _.
    - injection Hfile as <- _. unfold Settings.contains in Hcfg.
      by destruct (Settings.getitem args "config"). }
  destruct Hc1 as [Hk1 Hg1].
  destruct (from_args_spec args c1.*1 c1 t1)
    as (c0 & s & Hc & Hk2 & Hg2 & _).
  { intros k. apply contains_keys. }
  rewrite Hc in Hargs. injection Hargs as <- _.
  split; [congruence|].
  intros k. rewrite Hg2, Hg1. unfold Settings.merged.
  destruct (Settings.contains defaults k) eqn:Hdk.
  - rewrite decide_True by (rewrite Hk1; by apply contains_keys).
    by destruct (Settings.getitem args k), (Settings.file_value args k).
  - rewrite decide_False
      by (rewrite Hk1, <- contains_keys; by rewrite Hdk).
    unfold Settings.contains in Hdk.
    destruct (Settings.getitem defaults k); [done|].
    by destruct (Settings.file_value args k).
Qed.

(** The merge returns when the configuration file, if any, has its section
    [main]; it asks nothing. *)
Lemma merge_run args defaults t :
  (Settings.contains args "config" = true →
   ∃ its, Settings.getitem args "config"
          = Some (Settings.VFile (Some its))) →
  ∃ c shown_,
    Settings.merge args defaults t
      = (inr c, Settings.Tty (Settings.typed t)
                  (Settings.noticed t ++ shown_))
    ∧ Forall (λ n, Settings.prompt n = false) shown_.
Proof.
  intros Hmain. unfold Settings.merge. cbv zeta. rewrite C_bind_run.
  assert (Hargs : ∀ c1 s1, Forall (λ n, Settings.prompt n = false) s1 →
    ∃ c shown_,
      Settings.from_args args c1.*1 c1
        (Settings.Tty (Settings.typed t) (Settings.noticed t ++ s1))
      = (inr c, Settings.Tty (Settings.typed t)
                  (Settings.noticed t ++ shown_))
      ∧ Forall (λ n, Settings.prompt n = false) shown_).
  { intros c1 s1 Hq1.
    destruct (from_args_spec args c1.*1 c1
                (Settings.Tty (Settings.typed t) (Settings.noticed t ++ s1)))
      as (c & s2 & -> & _ & _ & Hq2).
    { intros k. apply contains_keys. }
    exists c, (s1 ++ s2). cbn [Settings.typed Settings.noticed].
    rewrite <- app_assoc. split; [done|]. by apply Forall_app. }
  destruct (Settings.contains args "config") eqn:Hcfg.
  - destruct (Hmain eq_refl) as [its ->].
    destruct (from_file_spec its defaults t)
      as (c1 & s1 & -> & _ & _ & Hq1).
    by apply Hargs.
  - cbn [mret Settings.C_ret].
    destruct (Hargs defaults [] (Forall_nil_2 _)) as (c & s & Hc & Hq).
    rewrite app_nil_r in Hc. destruct t as [lines ns]. eauto.
Qed.

(** What a returning [get_config] did: it merged the defaults, the file and
    the command line, and then only set the user name, the password and the
    destination. *)
Lemma get_config_inr h args defaults t config t' :
  Settings.get_config h args defaults t = (inr config, t') →
  config.*1 = defaults.*1
  ∧ (∀ k, k ≠ "username" → k ≠ "password" → k ≠ "destination" →
       Settings.getitem config k = Settings.merged args defaults k)
  ∧ ∃ d, Settings.getitem config "destination" = Some d
      ∧ Settings.why_not h d = None.
Proof.
  unfold Settings.get_config.
  intros (c & t2 & Hmerge & Hrest)%C_bind_inr.
  apply C_bind_inr in Hrest as (username & t3 & Hu & Hrest).
  apply C_bind_inr in Hrest as (c3 & t4 & Huser & Hrest).
  apply C_bind_inr in Hrest as (password & t5 & Hp & Hrest).
  apply C_bind_inr in Hrest as (c4 & t6 & Hpass & Hrest).
  apply C_bind_inr in Hrest as (dest & t7 & Hd & Hrest).
  apply C_bind_inr in Hrest as (c5 & t8 & Habs & Hrest).
  apply C_bind_inr in Hrest as (dest' & t9 & Hd' & Hrest).
  apply C_bind_inr in Hrest as (d & t10 & Hloop & Hrest).
  injection Hrest as <- <-.
  apply item_inr in Hu as [Hu ->], Hp as [Hp ->], Hd as [Hd ->],
    Hd' as [Hd' ->].
  apply merge_inr in Hmerge as [Hk2 Hg2].
  assert (Hs3 : c3 = c
    ∨ ∃ v, Settings.contains c "username" = true
        ∧ c3 = Settings.setitem c "username" v).
  { destruct (negb (Settings.truthy username)).
    - apply C_bind_inr in Huser as (l & tl & _ & Hret).
      injection Hret as <- _. right. eexists. split; [|done].
      by eapply contains_getitem.
    - injection Huser as <- _. by left. }
  assert (Hs4 : c4 = c3
    ∨ ∃ v, Settings.contains c3 "password" = true
        ∧ c4 = Settings.setitem c3 "password" v).
  { destruct (negb (Settings.truthy password)).
    - apply C_bind_inr in Hpass as (u & tu & _ & Hpass).
      apply C_bind_inr in Hpass as (l & tl & _ & Hret).
      injection Hret as <- _. right. eexists. split; [|done].
      by eapply contains_getitem.
    - injection Hpass as <- _. by left. }
  assert (Hs5 : c5 = c4
    ∨ ∃ v, Settings.contains c4 "destination" = true
        ∧ c5 = Settings.setitem c4 "destination" v).
  { destruct (Settings.truthy dest).
    - destruct dest; try done. injection Habs as <- _.
      right. eexists. split; [|done]. by eapply contains_getitem.
    - injection Habs as <- _. by left. }
  apply set_step in Hs3 as [Hk3 Hg3], Hs4 as [Hk4 Hg4], Hs5 as [Hk5 Hg5].
  split; [|split].
  - rewrite keys_setitem by by eapply contains_getitem. congruence.
  - intros k Hu' Hp' Hd''.
    rewrite getitem_setitem_ne, Hg5, Hg4, Hg3 by done. apply Hg2.
  - exists d. split; [apply getitem_setitem_eq|].
    unfold Settings.destination_loop in Hloop.
    by eapply ask_destination_inr.
Qed.

(** X11.  A configuration [get_config] returns has a destination that is a
    non-empty path of a directory that is writeable and searchable: the loop
    over the destination ends on nothing else. *)
Theorem get_config_destination_valid h args defaults t config t' :
  Settings.get_config h args defaults t = (inr config, t') →
  ∃ d, Settings.getitem config "destination" = Some (Settings.VStr d)
    ∧ d ≠ EmptyString
    ∧ Posix.isdir (Settings.disk h) d = true
    ∧ Settings.permits h d = true.
Proof.
  intros (_ & _ & d & Hd & Hwhy)%get_config_inr.
  apply why_not_None in Hwhy as (s & -> & ?). by exists s.
Qed.

(** X12.  A configuration [get_config] returns has exactly the keys of the
    defaults, in their order: a key of the configuration file or of the
    command line that the defaults do not have never enters it. *)
Theorem get_config_keeps_keys h args defaults t config t' :
  Settings.get_config h args defaults t = (inr config, t') →
  config.*1 = defaults.*1
  ∧ ∀ k, Settings.contains defaults k = false →
      Settings.getitem config k = None.
Proof.
  intros (Hkeys & _)%get_config_inr. split; [done|].
  intros k Hk.
  destruct (Settings.getitem config k) as [v|] eqn:Hv; [|done].
  apply contains_getitem, contains_keys in Hv.
  rewrite Hkeys in Hv. apply contains_keys in Hv. congruence.
Qed.

(** X13.  For every key of the defaults other than the user name, the
    password and the destination, the returned configuration holds the value
    of the command line when the command line gives the key, otherwise the
    value of the last item of that key in the section [main] of the
    configuration file, as a string, otherwise the default. *)
Theorem get_config_precedence h args defaults t config t' k :
  Settings.get_config h args defaults t = (inr config, t') →
  Settings.contains defaults k = true →
  k ≠ "username" → k ≠ "password" → k ≠ "destination" →
  Settings.getitem config k
  = match Settings.getitem args k with
    | Some v => Some v
    | None =>
        match Settings.file_value args k with
        | Some v => Some v
        | None => Settings.getitem defaults k
        end
    end.
Proof.
  intros (_ & Hrest & _)%get_config_inr Hk Hu Hp Hd.
  rewrite Hrest by done. unfold Settings.merged. by rewrite Hk.
Qed.

Lemma file_value_string args k v :
  Settings.file_value args k = Some v → ∃ s, v = Settings.VStr s.
Proof.
  unfold Settings.file_value.
  generalize (Settings.file_items args). intros items.
  rewrite <- fmap_reverse. induction (reverse items) as [|[k' s] l IH];
    simpl; [done|].
  destruct (bool_decide (k' = k)); [|done].
  intros [= <-]. by exists s.
Qed.

(** X14.  What the configuration file says of [overwrite] and of [remove]
    is read as a string: unless the command line gives the key, any
    non-empty string switches it on for [run], also the strings [false],
    [no] and [0]; only the empty string leaves it off. *)
Theorem config_file_strings_switch_on h args t config t' k s :
  Settings.get_config h args Settings.DEFAULTS t = (inr config, t') →
  k = "overwrite" ∨ k = "remove" →
  Settings.getitem args k = None →
  Settings.file_value args k = Some (Settings.VStr s) →
  ∃ cfg, Settings.settings config = Some cfg
    ∧ (if bool_decide (k = "overwrite") then overwrite cfg else remove cfg)
      = negb (bool_decide (s = EmptyString)).
Proof.
  intros Hrun Hk Hargs Hfile.
  pose proof Hrun as (_ & Hrest & d & Hd & Hwhy)%get_config_inr.
  apply why_not_None in Hwhy as (dest & -> & _).
  assert (Ho : ∃ o, Settings.getitem config "overwrite" = Some o).
  { rewrite Hrest by done. unfold Settings.merged. simpl.
    destruct (Settings.getitem args "overwrite"); [eauto|].
    destruct (Settings.file_value args "overwrite"); eauto. }
  assert (Hr : ∃ r, Settings.getitem config "remove" = Some r).
  { rewrite Hrest by done. unfold Settings.merged. simpl.
    destruct (Settings.getitem args "remove"); [eauto|].
    destruct (Settings.file_value args "remove"); eauto. }
  destruct Ho as [o Ho], Hr as [r Hr].
  unfold Settings.settings. rewrite Hd, Ho, Hr. eexists. split; [done|].
  simpl.
  destruct Hk as [-> | ->]; simpl.
  - rewrite Hrest in Ho by done. unfold Settings.merged in Ho. simpl in Ho.
    rewrite Hargs, Hfile in Ho. by injection Ho as <-.
  - rewrite Hrest in Hr by done. unfold Settings.merged in Hr. simpl in Hr.
    rewrite Hargs, Hfile in Hr. by injection Hr as <-.
Qed.

(** X15.  When the merged configuration has a user name and a password and
    its destination, made absolute, is a writeable directory, [get_config]
    asks nothing: it returns without taking a line from the user, with that
    user name, that password and the absolute destination. *)
Theorem get_config_asks_nothing h args defaults t u p s :
  (Settings.contains args "config" = true →
   ∃ its, Settings.getitem args "config"
          = Some (Settings.VFile (Some its))) →
  Settings.merged args defaults "username" = Some u →
  Settings.truthy u = true →
  Settings.merged args defaults "password" = Some p →
  Settings.truthy p = true →
  Settings.merged args defaults "destination" = Some (Settings.VStr s) →
  s ≠ EmptyString →
  Settings.why_not h (Settings.VStr (Posix.abspath (Settings.cwd h) s))
    = None →
  ∃ config shown_,
    Settings.get_config h args defaults t
    = (inr config, Settings.Tty (Settings.typed t)
                     (Settings.noticed t ++ shown_))
    ∧ Forall (λ n, Settings.prompt n = false) shown_
    ∧ Settings.getitem config "username" = Some u
    ∧ Settings.getitem config "password" = Some p
    ∧ Settings.getitem config "destination"
      = Some (Settings.VStr (Posix.abspath (Settings.cwd h) s)).
Proof.
  intros Hmain Hu Htu Hp Htp Hd Hs Hwhy.
  destruct (merge_run args defaults t Hmain) as (c & s0 & Hmerge & Hq).
  pose proof (merge_inr _ _ _ _ _ Hmerge) as [_ Hget].
  assert (Hloop : ∀ lines shown_,
    Settings.ask_destination h
      (Settings.VStr (Posix.abspath (Settings.cwd h) s)) lines shown_
    = (inr (Settings.VStr (Posix.abspath (Settings.cwd h) s)),
       Settings.Tty lines shown_)).
  { intros lines shown_.
    destruct lines; cbn [Settings.ask_destination]; by rewrite Hwhy. }
  unfold Settings.get_config.
  rewrite C_bind_run, Hmerge.
  rewrite C_bind_run. unfold Settings.item at 1. rewrite Hget, Hu.
  cbn [mret Settings.C_ret]. rewrite Htu. cbn [negb].
  rewrite C_bind_run. cbn [mret Settings.C_ret].
  rewrite C_bind_run. unfold Settings.item at 1. rewrite Hget, Hp.
  cbn [mret Settings.C_ret]. rewrite Htp. cbn [negb].
  rewrite C_bind_run. cbn [mret Settings.C_ret].
  rewrite C_bind_run. unfold Settings.item at 1. rewrite Hget, Hd.
  cbn [mret Settings.C_ret].
  replace (Settings.truthy (Settings.VStr s)) with true
    by (simpl; by rewrite bool_decide_eq_false_2).
  rewrite C_bind_run. cbn [mret Settings.C_ret].
  rewrite C_bind_run. unfold Settings.item at 1.
  rewrite getitem_setitem_eq. cbn [mret Settings.C_ret].
  rewrite C_bind_run. unfold Settings.destination_loop.
  cbn [Settings.typed Settings.noticed].
  rewrite Hloop. cbn [mret Settings.C_ret].
  eexists _, s0. split; [done|]. split; [done|]. split; [|split].
  - rewrite !getitem_setitem_ne by done. by rewrite Hget.
  - rewrite !getitem_setitem_ne by done. by rewrite Hget.
  - apply getitem_setitem_eq.
Qed.

(** ** The application as [__init__] builds it *)

Lemma getitem_of_key d k : k ∈ d.*1 → ∃ v, Settings.getitem d k = Some v.
Proof.
  intros Hk%contains_keys. unfold Settings.contains in Hk.
  destruct (Settings.getitem d k); [eauto|done].
Qed.

(** X16.  When [__init__] returns, the level is one of the standard ones,
    the configuration gives [run] a destination that is a writeable
    directory, and the configuration that was just logged is the
    configuration with the password shown as six stars whenever there is
    one. *)
Theorem init_result h args t lvl config t' :
  Settings.init h args t = (inr (lvl, config), t') →
  DEBUG ≤ lvl ≤ CRITICAL
  ∧ (∃ cfg, Settings.settings config = Some cfg
       ∧ Posix.isdir (Settings.disk h) (destination cfg) = true
       ∧ Settings.permits h (destination cfg) = true)
  ∧ ∃ before logged,
      Settings.noticed t' = before ++ [Settings.Configuration logged]
      ∧ logged.*1 = config.*1
      ∧ (∀ k, k ≠ "password" →
           Settings.getitem logged k = Settings.getitem config k)
      ∧ ∃ v, Settings.getitem config "password" = Some v
          ∧ Settings.getitem logged "password"
            = Some (if Settings.truthy v then Settings.VStr "******" else v).
Proof.
  unfold Settings.init.
  intros (v0 & t1 & _ & Hrest)%C_bind_inr.
  apply C_bind_inr in Hrest as (verbose & t2 & _ & Hrest).
  apply C_bind_inr in Hrest as (config0 & t3 & Hcfg & Hrest).
  apply C_bind_inr in Hrest as (logged & t4 & Hmask & Hrest).
  apply C_bind_inr in Hrest as ([] & t5 & Hnote & Hrest).
  injection Hrest as <- <- <-.
  split; [apply logger_level_range|].
  pose proof Hcfg as (Hkeys & _ & d & Hd & Hwhy)%get_config_inr.
  apply why_not_None in Hwhy as (dest & -> & _ & Hdir & Hperm).
  split.
  - destruct (getitem_of_key config0 "overwrite") as [o Ho].
    { rewrite Hkeys. apply list_elem_of_In. simpl. tauto. }
    destruct (getitem_of_key config0 "remove") as [r Hr].
    { rewrite Hkeys. apply list_elem_of_In. simpl. tauto. }
    unfold Settings.settings. rewrite Hd, Ho, Hr. eauto.
  - unfold Settings.masked in Hmask.
    apply C_bind_inr in Hmask as (pw & tp & Hpw & Hret).
    apply item_inr in Hpw as [Hpw ->]. injection Hret as <- <-.
    injection Hnote as <-.
    exists (Settings.noticed t3), (Settings.setitem config0 "password"
      (if Settings.truthy pw then Settings.VStr "******" else pw)).
    split; [done|].
    split; [apply keys_setitem; by eapply contains_getitem|].
    split; [intros k Hk; by apply getitem_setitem_ne|].
    exists pw. split; [done|]. apply getitem_setitem_eq.
Qed.

(** ** Signing in *)

(** X17.  [connect_to_icloud] returns a service only when the service does
    not require two-step authentication, in which case it shows and asks
    nothing, or when the device the user chose exists, the code was sent to
    it and the code the user typed was validated for it.  It signs in
    without a password exactly when the configured password is the empty
    string. *)
Theorem connect_returns_verified icloud username password a api out :
  Auth.connect_to_icloud icloud username password a = (inr api, out) →
  (if Auth.is_empty password then icloud username None
   else icloud username (Some password)) = Some api
  ∧ ((Auth.requires_2sa api = false ∧ out = [Auth.Connecting_to_icloud])
     ∨ (Auth.requires_2sa api = true
        ∧ ∃ i d code,
            Auth.device_choice a = Some i
            ∧ Auth.pyindex (Auth.trusted_devices api) i = Some d
            ∧ Auth.send_verification_code api d = true
            ∧ Auth.validation_code a = Some code
            ∧ Auth.validate_verification_code api d code = true
            ∧ out = Auth.Connecting_to_icloud :: Auth.Two_step_required
                    :: imap (λ i d, Auth.Device_line i (Auth.label d))
                         (Auth.trusted_devices api)
                    ++ [Auth.Which_device; Auth.Enter_code])).
Proof.
  unfold Auth.connect_to_icloud.
  destruct (if Auth.is_empty password then _ else _) as [api0|]; [|done].
  destruct (Auth.requires_2sa api0) eqn:H2sa.
  - cbv zeta.
    destruct (Auth.device_choice a) as [i|]; [|done].
    destruct (Auth.pyindex _ i) as [d|] eqn:Hd; [|done].
    destruct (Auth.send_verification_code api0 d) eqn:Hsend; [|done].
    destruct (Auth.validation_code a) as [code|]; [|done].
    destruct (Auth.validate_verification_code api0 d code) eqn:Hval; [|done].
    simpl. intros [= <- <-]. split; [done|]. right. split; [done|].
    by exists i, d, code.
  - intros [= <- <-]. split; [done|]. by left.
Qed.

(** * The further properties at work *)

(** X3 on section 8 after the pipeline: both photos are there. *)
Lemma all_existing_all_skipped_witness :
  let w := Scenario.downloaded [] in
  (listing_end Scenario.listing = Eof
   ∧ ∀ p, p ∈ photos_all Scenario.listing →
       OS.isfile (files w) (Path.join "/d" (filename p)) = true)
  ∧ files (download_photos (Scenario.app false true) Scenario.listing "/d"
             false w).2 = files w.
Proof.
  intros w.
  assert (Hall : ∀ p, p ∈ photos_all Scenario.listing →
            OS.isfile (files w) (Path.join "/d" (filename p)) = true).
  { intros p Hp. apply list_elem_of_In in Hp. simpl in Hp.
    destruct Hp as [<-|[<-|[]]]; vm_compute; reflexivity. }
  split; [split; [reflexivity|exact Hall]|].
  by rewrite (all_existing_all_skipped (Scenario.app false true)
                Scenario.listing "/d" w eq_refl Hall).
Defined.

(** X4 on section 8. *)
Lemma second_run_skips_everything_witness :
  download_photos (Scenario.app false true) Scenario.listing "/d" false
    (Scenario.before [])
  = (Returned Scenario.claimed, Scenario.downloaded [])
  ∧ files (download_photos (Scenario.app false true) Scenario.listing "/d"
             false (Scenario.downloaded [])).2
    = files (Scenario.downloaded []).
Proof.
  assert (H : download_photos (Scenario.app false true) Scenario.listing "/d"
                false (Scenario.before [])
              = (Returned Scenario.claimed, Scenario.downloaded []))
    by (vm_compute; reflexivity).
  split; [exact H|].
  destruct (second_run_skips_everything _ _ _ _ _ _ _ H) as [_ Hagain].
  by rewrite Hagain.
Defined.

(** X5 on the stream that breaks after two bytes. *)
Lemma broken_transfer_leaves_partial_file_witness :
  let w := Scenario.world_of Scenario.empty_dir [] in
  (download Scenario.breaking = Some (Stream ["001"; "002"]%byte Broken)
   ∧ OS.open_target (files w) (Path.join "/d" (filename Scenario.breaking))
     = inr "/d/a.jpg")
  ∧ ∃ w1,
      transfer (Scenario.app false false) Scenario.breaking "/d/a.jpg" w
        = (Raised ConnectionError, w1)
      ∧ files w1 !! "/d/a.jpg" = Some (File ["001"; "002"]%byte).
Proof.
  intros w. split; [split; vm_compute; reflexivity|].
  destruct (broken_transfer_leaves_partial_file (Scenario.app false false)
              "/d" Scenario.breaking (Stream ["001"; "002"]%byte Broken)
              "/d/a.jpg" w eq_refl eq_refl)
    as (w1 & Hrun & Hfile & _); [vm_compute; reflexivity|].
  exists w1. split; [exact Hrun | exact Hfile].
Defined.

(** X6 on section 8: [a.jpg] goes, [b.jpg] stays. *)
Lemma confirmed_removal_removes_candidates_witness :
  let w := Scenario.downloaded [true] in
  (OS.scandir "/d" w = (Returned Desk.entries, w)
   ∧ candidates Scenario.claimed Desk.entries ≠ []
   ∧ stdin w = [true])
  ∧ ∃ w', remove_missing (Scenario.app false true) "/d" Scenario.claimed w
          = (Returned tt, w')
        ∧ files w' !! "/d/a.jpg" = None.
Proof.
  intros w.
  assert (Hscan : OS.scandir "/d" w = (Returned Desk.entries, w))
    by (vm_compute; reflexivity).
  assert (Hne : candidates Scenario.claimed Desk.entries ≠ [])
    by (vm_compute; discriminate).
  assert (Hin : stdin w = [true]) by reflexivity.
  split; [split; [exact Hscan|split; [exact Hne|exact Hin]]|].
  destruct (confirmed_removal_removes_candidates (Scenario.app false true)
              "/d" Scenario.claimed w Desk.entries [] Hscan Hne Hin)
    as (w' & Hrun & _ & _ & _ & Hgone & _).
  exists w'. split; [exact Hrun|].
  apply (Hgone "a.jpg" ["001"%byte]).
  - discriminate.
  - reflexivity.
  - vm_compute. reflexivity.
  - unfold Scenario.claimed.
    intros [Hown|Hown]%elem_of_union; apply elem_of_singleton in Hown;
      discriminate Hown.
Defined.

(** X7 and X8 on the run of section 8. *)
Lemma removal_is_idempotent_witness :
  let w := Scenario.downloaded [true] in
  let r := remove_missing (Scenario.app false true) "/d" Scenario.claimed w in
  (r = (Returned tt, r.2) ∧ hd_error (stdin w) = Some true)
  ∧ remove_missing (Scenario.app false true) "/d" Scenario.claimed r.2
    = (Returned tt,
       shown [Printed Checking_for_missing; Printed Nothing_to_do] r.2).
Proof.
  intros w r.
  assert (H : r = (Returned tt, r.2)) by (vm_compute; reflexivity).
  split; [split; [exact H|reflexivity]|].
  destruct (removal_is_idempotent (Scenario.app false true) "/d"
              Scenario.claimed w r.2 H eq_refl) as [_ Hagain].
  apply Hagain.
Defined.

Lemma run_mirrors_listing_witness :
  let self := Scenario.app false true in
  let w := Scenario.before [true] in
  let r := run self (Some Scenario.listing) w in
  (r = (Returned tt, r.2) ∧ remove (config self) = true
   ∧ hd_error (stdin w) = Some true)
  ∧ ∀ n c, n ≠ EmptyString → Path.has_sep n = false →
      files r.2 !! Path.join "/d" n = Some (File c) →
      ∃ p, p ∈ photos_all Scenario.listing
        ∧ Path.join "/d" n = Path.join "/d" (filename p).
Proof.
  intros self w r.
  assert (H : r = (Returned tt, r.2)) by (vm_compute; reflexivity).
  split; [split; [exact H|split; reflexivity]|].
  exact (proj1 (run_mirrors_listing self Scenario.listing w r.2 H eq_refl
                  eq_refl)).
Defined.

(** X9 at six [-v]. *)
Lemma logger_level_values_witness :
  6 ≤ 6 ∧ logger_level 6 = ERROR.
Proof.
  split; [lia|].
  apply (proj1 (proj2 (proj2 (logger_level_values 6)))). lia.
Defined.

(** X11 to X14 on the command line and the file of [Desk]. *)
Lemma get_config_destination_valid_witness :
  Settings.get_config Desk.machine Desk.args Settings.DEFAULTS
    (Settings.Tty [] [])
  = (inr Desk.config, Settings.Tty [] Desk.told)
  ∧ ∃ d, Settings.getitem Desk.config "destination" = Some (Settings.VStr d)
      ∧ d ≠ EmptyString
      ∧ Posix.isdir (Settings.disk Desk.machine) d = true
      ∧ Settings.permits Desk.machine d = true.
Proof.
  assert (H : Settings.get_config Desk.machine Desk.args Settings.DEFAULTS
                (Settings.Tty [] [])
              = (inr Desk.config, Settings.Tty [] Desk.told))
    by (vm_compute; reflexivity).
  split; [exact H|]. exact (get_config_destination_valid _ _ _ _ _ _ H).
Defined.

Lemma get_config_keeps_keys_witness :
  Settings.get_config Desk.machine Desk.args Settings.DEFAULTS
    (Settings.Tty [] [])
  = (inr Desk.config, Settings.Tty [] Desk.told)
  ∧ Settings.contains Settings.DEFAULTS "colour" = false
  ∧ Settings.getitem Desk.config "colour" = None.
Proof.
  assert (H : Settings.get_config Desk.machine Desk.args Settings.DEFAULTS
                (Settings.Tty [] [])
              = (inr Desk.config, Settings.Tty [] Desk.told))
    by (vm_compute; reflexivity).
  split; [exact H|]. split; [reflexivity|].
  apply (proj2 (get_config_keeps_keys _ _ _ _ _ _ H)). reflexivity.
Defined.

Lemma get_config_precedence_witness :
  Settings.get_config Desk.machine Desk.args Settings.DEFAULTS
    (Settings.Tty [] [])
  = (inr Desk.config, Settings.Tty [] Desk.told)
  ∧ Settings.contains Settings.DEFAULTS "overwrite" = true
  ∧ Settings.getitem Desk.config "overwrite" = Some (Settings.VStr "false").
Proof.
  assert (H : Settings.get_config Desk.machine Desk.args Settings.DEFAULTS
                (Settings.Tty [] [])
              = (inr Desk.config, Settings.Tty [] Desk.told))
    by (vm_compute; reflexivity).
  split; [exact H|]. split; [reflexivity|].
  by rewrite (get_config_precedence _ _ _ _ _ _ "overwrite" H).
Defined.

Lemma config_file_strings_switch_on_witness :
  (Settings.get_config Desk.machine Desk.args Settings.DEFAULTS
     (Settings.Tty [] [])
   = (inr Desk.config, Settings.Tty [] Desk.told)
   ∧ Settings.getitem Desk.args "overwrite" = None
   ∧ Settings.file_value Desk.args "overwrite" = Some (Settings.VStr "false"))
  ∧ ∃ cfg, Settings.settings Desk.config = Some cfg ∧ overwrite cfg = true.
Proof.
  assert (H : Settings.get_config Desk.machine Desk.args Settings.DEFAULTS
                (Settings.Tty [] [])
              = (inr Desk.config, Settings.Tty [] Desk.told))
    by (vm_compute; reflexivity).
  split; [split; [exact H|split; reflexivity]|].
  destruct (config_file_strings_switch_on _ _ _ _ _ "overwrite" "false" H
              (or_introl eq_refl) eq_refl eq_refl) as (cfg & Hcfg & Hon).
  exists cfg. split; [exact Hcfg | exact Hon].
Defined.

(** X15 on [Desk]: everything is given, nothing is asked. *)
Lemma get_config_asks_nothing_witness :
  (Settings.merged Desk.args Settings.DEFAULTS "username"
     = Some (Settings.VStr "ann")
   ∧ Settings.merged Desk.args Settings.DEFAULTS "password"
     = Some (Settings.VStr "secret")
   ∧ Settings.merged Desk.args Settings.DEFAULTS "destination"
     = Some (Settings.VStr "/d/sub/..")
   ∧ Settings.why_not Desk.machine (Settings.VStr "/d") = None)
  ∧ ∀ lines, ∃ config shown_,
      Settings.get_config Desk.machine Desk.args Settings.DEFAULTS
        (Settings.Tty lines [])
      = (inr config, Settings.Tty lines shown_).
Proof.
  split; [repeat split; vm_compute; reflexivity|].
  intros lines.
  destruct (get_config_asks_nothing Desk.machine Desk.args Settings.DEFAULTS
              (Settings.Tty lines []) (Settings.VStr "ann")
              (Settings.VStr "secret") "/d/sub/..")
    as (config & shown_ & Hrun & _); try (vm_compute; reflexivity).
  - intros _. eexists. reflexivity.
  - discriminate.
  - exists config, shown_. exact Hrun.
Defined.

(** X16 on [Desk]: two [-v] give the level 40. *)
Lemma init_result_witness :
  Settings.init Desk.machine Desk.args (Settings.Tty [] [])
  = (inr (40, Desk.config),
     (Settings.init Desk.machine Desk.args (Settings.Tty [] [])).2)
  ∧ DEBUG ≤ 40 ≤ CRITICAL.
Proof.
  assert (H : Settings.init Desk.machine Desk.args (Settings.Tty [] [])
    = (inr (40, Desk.config),
       (Settings.init Desk.machine Desk.args (Settings.Tty [] [])).2))
    by (vm_compute; reflexivity).
  split; [exact H|]. exact (proj1 (init_result _ _ _ _ _ _ H)).
Defined.

(** X17 on a service that requires two-step authentication: the user picks
    the last device with [-1] and types the right code. *)
Lemma connect_returns_verified_witness :
  let icloud := λ (_ : Settings.value) (_ : option Settings.value),
                  Some Desk.guarded in
  let a := Auth.Answers (Some (-1)) (Some "1234"%string) in
  let r := Auth.connect_to_icloud icloud (Settings.VStr "ann")
             (Settings.VStr "secret") a in
  r = (inr Desk.guarded, r.2)
  ∧ ∃ i d code,
      Auth.device_choice a = Some i
      ∧ Auth.pyindex (Auth.trusted_devices Desk.guarded) i = Some d
      ∧ Auth.send_verification_code Desk.guarded d = true
      ∧ Auth.validation_code a = Some code
      ∧ Auth.validate_verification_code Desk.guarded d code = true.
Proof.
  intros icloud a r.
  assert (H : r = (inr Desk.guarded, r.2)) by (vm_compute; reflexivity).
  split; [exact H|].
  destruct (connect_returns_verified icloud _ _ a _ _ H)
    as [_ [[Hno _]|[_ (i & d & code & ? & ? & ? & ? & ? & _)]]].
  - discriminate Hno.
  - by exists i, d, code.
Defined.

(** X19 on section 8: one photo was downloaded, one response is held. *)
Lemma responses_pile_up_witness :
  download_photos (Scenario.app false true) Scenario.listing "/d" false
    (Scenario.before [])
  = (Returned Scenario.claimed, Scenario.downloaded [])
  ∧ ∃ evs downloaded skipped overwritten total,
      console (Scenario.downloaded []) = console (Scenario.before []) ++
        pipeline_console "/d" false evs downloaded skipped overwritten total
          Scenario.claimed
      ∧ List.length (responses (handles (Scenario.downloaded [])))
        = (List.length (responses (handles (Scenario.before [])))
           + downloaded)%nat.
Proof.
  assert (H : download_photos (Scenario.app false true) Scenario.listing "/d"
                false (Scenario.before [])
              = (Returned Scenario.claimed, Scenario.downloaded []))
    by (vm_compute; reflexivity).
  split; [exact H|]. exact (responses_pile_up _ _ _ _ _ _ _ H).
Defined.

(** C3 on section 8 after the pipeline, the user saying yes: of the
    entries of [/d] only [a.jpg] is held for removal.  It is removed; the
    symbolic link to it and the directory stay, and so does [b.jpg], which
    the set names. *)
Lemma removal_candidates_exact_witness :
  let w := Scenario.downloaded [true] in
  OS.scandir "/d" w = (Returned Desk.entries, w)
  ∧ ∃ w', remove_missing (Scenario.app false true) "/d" Scenario.claimed w
          = (Returned tt, w')
      ∧ stdin w' = []
      ∧ files w' !! "/d/a.jpg" = None
      ∧ files w' !! "/d/link" = Some (Symlink "/d/a.jpg")
      ∧ files w' !! "/d/sub" = Some Dir
      ∧ files w' !! "/d/b.jpg" = files w !! "/d/b.jpg".
Proof.
  intros w.
  assert (Hscan : OS.scandir "/d" w = (Returned Desk.entries, w))
    by (vm_compute; reflexivity).
  split; [exact Hscan|].
  destruct (removal_candidates_exact (Scenario.app false true) "/d"
              Scenario.claimed w) as [Hfirst Hsecond].
  destruct (Hfirst _ _ Hscan)
    as (_ & photos_for_removal & evs & _ & _ & Hpaths & _ & Hsome).
  assert (Hout : "/d/a.jpg" ∉ Scenario.claimed).
  { unfold Scenario.claimed.
    intros [H|H]%elem_of_union; apply elem_of_singleton in H; discriminate H. }
  assert (Hin : "/d/b.jpg" ∈ Scenario.claimed).
  { unfold Scenario.claimed. apply elem_of_union. left.
    by apply elem_of_singleton. }
  assert (Ha : "/d/a.jpg" ∈ paths photos_for_removal).
  { apply Hpaths. exists "a.jpg", ["001"%byte].
    split; [reflexivity|]. split; [discriminate|]. split; [reflexivity|].
    split; [vm_compute; reflexivity|exact Hout]. }
  assert (Hne : photos_for_removal ≠ []).
  { intros ->. by apply not_elem_of_nil in Ha. }
  specialize (Hsome Hne).
  assert (Hyes : stdin w = [true]) by (vm_compute; reflexivity).
  rewrite Hyes in Hsome.
  destruct Hsome as (w' & Hrun & _ & Hrest & _ & Hfiles).
  exists w'. split; [exact Hrun|]. split; [exact Hrest|].
  split; [|split; [|split]].
  - rewrite Hfiles. by rewrite decide_True.
  - rewrite Hfiles. rewrite decide_False; [vm_compute; reflexivity|].
    intros (n & c & _ & _ & _ & Hfile & _)%Hpaths.
    vm_compute in Hfile. discriminate Hfile.
  - rewrite Hfiles. rewrite decide_False; [vm_compute; reflexivity|].
    intros (n & c & _ & _ & _ & Hfile & _)%Hpaths.
    vm_compute in Hfile. discriminate Hfile.
  - exact (Hsecond _ _ Hrun _ Hin).
Defined.

(** C10 on section 8: of the two photos of the listing [b.jpg] is skipped
    and [c.jpg] downloaded, none is overwritten, one response is held, and
    what was in [/d] is still there.  The pass over [c.jpg], for which
    there is no file, is a transfer that counts as a download. *)
Lemma downloaded_counts_transfers_witness :
  (download_photos (Scenario.app false true) Scenario.listing "/d" false
     (Scenario.before [])
   = (Returned Scenario.claimed, Scenario.downloaded [])
   ∧ ∃ evs,
       console (Scenario.downloaded []) = console (Scenario.before []) ++
         pipeline_console "/d" false evs 1 1 0 2 Scenario.claimed
       ∧ tally is_downloading evs = 1%nat
       ∧ tally is_skipping evs = 1%nat
       ∧ List.length (responses (handles (Scenario.downloaded []))) = 1%nat
       ∧ files (Scenario.before []) ⊆ files (Scenario.downloaded []))
  ∧ (let p := Scenario.healthy "c.jpg" ["004"%byte] in
     let w := Scenario.before [] in
     let r := loop_body (Scenario.app false true) "/d" false initial p w in
     r = (Returned (counted download_new "/d/c.jpg" initial), r.2)
     ∧ ∃ q s, download p = Some s
         ∧ OS.open_target (files w) "/d/c.jpg" = inr q
         ∧ files r.2 = <[q := File (pending s)]> (files w)
         ∧ handles r.2 = SourceStream "c.jpg" :: handles w).
Proof.
  destruct (downloaded_counts_transfers (Scenario.app false true)
              Scenario.listing "/d" false) as [Hrun Hpass].
  split.
  - assert (H : download_photos (Scenario.app false true) Scenario.listing
                  "/d" false (Scenario.before [])
                = (Returned Scenario.claimed, Scenario.downloaded []))
      by (vm_compute; reflexivity).
    split; [exact H|].
    destruct (Hrun _ _ _ H)
      as (evs & d & s & o & Hcon & Hsd & _ & Hd & _ & Hs & Hresp & _ & _
          & Hoff & _).
    destruct (Hoff eq_refl) as [-> Hsub].
    assert (Hone : List.length (responses (handles (Scenario.downloaded [])))
                   = 1%nat) by (vm_compute; reflexivity).
    assert (Hnone : List.length (responses (handles (Scenario.before [])))
                    = 0%nat) by (vm_compute; reflexivity).
    rewrite Hone, Hnone in Hresp. simpl in Hresp, Hsd.
    assert (d = 1%nat) as -> by lia. assert (s = 1%nat) as -> by lia.
    exists evs. split; [exact Hcon|]. split; [by symmetry|].
    split; [by symmetry|]. split; [exact Hone|exact Hsub].
  - intros p w r.
    assert (H : r = (Returned (counted download_new "/d/c.jpg" initial), r.2))
      by (vm_compute; reflexivity).
    split; [exact H|].
    destruct (Hpass initial p w _ r.2 H) as [_ [Hskip|Htransfer]].
    + destruct Hskip as (Hfile & _). vm_compute in Hfile. discriminate Hfile.
    + destruct Htransfer as (q & s & Hs & Hopen & Hfiles & Hhandles & _).
      exists q, s. split; [exact Hs|]. split; [exact Hopen|].
      split; [exact Hfiles|exact Hhandles].
Defined.
